(** * Precision crop health: hexagonal grid and capacity-constrained assignment

    A shallow embedding of [src/grid/hexgrid.py] and
    [src/assign/capacity_kmeans.py].

    Numbers.  The Python code computes with floats; here a float is read as
    the real number it stands for, so every arithmetic statement below is a
    statement of exact real arithmetic.  Comparisons of the source
    ([<=], [>], [>=]) become the decision procedures [Rle_dec], [Rlt_dec].

    Libraries.  [shapely] (polygons) and [sklearn.cluster.KMeans] are not
    part of the repository: the operations called from them are parameters
    (a class for shapely, a section variable for KMeans), and the part of
    their contract a proof needs is a hypothesis of that proof.

    Failure.  A Python call either returns or raises; [result] records
    which, and [exn] names the exception. *)

From Stdlib Require Import Reals Lra Lia ZArith List Permutation Sorted Bool.
Import ListNotations.
Open Scope R_scope.

(** ** Outcomes of a call *)

Inductive exn : Type :=
| ZeroWorkloadError   (* ValueError("Total workload is zero or negative ...") *)
| ZeroDivisionError   (* float division by zero *)
| MathDomainError     (* ValueError raised by math.sqrt on a negative number *)
| IndexError          (* list or array index out of range *)
| KeyError            (* missing dictionary key *)
| ListRemoveError     (* ValueError raised by list.remove(x): x not in list *)
| KMeansError.        (* whatever sklearn's KMeans(...).fit raises *)

Inductive result (A : Type) : Type :=
| Ok (a : A)
| Raise (e : exn).
Arguments Ok {A} a.
Arguments Raise {A} e.

Definition bind {A B : Type} (m : result A) (f : A -> result B) : result B :=
  match m with
  | Ok a => f a
  | Raise e => Raise e
  end.

Notation "x <- m ;; k" := (bind m (fun x => k))
  (at level 61, m at next level, right associativity).
Notation "' pat <- m ;; k" := (bind m (fun x => match x with pat => k end))
  (at level 61, pat pattern, m at next level, right associativity).

(** [a / b] on Python floats raises when [b] is zero. *)
Definition py_div (a b : R) : result R :=
  if Req_dec_T b 0 then Raise ZeroDivisionError else Ok (a / b).

(** [math.sqrt] raises on a negative argument. *)
Definition py_sqrt (x : R) : result R :=
  if Rlt_dec x 0 then Raise MathDomainError else Ok (sqrt x).

(** [math.hypot(x, y)]. *)
Definition hypot (x y : R) : R := sqrt (x * x + y * y).

(** [range(lo, hi)] over the integers. *)
Definition py_range (lo hi : Z) : list Z :=
  map (fun i => (lo + Z.of_nat i)%Z) (seq 0 (Z.to_nat (hi - lo))).

(** [seq[i]] for a non-negative index. *)
Definition py_index {A : Type} (l : list A) (i : nat) : result A :=
  match nth_error l i with
  | Some a => Ok a
  | None => Raise IndexError
  end.

Definition Rsum (l : list R) : R := fold_right Rplus 0 l.

(** The outcome is not the refusal of a zero workload. *)
Definition other_than_refusal {A : Type} (r : result A) : Prop :=
  r <> Raise ZeroWorkloadError.

(** ** The cell record

    A cell is a Python dict.  [generate_hex_grid] creates it with the keys
    ['id'], ['center'], ['poly'], ['area_m2']; the caller may add
    ['priority'] and ['restricted'] before the assignment, which reads
    ['priority'] with [h.get('priority', 1)].  The two optional keys are
    [option] fields.  [geom] is the type of shapely geometries. *)

Record hex_cell (geom : Type) : Type := mk_cell {
  id : Z;
  center : R * R;
  poly : geom;
  area_m2 : R;
  priority : option Z;
  restricted : option bool
}.
Arguments mk_cell {geom}.
Arguments id {geom}.
Arguments center {geom}.
Arguments poly {geom}.
Arguments area_m2 {geom}.
Arguments priority {geom}.
Arguments restricted {geom}.

(** ** A vehicle record: ['id'], optional ['battery_pct'], optional
    ['capacity_workload']. *)

Record uav : Type := mk_uav {
  uav_id : Z;
  battery_pct : option R;
  capacity_workload : option R
}.

(** ** [src/grid/hexgrid.py] *)

(** The part of shapely the grid builder calls: the [Polygon] constructor
    from a vertex ring, [.bounds] as (minx, miny, maxx, maxy),
    [.intersects], [.intersection] and [.area].

    The operations are functions here: the class describes shapely on a
    boundary that is a valid polygon and not empty, for which [.bounds]
    yields four finite numbers and the predicates and the intersection
    return.  On an empty polygon [.bounds] yields NaN and [math.floor]
    raises; on an invalid one GEOS can raise.  Such boundaries are outside
    the model, so that a statement about a grid that is returned holds for
    the source, while the model returning a grid says something about the
    source only for a boundary as described. *)
Class Shapely (geom : Type) : Type := {
  Polygon : list (R * R) -> geom;
  bounds : geom -> R * R * R * R;
  intersects : geom -> geom -> bool;
  intersection : geom -> geom -> geom;
  area : geom -> R
}.

(** Twice the signed area of a vertex ring (shoelace sum), the quantity from
    which shapely computes the area of a polygon without holes. *)
Definition cross (p q : R * R) : R := fst p * snd q - fst q * snd p.

Fixpoint cross_sum (first : R * R) (ring : list (R * R)) : R :=
  match ring with
  | [] => 0
  | p :: tl =>
      match tl with
      | [] => cross p first
      | q :: _ => cross p q + cross_sum first tl
      end
  end.

Definition shoelace (ring : list (R * R)) : R :=
  match ring with
  | [] => 0
  | p :: _ => cross_sum p ring
  end.

Module Hexgrid.

Definition ACRE_M2 : R := 4046.8564224.
Definition HEX_CONST : R := 3.0 * sqrt 3 / 2.0.

Definition hex_area (side_length_m : R) : R :=
  HEX_CONST * (side_length_m ^ 2).

Definition compute_hex_side_for_acres (cell_acres : R) : result R :=
  let target_area_m2 := cell_acres * ACRE_M2 in
  side <- py_sqrt (target_area_m2 / HEX_CONST) ;;
  Ok side.

Definition axial_to_xy (q r : Z) (s : R) : R * R :=
  let x := s * sqrt 3 * (IZR q + IZR r / 2.0) in
  let y := s * 1.5 * IZR r in
  (x, y).

(** [math.radians]. *)
Definition radians (deg : R) : R := deg * PI / 180.

Definition hex_vertices (cx cy s : R) : list (R * R) :=
  map (fun k : nat =>
         let angle_deg := 30 + 60 * INR k in
         let angle_rad := radians angle_deg in
         let vx := cx + s * cos angle_rad in
         let vy := cy + s * sin angle_rad in
         (vx, vy))
      (seq 0 6).

(** An entry of [raw_hexes]: the dict with keys 'q', 'r', 'center', 'poly'. *)
Record raw_hex (geom : Type) : Type := mk_raw {
  raw_q : Z;
  raw_r : Z;
  raw_center : R * R;
  raw_poly : geom
}.
Arguments mk_raw {geom}.
Arguments raw_center {geom}.
Arguments raw_poly {geom}.

(** [np.mean] of a non-empty list. *)
Definition np_mean (l : list R) : R := Rsum l / INR (length l).

Section Grid.
Context {geom : Type} `{Shapely geom}.

Definition hex_center_to_polygon (cx cy s : R) : geom :=
  Polygon (hex_vertices cx cy s).

(** Step 3 of [generate_hex_grid]: the two nested [for] loops, [r] outermost. *)
Definition raw_lattice (q_min q_max r_min r_max : Z) (s : R) : list (raw_hex geom) :=
  flat_map (fun r =>
    map (fun q =>
           let '(cx, cy) := axial_to_xy q r s in
           let poly := hex_center_to_polygon cx cy s in
           mk_raw q r (cx, cy) poly)
        (py_range q_min (q_max + 1)))
    (py_range r_min (r_max + 1)).

(** Step 6: the translated hexes, as (center, poly). *)
Definition translate (off_x off_y s : R) (raw_hexes : list (raw_hex geom))
  : list ((R * R) * geom) :=
  map (fun h =>
         let '(cx, cy) := raw_center h in
         let cx_t := cx + off_x in
         let cy_t := cy + off_y in
         let poly_t := hex_center_to_polygon cx_t cy_t s in
         ((cx_t, cy_t), poly_t))
      raw_hexes.

(** Step 7: one iteration of the clipping loop.  The state is the pair
    [(hex_cells, hex_id)]; a kept cell is appended under the current
    [hex_id], which is then incremented. *)
Definition clip_step (farm_polygon : geom) (ignore_slivers : bool)
    (st : list (hex_cell geom) * Z) (h : (R * R) * geom)
  : list (hex_cell geom) * Z :=
  let '(hex_cells, hex_id) := st in
  let hex_poly := snd h in
  if intersects hex_poly farm_polygon then
    let clipped := intersection hex_poly farm_polygon in
    let a := area clipped in
    if ignore_slivers then
      if Rlt_dec 1.0 a then
        (hex_cells ++ [mk_cell hex_id (fst h) clipped a None None], (hex_id + 1)%Z)
      else (hex_cells, hex_id)
    else
      (hex_cells ++ [mk_cell hex_id (fst h) clipped a None None], (hex_id + 1)%Z)
  else (hex_cells, hex_id).

Definition clip_loop (farm_polygon : geom) (ignore_slivers : bool)
    (translated_hexes : list ((R * R) * geom)) : list (hex_cell geom) * Z :=
  fold_left (clip_step farm_polygon ignore_slivers) translated_hexes ([], 0%Z).

(** [math.floor] and [math.ceil] are the library's [Zfloor] and [Zceil];
    [int] of their result changes nothing. *)
Definition generate_hex_grid (farm_polygon : geom) (cell_acres : R)
    (ignore_slivers : bool) : result (list (hex_cell geom)) :=
  side_length <- compute_hex_side_for_acres cell_acres ;;
  let s := side_length in
  let sqrt3 := sqrt 3.0 in
  let '(minx, miny, maxx, maxy) := bounds farm_polygon in
  let farm_cx := (minx + maxx) / 2.0 in
  let farm_cy := (miny + maxy) / 2.0 in
  qlo <- py_div (minx - 3 * s) (s * sqrt3) ;;
  let q_min := (Zfloor qlo - 3)%Z in
  qhi <- py_div (maxx + 3 * s) (s * sqrt3) ;;
  let q_max := (Zceil qhi + 3)%Z in
  rlo <- py_div (miny - 3 * s) (1.5 * s) ;;
  let r_min := (Zfloor rlo - 3)%Z in
  rhi <- py_div (maxy + 3 * s) (1.5 * s) ;;
  let r_max := (Zceil rhi + 3)%Z in
  let raw_hexes := raw_lattice q_min q_max r_min r_max s in
  match raw_hexes with
  | [] => Ok []
  | _ :: _ =>
      let all_x := map (fun h => fst (raw_center h)) raw_hexes in
      let all_y := map (fun h => snd (raw_center h)) raw_hexes in
      let mean_x := np_mean all_x in
      let mean_y := np_mean all_y in
      let off_x := farm_cx - mean_x in
      let off_y := farm_cy - mean_y in
      let translated_hexes := translate off_x off_y s raw_hexes in
      Ok (fst (clip_loop farm_polygon ignore_slivers translated_hexes))
  end.

(** What the clipping loop maintains of its state [(hex_cells, hex_id)]:
    the ids so far are 0, 1, 2, ... and [hex_id] is the next one. *)
Definition ids_from_zero (st : list (hex_cell geom) * Z) : Prop :=
  map id (fst st) = map Z.of_nat (seq 0 (length (fst st)))
  /\ snd st = Z.of_nat (length (fst st)).

(** The recorded area of a kept cell is the area of its clipped polygon;
    it lies above the sliver threshold and does not exceed the area of the
    full hexagon of side [s]. *)
Definition within (s : R) (c : hex_cell geom) : Prop :=
  area_m2 c = area (poly c) /\ 1 < area_m2 c /\ area_m2 c <= hex_area s.

End Grid.

End Hexgrid.

(** ** [src/assign/capacity_kmeans.py] *)

(** A Python dict with integer keys, as an association list in insertion
    order.  [d[key] = v] overwrites the value of a key already present (its
    position is kept) and appends a new key at the end. *)
Fixpoint dict_set {V : Type} (d : list (Z * V)) (key : Z) (v : V) : list (Z * V) :=
  match d with
  | [] => [(key, v)]
  | (key', v') :: d' =>
      if Z.eqb key key' then (key, v) :: d' else (key', v') :: dict_set d' key v
  end.

Fixpoint dict_get {V : Type} (d : list (Z * V)) (key : Z) : option V :=
  match d with
  | [] => None
  | (key', v') :: d' => if Z.eqb key key' then Some v' else dict_get d' key
  end.

(** [l[i] = v] for [i] in range (the callers below only write positions
    they have just read). *)
Fixpoint list_set {A : Type} (l : list A) (i : nat) (v : A) : list A :=
  match l, i with
  | [], _ => []
  | _ :: tl, O => v :: tl
  | x :: tl, S i' => x :: list_set tl i' v
  end.

(** Stable insertion sort for a decidable order; [sorted] and [list.sort]
    are stable, and an element is placed before the first element it does
    not exceed. *)
Section Sorting.
Context {A : Type} (le : A -> A -> Prop) (le_dec : forall x y, {le x y} + {~ le x y}).

Fixpoint insert_sorted (x : A) (l : list A) : list A :=
  match l with
  | [] => [x]
  | y :: l' => if le_dec x y then x :: y :: l' else y :: insert_sorted x l'
  end.

Definition py_sorted (l : list A) : list A := fold_right insert_sorted [] l.

End Sorting.

(** Order of Python tuples [(dist, b2)]: the first components decide unless
    they are equal, then the second. *)
Definition tuple_le (x y : R * nat) : Prop :=
  fst x < fst y \/ (fst x = fst y /\ (snd x <= snd y)%nat).

Definition tuple_le_dec (x y : R * nat) : {tuple_le x y} + {~ tuple_le x y}.
Proof.
  unfold tuple_le.
  destruct (Rlt_dec (fst x) (fst y)) as [Hlt|Hnlt].
  - left. now left.
  - destruct (Req_dec_T (fst x) (fst y)) as [Heq|Hne].
    + destruct (le_dec (snd x) (snd y)) as [Hle|Hnle].
      * left. right. now split.
      * right. intros [H|[_ H]]; [exact (Hnlt H) | exact (Hnle H)].
    + right. intros [H|[H _]]; [exact (Hnlt H) | exact (Hne H)].
Defined.

(** One entry of the returned statistics. *)
Record uav_stats : Type := mk_stats {
  count_hexes : nat;
  stat_workload : R;
  stat_capacity : R;
  stat_battery_pct : option R
}.

Module CapacityKMeans.

Section Assign.
Context {geom : Type}.
(** Python compares two cell dicts with [==], field by field. *)
Variable geom_eq_dec : forall a b : geom, {a = b} + {a <> b}.
(** [KMeans(n_clusters=k, random_state=seed, n_init='auto').fit(centers)]:
    [Some (labels_, cluster_centers_)], or [None] when the library raises. *)
Variable KMeans_fit : nat -> Z -> list (R * R) -> option (list nat * list (R * R)).

#[local] Abbreviation cell := (hex_cell geom).
#[local] Abbreviation buckets_t := (list (list (hex_cell geom))).

Definition cell_eq_dec (x y : cell) : {x = y} + {x <> y}.
Proof.
  decide equality.
  - decide equality. apply Bool.bool_dec.
  - decide equality. apply Z.eq_dec.
  - apply Req_dec_T.
  - decide equality; apply Req_dec_T.
  - apply Z.eq_dec.
Defined.

(** [h['area_m2'] * h.get('priority', 1)] *)
Definition workload (h : cell) : R :=
  area_m2 h * IZR (match priority h with Some p => p | None => 1%Z end).

Definition bucket_workload (bucket : list cell) : R :=
  Rsum (map workload bucket).

(** [u.get('battery_pct', 1.0)] *)
Definition battery_of (u : uav) : R :=
  match battery_pct u with Some b => b | None => 1.0 end.

(** Body of the capacity loop, for one vehicle. *)
Definition fill_capacity (total_workload battery_sum : R) (u : uav) : result uav :=
  match capacity_workload u with
  | Some _ => Ok u
  | None =>
      share <- py_div (battery_of u) battery_sum ;;
      Ok (mk_uav (uav_id u) (battery_pct u) (Some (total_workload * share)))
  end.

(** The capacity loop writes into the caller's records: it returns the
    vehicle list as the loop leaves it, together with the outcome. *)
Fixpoint fill_capacities (total_workload battery_sum : R) (uavs : list uav)
  : list uav * result unit :=
  match uavs with
  | [] => ([], Ok tt)
  | u :: rest =>
      match fill_capacity total_workload battery_sum u with
      | Ok u' =>
          let '(rest', r) := fill_capacities total_workload battery_sum rest in
          (u' :: rest', r)
      | Raise e => (u :: rest, Raise e)
      end
  end.

(** [u['capacity_workload']] *)
Definition read_capacity (u : uav) : result R :=
  match capacity_workload u with
  | Some c => Ok c
  | None => Raise KeyError
  end.

(** [[u['capacity_workload'] for u in uavs]] *)
Fixpoint read_capacities (uavs : list uav) : result (list R) :=
  match uavs with
  | [] => Ok []
  | u :: rest =>
      c <- read_capacity u ;;
      cs <- read_capacities rest ;;
      Ok (c :: cs)
  end.

(** [buckets] is the dict [{i: [] for i in range(k)}]; its keys never
    change, so it is kept as the list of its values, key [i] at position
    [i].  [buckets[i]] raises [KeyError] for a missing key. *)
Definition bucket_get (buckets : buckets_t) (i : nat) : result (list cell) :=
  match nth_error buckets i with
  | Some bk => Ok bk
  | None => Raise KeyError
  end.

(** [for idx, lab in enumerate(labels): buckets[lab].append(hex_cells[idx])] *)
Fixpoint build_buckets (hex_cells : list cell) (idx : nat) (labels : list nat)
    (buckets : buckets_t) : result buckets_t :=
  match labels with
  | [] => Ok buckets
  | lab :: rest =>
      bk <- bucket_get buckets lab ;;
      h <- py_index hex_cells idx ;;
      build_buckets hex_cells (S idx) rest (list_set buckets lab (bk ++ [h]))
  end.

(** Distance from the center of [h] to the point [c]. *)
Definition dist (h : cell) (c : R * R) : R :=
  hypot (fst (center h) - fst c) (snd (center h) - snd c).

(** [sorted(buckets[b], key=lambda h: -math.hypot(...))] *)
Definition key_le (centroid : R * R) (x y : cell) : Prop :=
  - dist x centroid <= - dist y centroid.

Definition hexes_sorted (centroid : R * R) (bucket : list cell) : list cell :=
  py_sorted (key_le centroid) (fun x y => Rle_dec _ _) bucket.

(** The inner [for b2 in range(k)] loop, collecting [candidates]. *)
Fixpoint scan_candidates (capacities : list R) (cluster_centers : list (R * R))
    (buckets : buckets_t) (b : nat) (h : cell) (b2s : list nat)
  : result (list (R * nat)) :=
  match b2s with
  | [] => Ok []
  | b2 :: rest =>
      if Nat.eqb b2 b then
        scan_candidates capacities cluster_centers buckets b h rest
      else
        cap2 <- py_index capacities b2 ;;
        bk2 <- bucket_get buckets b2 ;;
        let spare := cap2 - bucket_workload bk2 in
        if Rge_dec spare (workload h * 0.5) then
          c2 <- py_index cluster_centers b2 ;;
          let d := dist h c2 in
          more <- scan_candidates capacities cluster_centers buckets b h rest ;;
          Ok ((d, b2) :: more)
        else
          scan_candidates capacities cluster_centers buckets b h rest
  end.

(** [bucket.remove(h)]: drops the first element equal to [h]. *)
Fixpoint list_remove (h : cell) (bucket : list cell) : result (list cell) :=
  match bucket with
  | [] => Raise ListRemoveError
  | x :: tl =>
      if cell_eq_dec x h then Ok tl
      else tl' <- list_remove h tl ;; Ok (x :: tl')
  end.

(** The move of [h] from bucket [b] to bucket [chosen_b]. *)
Definition move_cell (buckets : buckets_t) (b chosen_b : nat) (h : cell)
  : result buckets_t :=
  src <- bucket_get buckets b ;;
  src' <- list_remove h src ;;
  let buckets1 := list_set buckets b src' in
  dst <- bucket_get buckets1 chosen_b ;;
  Ok (list_set buckets1 chosen_b (dst ++ [h])).

(** The [for h in hexes_sorted] loop; the boolean is [moved]. *)
Fixpoint try_move (capacities : list R) (cluster_centers : list (R * R)) (k : nat)
    (buckets : buckets_t) (b : nat) (hexes : list cell) : result (buckets_t * bool) :=
  match hexes with
  | [] => Ok (buckets, false)
  | h :: rest =>
      candidates <- scan_candidates capacities cluster_centers buckets b h (seq 0 k) ;;
      match candidates with
      | [] => try_move capacities cluster_centers k buckets b rest
      | _ :: _ =>
          chosen <- py_index (py_sorted tuple_le tuple_le_dec candidates) 0 ;;
          let chosen_b := snd chosen in
          buckets' <- move_cell buckets b chosen_b h ;;
          Ok (buckets', true)
      end
  end.

(** Body of [for b in range(k)]; the state is [(buckets, changed)]. *)
Definition process_bucket (capacities : list R) (cluster_centers : list (R * R))
    (k : nat) (st : buckets_t * bool) (b : nat) : result (buckets_t * bool) :=
  let '(buckets, changed) := st in
  bk <- bucket_get buckets b ;;
  let w := bucket_workload bk in
  cap <- py_index capacities b ;;
  if Rle_dec w cap then Ok (buckets, changed)
  else
    centroid <- py_index cluster_centers b ;;
    '(buckets', moved) <- try_move capacities cluster_centers k buckets b
                            (hexes_sorted centroid bk) ;;
    Ok (buckets', if moved then true else changed).

(** A [for] loop over indices whose body may raise. *)
Fixpoint for_each {S : Type} (body : S -> nat -> result S) (l : list nat) (s : S)
  : result S :=
  match l with
  | [] => Ok s
  | x :: rest => s' <- body s x ;; for_each body rest s'
  end.

(** One pass of the [while] body: [changed = False], then the bucket scan. *)
Definition rebalance_pass (capacities : list R) (cluster_centers : list (R * R))
    (k : nat) (buckets : buckets_t) : result (buckets_t * bool) :=
  for_each (process_bucket capacities cluster_centers k) (seq 0 k) (buckets, false).

(** [while changed and iter_count < max_iters].  [remaining] is
    [max_iters - iter_count]; the loop returns the final buckets and the
    final [iter_count]. *)
Fixpoint rebalance_loop (capacities : list R) (cluster_centers : list (R * R))
    (k : nat) (remaining : nat) (iter_count : nat) (changed : bool)
    (buckets : buckets_t) : result (buckets_t * nat) :=
  match remaining with
  | O => Ok (buckets, iter_count)
  | S remaining' =>
      if changed then
        '(buckets', changed') <- rebalance_pass capacities cluster_centers k buckets ;;
        rebalance_loop capacities cluster_centers k remaining' (S iter_count)
                       changed' buckets'
      else Ok (buckets, iter_count)
  end.

Definition max_iters (k : nat) : nat := Nat.max 200 (10 * k).

Definition rebalance (capacities : list R) (cluster_centers : list (R * R))
    (k : nat) (buckets : buckets_t) : result (buckets_t * nat) :=
  rebalance_loop capacities cluster_centers k (max_iters k) 0 true buckets.

(** The final [for i, u in enumerate(uavs)] loop, filling the two dicts. *)
Fixpoint output_loop (buckets : buckets_t) (i : nat) (uavs : list uav)
    (assignments : list (Z * list cell)) (stats : list (Z * uav_stats))
  : result (list (Z * list cell) * list (Z * uav_stats)) :=
  match uavs with
  | [] => Ok (assignments, stats)
  | u :: rest =>
      let assigned := nth i buckets [] in
      cap <- read_capacity u ;;
      output_loop buckets (S i) rest
        (dict_set assignments (uav_id u) assigned)
        (dict_set stats (uav_id u)
           (mk_stats (length assigned) (bucket_workload assigned) cap (battery_pct u)))
  end.

Definition fit_or_raise {A : Type} (fitted : option A) : result A :=
  match fitted with
  | Some r => Ok r
  | None => Raise KMeansError
  end.

(** The function.  The first component of the value is the caller's vehicle
    list after the call (the function writes into its records); the second
    is what the call returns or raises.  [rng = np.random.RandomState(seed)]
    is built and never used: [seed] stands for a seed numpy accepts and
    only reaches KMeans. *)
Definition assign_hexes_to_uavs (hex_cells : list cell) (uavs : list uav)
    (k : option nat) (seed : Z)
  : list uav * result (list (Z * list cell) * list (Z * uav_stats)) :=
  let k := match k with None => length uavs | Some k => k end in
  let workloads := map workload hex_cells in
  let centers := map center hex_cells in
  let total_workload := Rsum workloads in
  if Rle_dec total_workload 0 then (uavs, Raise ZeroWorkloadError)
  else
    let battery_sum := Rsum (map battery_of uavs) in
    let '(uavs', filled) := fill_capacities total_workload battery_sum uavs in
    (uavs',
     _ <- filled ;;
     capacities <- read_capacities uavs' ;;
     '(labels, cluster_centers) <- fit_or_raise (KMeans_fit k seed centers) ;;
     buckets <- build_buckets hex_cells 0 labels (repeat [] k) ;;
     '(buckets', _) <- rebalance capacities cluster_centers k buckets ;;
     output_loop buckets' 0 uavs' [] []).

(** *** Vocabulary of the statements *)

(** The shape of what KMeans returns: one label per sample, every label
    below [k], and [k] centers. *)
Definition KMeans_shape : Prop :=
  forall k seed centers labels cluster_centers,
    KMeans_fit k seed centers = Some (labels, cluster_centers) ->
    length labels = length centers
    /\ Forall (fun lab => (lab < k)%nat) labels
    /\ length cluster_centers = k.

(** [Sigma area * priority] over the input cells, and the battery sum. *)
Definition total_workload (hex_cells : list cell) : R :=
  Rsum (map workload hex_cells).

Definition battery_sum (uavs : list uav) : R :=
  Rsum (map battery_of uavs).

(** The capacity loop can run to its end: no vehicle needs the division,
    or the divisor is not zero. *)
Definition capacities_computable (uavs : list uav) : Prop :=
  battery_sum uavs <> 0 \/ Forall (fun u => capacity_workload u <> None) uavs.

(** The vehicle record as the capacity loop leaves it. *)
Definition filled (total bsum : R) (u : uav) : uav :=
  match capacity_workload u with
  | Some _ => u
  | None => mk_uav (uav_id u) (battery_pct u) (Some (total * (battery_of u / bsum)))
  end.

(** The number of clusters: [k], or [len(uavs)] when [k is None]. *)
Definition clusters (uavs : list uav) (k : option nat) : nat :=
  match k with None => length uavs | Some k => k end.

(** What an entry of [stats] says about vehicle [u] holding [assigned]. *)
Definition stats_of_bucket (assigned : list cell) (u : uav) (st : uav_stats) : Prop :=
  count_hexes st = length assigned
  /\ stat_workload st = bucket_workload assigned
  /\ Some (stat_capacity st) = capacity_workload u
  /\ stat_battery_pct st = battery_pct u.

(** [assignments[u['id']]], read by a caller. *)
Definition assigned_to (assignments : list (Z * list cell)) (u : uav) : list cell :=
  match dict_get assignments (uav_id u) with
  | Some cells => cells
  | None => []
  end.

(** [stats[u['id']]['count_hexes']] and [stats[u['id']]['workload']]. *)
Definition reported_count (stats : list (Z * uav_stats)) (u : uav) : nat :=
  match dict_get stats (uav_id u) with
  | Some st => count_hexes st
  | None => 0%nat
  end.

Definition reported_workload (stats : list (Z * uav_stats)) (u : uav) : R :=
  match dict_get stats (uav_id u) with
  | Some st => stat_workload st
  | None => 0
  end.

(** Bucket [b2] is a possible receiver of cell [h] leaving bucket [b]. *)
Definition qualifies (capacities : list R) (buckets : buckets_t) (b : nat)
    (h : cell) (b2 : nat) : Prop :=
  b2 <> b
  /\ exists cap2 bk2,
       nth_error capacities b2 = Some cap2
       /\ nth_error buckets b2 = Some bk2
       /\ cap2 - bucket_workload bk2 >= workload h * 0.5.

(** The bucket list and the two per-bucket tables fit [k] clusters. *)
Definition well_shaped (k : nat) (capacities : list R)
    (cluster_centers : list (R * R)) (buckets : buckets_t) : Prop :=
  length buckets = k /\ (k <= length capacities)%nat
  /\ (k <= length cluster_centers)%nat.

(** No bucket can receive [h]. *)
Definition no_receiver (capacities : list R) (buckets : buckets_t) (k b : nat)
    (h : cell) : Prop :=
  forall b2, (b2 < k)%nat -> ~ qualifies capacities buckets b h b2.

(** [chosen_b] qualifies for [h], and no qualifying bucket has a nearer
    centroid, or an equally near one under a lower index. *)
Definition nearest_receiver (capacities : list R) (cluster_centers : list (R * R))
    (buckets : buckets_t) (k b : nat) (h : cell) (chosen_b : nat) : Prop :=
  (chosen_b < k)%nat
  /\ qualifies capacities buckets b h chosen_b
  /\ exists c,
       nth_error cluster_centers chosen_b = Some c
       /\ forall b2 c2,
            (b2 < k)%nat -> qualifies capacities buckets b h b2 ->
            nth_error cluster_centers b2 = Some c2 ->
            dist h c < dist h c2 \/ (dist h c = dist h c2 /\ (chosen_b <= b2)%nat).

(** The state after [j] passes over [buckets], with the [changed] flag of
    the last of them. *)
Fixpoint passes (capacities : list R) (cluster_centers : list (R * R)) (k : nat)
    (j : nat) (buckets : buckets_t) : result (buckets_t * bool) :=
  match j with
  | O => Ok (buckets, true)
  | S j' =>
      '(buckets', _) <- passes capacities cluster_centers k j' buckets ;;
      rebalance_pass capacities cluster_centers k buckets'
  end.

(** No bucket is above its capacity. *)
Definition feasible (capacities : list R) (buckets : buckets_t) : Prop :=
  forall b bk cap,
    nth_error buckets b = Some bk -> nth_error capacities b = Some cap ->
    bucket_workload bk <= cap.

End Assign.

End CapacityKMeans.

(** ** Models of the two libraries, used to instantiate the results below *)

(** Shapely restricted to a farm that covers the whole plane: a geometry is
    its vertex ring, every hexagon meets the farm, and clipping leaves the
    hexagon as it is. *)
Definition ring_bounds (ring : list (R * R)) : R * R * R * R :=
  match ring with
  | [] => (0, 0, 0, 0)
  | p :: tl =>
      (fold_right Rmin (fst p) (map fst tl), fold_right Rmin (snd p) (map snd tl),
       fold_right Rmax (fst p) (map fst tl), fold_right Rmax (snd p) (map snd tl))
  end.

#[local] Instance plane_shapely : Shapely (list (R * R)) := {|
  Polygon := fun ring => ring;
  bounds := ring_bounds;
  intersects := fun _ _ => true;
  intersection := fun hex _ => hex;
  area := fun ring => Rabs (shoelace ring) / 2
|}.

(** A clustering that satisfies the shape contract of KMeans: it needs at
    least [k >= 1] samples, labels sample [i] with [i mod k] and returns the
    first [k] samples as centers.  On [k] samples it is what KMeans returns
    for pairwise distinct points: every point its own cluster. *)
Definition modulo_clustering (k : nat) (seed : Z) (centers : list (R * R))
  : option (list nat * list (R * R)) :=
  if (k =? 0)%nat then None
  else if (length centers <? k)%nat then None
  else Some (map (fun i => Nat.modulo i k) (seq 0 (length centers)), firstn k centers).

Definition unit_eq_dec (a b : unit) : {a = b} + {a <> b}.
Proof. left. now destruct a, b. Defined.

(** The farm of the demonstration run: 1000 m by 809.37128448 m (200 acres). *)
Definition farm_rectangle : list (R * R) :=
  [(0, 0); (1000, 0); (1000, 809.37128448); (0, 809.37128448)].

(** Two unit-area cells ten meters apart. *)
Definition cell_a : hex_cell unit := mk_cell 0 (0, 0) tt 1 None None.
Definition cell_b : hex_cell unit := mk_cell 1 (10, 0) tt 1 None None.
Definition two_cells : list (hex_cell unit) := [cell_a; cell_b].

(** Both cells in bucket 0 of two, bucket 1 empty. *)
Definition crowded : list (list (hex_cell unit)) := [[cell_a; cell_b]; []].
Definition two_centers : list (R * R) := [(0, 0); (10, 0)].

(** Vehicles: two with battery fractions only, two with tiny supplied
    capacities, and a single one with a supplied capacity. *)
Definition two_uavs : list uav :=
  [mk_uav 0 (Some 0.5) None; mk_uav 1 (Some 0.5) None].
Definition starved_uavs : list uav :=
  [mk_uav 0 (Some 1) (Some 0.1); mk_uav 1 (Some 1) (Some 0.1)].
Definition one_uav : list uav := [mk_uav 0 (Some 1) (Some 5)].
Definition twin_uavs : list uav :=
  [mk_uav 7 (Some 1) (Some 1); mk_uav 7 (Some 1) (Some 1)].

(** ** Vocabulary for the grid builder

    The clipping loop of [generate_hex_grid] read as a filter followed by a
    numbering. *)

Module HexgridSpec.
Import Hexgrid.

Section Kept.
Context {geom : Type} `{Shapely geom}.

(** The test a translated hexagon passes to become a cell. *)
Definition keeps (farm_polygon : geom) (ignore_slivers : bool)
    (h : (R * R) * geom) : bool :=
  intersects (snd h) farm_polygon
  && (if ignore_slivers
      then (if Rlt_dec 1.0 (area (intersection (snd h) farm_polygon))
            then true else false)
      else true).

(** The cell record made of a kept hexagon under the id [i]. *)
Definition record_of (farm_polygon : geom) (i : Z) (h : (R * R) * geom)
  : hex_cell geom :=
  mk_cell i (fst h) (intersection (snd h) farm_polygon)
          (area (intersection (snd h) farm_polygon)) None None.

Fixpoint number_from (farm_polygon : geom) (i : Z) (l : list ((R * R) * geom))
  : list (hex_cell geom) :=
  match l with
  | [] => []
  | h :: tl => record_of farm_polygon i h :: number_from farm_polygon (i + 1) tl
  end.

End Kept.

End HexgridSpec.

(** ** More sample data *)

(** A vehicle with an empty battery and no capacity, a single vehicle, and a
    single cell. *)
Definition flat_uavs : list uav := [mk_uav 0 (Some 0) None].
Definition lone_uav : uav := mk_uav 3 (Some 1) None.
Definition one_cell : list (hex_cell unit) := [cell_a].

(** ** [src/app.py]

    The script builds a rectangular farm, generates the grid, filters and
    prioritises the cells, creates the vehicles, precomputes their
    capacities and calls the assignment; it then exports the assignment and
    prints a summary.  The model covers the values the script computes:
    the rows of the CSV file are a list, and writing files and printing are
    left out.  The random module is a parameter: the list [random.shuffle]
    leaves, and the values [random.uniform] draws. *)

Module App.
Import Hexgrid CapacityKMeans.

Definition SEED : Z := 42.
Definition TOTAL_ACRES : R := 200.
Definition ACRE_M2 : R := 4046.8564224.
Definition FARM_W : R := 1000.0.
Definition TOTAL_AREA_M2 : R := TOTAL_ACRES * ACRE_M2.
Definition FARM_H : R := TOTAL_AREA_M2 / FARM_W.
Definition NUM_UAV : nat := 15.
Definition CELL_ACRES : R := 0.5.
Definition HIGH_PRIORITY_FRACTION : R := 0.05.

(** [int(x)] of a float truncates towards zero. *)
Definition py_int (x : R) : Z := if Rle_dec 0 x then Zfloor x else Zceil x.

(** [d[key]] on a dict key that may be missing. *)
Definition py_key {A : Type} (v : option A) : result A :=
  match v with
  | Some a => Ok a
  | None => Raise KeyError
  end.

(** [sum(f(x) for x in l)], where [f] may raise. *)
Fixpoint sum_of {A : Type} (f : A -> result R) (l : list A) : result R :=
  match l with
  | [] => Ok 0
  | x :: rest => v <- f x ;; s <- sum_of f rest ;; Ok (v + s)
  end.

(** A [for] loop that builds a list, where the body may raise. *)
Fixpoint map_result {A B : Type} (f : A -> result B) (l : list A) : result (list B) :=
  match l with
  | [] => Ok []
  | x :: rest => y <- f x ;; ys <- map_result f rest ;; Ok (y :: ys)
  end.

(** A row of [zone_allocation.csv]. *)
Record csv_row : Type := mk_row {
  row_uav_id : Z;
  row_hex_id : Z;
  row_centroid_x : R;
  row_centroid_y : R;
  row_area_m2 : R;
  row_priority : Z;
  row_restricted : bool
}.

(** What the script holds when it ends. *)
Record outcome (geom : Type) : Type := mk_outcome {
  out_filtered : list (hex_cell geom);
  out_uavs : list uav;
  out_assignments : list (Z * list (hex_cell geom));
  out_stats : list (Z * uav_stats);
  out_rows : list csv_row;
  out_total_assigned : nat;
  out_average : R
}.
Arguments mk_outcome {geom}.
Arguments out_filtered {geom}.
Arguments out_uavs {geom}.
Arguments out_assignments {geom}.
Arguments out_stats {geom}.
Arguments out_rows {geom}.
Arguments out_total_assigned {geom}.
Arguments out_average {geom}.

Section Script.
Context {geom : Type} `{Shapely geom}.
Variable geom_eq_dec : forall a b : geom, {a = b} + {a <> b}.
Variable KMeans_fit : nat -> Z -> list (R * R) -> option (list nat * list (R * R)).
(** [Point(cx, cy).within(farm)] *)
Variable point_within : R * R -> geom -> bool.
(** The list [random.shuffle] leaves in place of its argument. *)
Variable shuffle : list (hex_cell geom) -> list (hex_cell geom).
(** The value [random.uniform(0.35, 1.00)] draws for vehicle [i]. *)
Variable uniform : nat -> R.

#[local] Abbreviation cell := (hex_cell geom).

Definition farm : geom :=
  Polygon [(0, 0); (FARM_W, 0); (FARM_W, FARM_H); (0, FARM_H)].

(** The centroid filter with its fallback to the whole grid. *)
Definition centroid_filter (farm : geom) (cells : list cell) : list cell :=
  let filtered := filter (fun h => point_within (center h) farm) cells in
  if (Z.of_nat (length filtered) <? py_int (0.8 * INR (length cells)))%Z
  then cells
  else filtered.

Definition num_high (filtered : list cell) : Z :=
  Z.max 1 (py_int (INR (length filtered) * HIGH_PRIORITY_FRACTION)).

(** [set(x['id'] for x in candidates[:num_high])], after the shuffle. *)
Definition high_set (filtered : list cell) : list Z :=
  map id (firstn (Z.to_nat (num_high filtered)) (shuffle filtered)).

(** Body of the loop that adds ['priority'] and ['restricted']. *)
Definition mark (high : list Z) (h : cell) : cell :=
  mk_cell (id h) (center h) (poly h) (area_m2 h)
          (Some (if existsb (Z.eqb (id h)) high then 2%Z else 1%Z))
          (Some false).

Definition prioritise (filtered : list cell) : list cell :=
  map (mark (high_set filtered)) filtered.

Definition make_uavs : list uav :=
  map (fun i => mk_uav (Z.of_nat i) (Some (uniform i)) None) (seq 0 NUM_UAV).

(** [h['area_m2'] * h['priority']] *)
Definition app_workload (h : cell) : result R :=
  p <- py_key (priority h) ;; Ok (area_m2 h * IZR p).

(** [u['battery_pct']] *)
Definition read_battery (u : uav) : result R := py_key (battery_pct u).

(** [u['capacity_workload'] = total_workload * (u['battery_pct'] / battery_sum)] *)
Definition set_capacity (total_workload battery_sum : R) (u : uav) : result uav :=
  b <- read_battery u ;;
  share <- py_div b battery_sum ;;
  Ok (mk_uav (uav_id u) (battery_pct u) (Some (total_workload * share))).

(** The capacity block of the script; the value is the vehicle list it
    leaves. *)
Definition precompute (filtered : list cell) (uavs : list uav) : result (list uav) :=
  total_workload <- sum_of app_workload filtered ;;
  battery_sum <- sum_of read_battery uavs ;;
  map_result (set_capacity total_workload battery_sum) uavs.

(** The row written for cell [h] of vehicle [uav_id]. *)
Definition row_of (uav_id : Z) (h : cell) : result csv_row :=
  p <- py_key (priority h) ;;
  r <- py_key (restricted h) ;;
  Ok (mk_row uav_id (id h) (fst (center h)) (snd (center h)) (area_m2 h) p r).

(** The rows, in the order of [assignments.items()]. *)
Definition csv_rows (assignments : list (Z * list cell)) : result (list csv_row) :=
  rows <- map_result (fun entry => map_result (row_of (fst entry)) (snd entry))
            assignments ;;
  Ok (concat rows).

(** The summary loop: [total_assigned += stats[u['id']]['count_hexes']]. *)
Fixpoint count_assigned (stats : list (Z * uav_stats)) (uavs : list uav)
    (total_assigned : nat) : result nat :=
  match uavs with
  | [] => Ok total_assigned
  | u :: rest =>
      s <- py_key (dict_get stats (uav_id u)) ;;
      count_assigned stats rest (total_assigned + count_hexes s)
  end.

(** The script from the filter on, for the grid [cells]. *)
Definition after_grid (cells : list cell) : result (outcome geom) :=
  let filtered := centroid_filter farm cells in
  let filtered := prioritise filtered in
  let uavs := make_uavs in
  uavs <- precompute filtered uavs ;;
  let '(uavs, returned) :=
    assign_hexes_to_uavs geom_eq_dec KMeans_fit filtered uavs (Some NUM_UAV) SEED in
  '(assignments, stats) <- returned ;;
  rows <- csv_rows assignments ;;
  total_assigned <- count_assigned stats uavs 0 ;;
  average <- py_div (INR total_assigned) (INR (length uavs)) ;;
  Ok (mk_outcome filtered uavs assignments stats rows total_assigned average).

Definition main : result (outcome geom) :=
  cells <- generate_hex_grid farm CELL_ACRES true ;;
  after_grid cells.

End Script.

(** A cell of priority 2. *)
Definition is_high {geom : Type} (h : hex_cell geom) : bool :=
  match priority h with
  | Some 2%Z => true
  | _ => false
  end.

End App.

(** ** Sample data for the script *)

Definition ring_eq_dec (a b : list (R * R)) : {a = b} + {a <> b}.
Proof. decide equality. decide equality; apply Req_dec_T. Defined.

(** A clustering that puts every sample in cluster 0. *)
Definition single_cluster (k : nat) (seed : Z) (centers : list (R * R))
  : option (list nat * list (R * R)) :=
  if (k =? 0)%nat then None
  else Some (map (fun _ => 0%nat) centers, repeat (0, 0) k).

(** Two cells of the plane, without polygon. *)
Definition plot_a : hex_cell (list (R * R)) := mk_cell 0 (1, 1) [] 2 None None.
Definition plot_b : hex_cell (list (R * R)) := mk_cell 1 (3, 1) [] 2 None None.
Definition two_plots : list (hex_cell (list (R * R))) := [plot_a; plot_b].

(** Every point lies within the plane. *)
Definition in_plane (p : R * R) (farm_polygon : list (R * R)) : bool := true.

(** A shuffle that reverses, and full batteries. *)
Definition reversing (l : list (hex_cell (list (R * R)))) := rev l.
Definition full_battery (i : nat) : R := 1.

(** * Results *)

(** ** Geometry primitives *)

Module HexgridFacts.
Import Hexgrid.

Lemma sqrt3_sq : sqrt 3 * sqrt 3 = 3.
Proof. apply sqrt_sqrt. lra. Qed.

Lemma sqrt3_pos : 0 < sqrt 3.
Proof. apply sqrt_lt_R0. lra. Qed.

Lemma HEX_CONST_pos : 0 < HEX_CONST.
Proof. unfold HEX_CONST. pose proof sqrt3_pos. lra. Qed.

Lemma ACRE_M2_pos : 0 < ACRE_M2.
Proof. unfold ACRE_M2. lra. Qed.

Lemma py_sqrt_nonneg (x : R) : 0 <= x -> py_sqrt x = Ok (sqrt x).
Proof.
  intros Hx. unfold py_sqrt. destruct (Rlt_dec x 0) as [Hlt|_]; [lra | reflexivity].
Qed.

Lemma py_div_nonzero (a b : R) : b <> 0 -> py_div a b = Ok (a / b).
Proof.
  intros Hb. unfold py_div.
  destruct (Req_dec_T b 0) as [H0|_]; [contradiction | reflexivity].
Qed.

Lemma side_of_acres (cell_acres : R) :
  0 <= cell_acres ->
  compute_hex_side_for_acres cell_acres = Ok (sqrt (cell_acres * ACRE_M2 / HEX_CONST)).
Proof.
  intros Ha. unfold compute_hex_side_for_acres.
  rewrite py_sqrt_nonneg; [reflexivity|].
  pose proof HEX_CONST_pos. pose proof ACRE_M2_pos.
  apply Rmult_le_pos; [nra | left; now apply Rinv_0_lt_compat].
Qed.

Lemma hex_area_nonneg (s : R) : 0 <= hex_area s.
Proof.
  unfold hex_area. pose proof HEX_CONST_pos. pose proof (pow2_ge_0 s). nra.
Qed.

(** Fed square meters instead of acres, the side comes out scaled. *)
Lemma side_of_hex_area (s : R) :
  0 <= s -> compute_hex_side_for_acres (hex_area s) = Ok (s * sqrt ACRE_M2).
Proof.
  intros Hs. pose proof HEX_CONST_pos as Hc. pose proof ACRE_M2_pos as Ha.
  rewrite side_of_acres by apply hex_area_nonneg.
  f_equal. replace (hex_area s * ACRE_M2 / HEX_CONST) with ((s * s) * ACRE_M2).
  - rewrite sqrt_mult by nra. rewrite sqrt_square by lra. reflexivity.
  - unfold hex_area. field. lra.
Qed.

Lemma sqrt_ACRE_M2_large : 63 < sqrt ACRE_M2.
Proof.
  rewrite <- (sqrt_square 63) by lra. apply sqrt_lt_1; unfold ACRE_M2; lra.
Qed.

(** C4, as the claim states it, fails: [compute_hex_side_for_acres] takes
    its area in acres, so on the area of the hexagon of side 1 (in square
    meters) it returns [sqrt 4046.8564224], more than 63, and not 1. *)
Lemma side_for_acres_of_unit_hexagon :
  compute_hex_side_for_acres (hex_area 1) = Ok (sqrt ACRE_M2)
  /\ 63 < sqrt ACRE_M2
  /\ compute_hex_side_for_acres (hex_area 1) <> Ok 1.
Proof.
  pose proof sqrt_ACRE_M2_large as H63.
  pose proof (side_of_hex_area 1 ltac:(lra)) as H.
  rewrite Rmult_1_l in H.
  split; [exact H|]. split; [exact H63|].
  rewrite H. intros Heq. injection Heq as Heq. lra.
Qed.

(** C4, amended: for every positive side [s], the side computed for the
    hexagon area converted to acres is [s] again; applied to the area in
    square meters the function returns [s * sqrt ACRE_M2]. *)
Theorem side_for_acres_inverts_hex_area (s : R) :
  0 < s ->
  compute_hex_side_for_acres (hex_area s / ACRE_M2) = Ok s
  /\ compute_hex_side_for_acres (hex_area s) = Ok (s * sqrt ACRE_M2).
Proof.
  intros Hs.
  pose proof HEX_CONST_pos as Hc. pose proof ACRE_M2_pos as Ha.
  pose proof (hex_area_nonneg s) as Hn.
  split; [|apply side_of_hex_area; lra].
  rewrite side_of_acres.
  - f_equal. replace (hex_area s / ACRE_M2 * ACRE_M2 / HEX_CONST) with (s * s).
    + apply sqrt_square. lra.
    + unfold hex_area. field. split; lra.
  - apply Rmult_le_pos; [exact Hn | left; now apply Rinv_0_lt_compat].
Qed.

Lemma side_for_acres_inverts_hex_area_at_2 :
  0 < 2
  /\ compute_hex_side_for_acres (hex_area 2 / ACRE_M2) = Ok 2
  /\ compute_hex_side_for_acres (hex_area 2) = Ok (2 * sqrt ACRE_M2).
Proof.
  split; [lra | apply (side_for_acres_inverts_hex_area 2); lra].
Defined.

(** ** The regular hexagon *)

Lemma cos_5PI6 : cos (5 * PI / 6) = - (sqrt 3 / 2).
Proof.
  replace (5 * PI / 6) with (- (PI / 6) + PI) by field.
  rewrite neg_cos, cos_neg, cos_PI6. reflexivity.
Qed.

Lemma sin_5PI6 : sin (5 * PI / 6) = 1 / 2.
Proof.
  replace (5 * PI / 6) with (- (PI / 6) + PI) by field.
  rewrite neg_sin, sin_neg, sin_PI6. lra.
Qed.

Lemma cos_7PI6 : cos (7 * PI / 6) = - (sqrt 3 / 2).
Proof.
  replace (7 * PI / 6) with (PI / 6 + PI) by field.
  rewrite neg_cos, cos_PI6. reflexivity.
Qed.

Lemma sin_7PI6 : sin (7 * PI / 6) = - (1 / 2).
Proof.
  replace (7 * PI / 6) with (PI / 6 + PI) by field.
  rewrite neg_sin, sin_PI6. reflexivity.
Qed.

Lemma cos_3PI2' : cos (3 * PI / 2) = 0.
Proof.
  replace (3 * PI / 2) with (PI / 2 + PI) by field.
  rewrite neg_cos, cos_PI2. lra.
Qed.

Lemma sin_3PI2' : sin (3 * PI / 2) = - 1.
Proof.
  replace (3 * PI / 2) with (PI / 2 + PI) by field.
  rewrite neg_sin, sin_PI2. reflexivity.
Qed.

Lemma cos_11PI6 : cos (11 * PI / 6) = sqrt 3 / 2.
Proof.
  replace (11 * PI / 6) with (5 * PI / 6 + PI) by field.
  rewrite neg_cos, cos_5PI6. lra.
Qed.

Lemma sin_11PI6 : sin (11 * PI / 6) = - (1 / 2).
Proof.
  replace (11 * PI / 6) with (5 * PI / 6 + PI) by field.
  rewrite neg_sin, sin_5PI6. reflexivity.
Qed.

Lemma hex_vertices_explicit (cx cy s : R) :
  hex_vertices cx cy s =
  [ (cx + s * (sqrt 3 / 2), cy + s * (1 / 2));
    (cx + s * 0, cy + s * 1);
    (cx + s * - (sqrt 3 / 2), cy + s * (1 / 2));
    (cx + s * - (sqrt 3 / 2), cy + s * - (1 / 2));
    (cx + s * 0, cy + s * - 1);
    (cx + s * (sqrt 3 / 2), cy + s * - (1 / 2)) ].
Proof.
  unfold hex_vertices, radians. cbn [seq map INR].
  replace ((30 + 60 * 0) * PI / 180) with (PI / 6) by field.
  replace ((30 + 60 * 1) * PI / 180) with (PI / 2) by field.
  replace ((30 + 60 * (1 + 1)) * PI / 180) with (5 * PI / 6) by field.
  replace ((30 + 60 * (1 + 1 + 1)) * PI / 180) with (7 * PI / 6) by field.
  replace ((30 + 60 * (1 + 1 + 1 + 1)) * PI / 180) with (3 * PI / 2) by field.
  replace ((30 + 60 * (1 + 1 + 1 + 1 + 1)) * PI / 180) with (11 * PI / 6) by field.
  rewrite cos_PI6, sin_PI6, cos_PI2, sin_PI2, cos_5PI6, sin_5PI6,
    cos_7PI6, sin_7PI6, cos_3PI2', sin_3PI2', cos_11PI6, sin_11PI6.
  reflexivity.
Qed.

Lemma shoelace_hexagon (cx cy s : R) :
  shoelace (hex_vertices cx cy s) = 3 * sqrt 3 * (s * s).
Proof.
  rewrite hex_vertices_explicit.
  unfold shoelace, cross_sum, cross. cbn [fst snd].
  pose proof sqrt3_sq as Hsq. nra.
Qed.

(** ** The grid builder *)

Lemma side_positive (cell_acres : R) :
  0 < cell_acres -> 0 < sqrt (cell_acres * ACRE_M2 / HEX_CONST).
Proof.
  intros Ha. apply sqrt_lt_R0.
  pose proof HEX_CONST_pos. pose proof ACRE_M2_pos.
  apply Rmult_lt_0_compat; [nra | now apply Rinv_0_lt_compat].
Qed.

Section GridFacts.
Context {geom : Type} `{Shapely geom}.

Lemma ids_from_zero_snoc (cells : list (hex_cell geom)) (n : Z) (c : hex_cell geom) :
  ids_from_zero (cells, n) -> id c = n -> ids_from_zero (cells ++ [c], (n + 1)%Z).
Proof.
  unfold ids_from_zero. cbn [fst snd]. intros [Hids Hn] Hc.
  rewrite length_app, map_app, Nat.add_comm. cbn [length Nat.add].
  rewrite seq_S, map_app, Hids. cbn [map Nat.add]. rewrite Hc, Hn.
  split; [reflexivity | lia].
Qed.

Lemma clip_step_ids farm flag st h :
  ids_from_zero st -> ids_from_zero (clip_step farm flag st h).
Proof.
  destruct st as [cells n]. intros Hst. unfold clip_step.
  destruct (intersects (snd h) farm); [|exact Hst].
  destruct flag.
  - destruct (Rlt_dec 1.0 _); [|exact Hst].
    now apply ids_from_zero_snoc.
  - now apply ids_from_zero_snoc.
Qed.

Lemma fold_clip_ids farm flag l st :
  ids_from_zero st -> ids_from_zero (fold_left (clip_step farm flag) l st).
Proof.
  revert st. induction l as [|h l IH]; intros st Hst; cbn [fold_left].
  - exact Hst.
  - apply IH. now apply clip_step_ids.
Qed.

Lemma clip_loop_ids farm flag l : ids_from_zero (clip_loop farm flag l).
Proof.
  apply fold_clip_ids. split; reflexivity.
Qed.

(** With a positive cell size nothing in [generate_hex_grid] raises. *)
Lemma generate_hex_grid_returns farm cell_acres flag :
  0 < cell_acres ->
  exists translated_hexes,
    generate_hex_grid farm cell_acres flag
      = Ok (fst (clip_loop farm flag translated_hexes))
    /\ Forall (fun h => exists cx cy,
                 snd h = hex_center_to_polygon cx cy
                           (sqrt (cell_acres * ACRE_M2 / HEX_CONST)))
              translated_hexes.
Proof.
  intros Ha. unfold generate_hex_grid.
  rewrite side_of_acres by lra. cbn [bind].
  pose proof (side_positive cell_acres Ha) as Hs.
  set (s := sqrt (cell_acres * ACRE_M2 / HEX_CONST)) in *.
  destruct (bounds farm) as [[[minx miny] maxx] maxy].
  assert (H3 : 0 < sqrt 3.0).
  { apply sqrt_lt_R0. lra. }
  rewrite !py_div_nonzero by nra. cbn [bind].
  match goal with |- context [raw_lattice ?a ?b ?c ?d s] =>
    destruct (raw_lattice a b c d s) as [|h0 raw] eqn:Hraw end.
  - exists []. split; [reflexivity | constructor].
  - eexists. split; [reflexivity|].
    unfold translate. apply Forall_forall. intros h Hin.
    apply in_map_iff in Hin. destruct Hin as [r [Hr _]].
    destruct (raw_center r) as [cx cy]. subst h. cbn [snd]. eauto.
Qed.

(** A call that returns was given a positive cell size: a negative one
    fails in [math.sqrt], zero in the first division. *)
Lemma generate_hex_grid_positive farm cell_acres flag cells :
  generate_hex_grid farm cell_acres flag = Ok cells -> 0 < cell_acres.
Proof.
  intros Hcells. pose proof HEX_CONST_pos as Hc. pose proof ACRE_M2_pos as Hm.
  destruct (Rtotal_order 0 cell_acres) as [Hpos|[Hzero|Hneg]]; [exact Hpos| |]; exfalso.
  - subst cell_acres. unfold generate_hex_grid in Hcells.
    rewrite side_of_acres in Hcells by lra. cbn [bind] in Hcells.
    replace (0 * ACRE_M2 / HEX_CONST) with 0 in Hcells by (field; lra).
    rewrite sqrt_0 in Hcells.
    destruct (bounds farm) as [[[minx miny] maxx] maxy].
    unfold py_div at 1 in Hcells.
    destruct (Req_dec_T (0 * sqrt 3.0) 0) as [_|Hne]; [discriminate|].
    apply Hne. ring.
  - unfold generate_hex_grid, compute_hex_side_for_acres, py_sqrt in Hcells.
    destruct (Rlt_dec (cell_acres * ACRE_M2 / HEX_CONST) 0) as [_|Hnlt];
      [discriminate|].
    apply Hnlt. apply Rmult_neg_pos; [nra | now apply Rinv_0_lt_compat].
Qed.

Section Clipping.
Hypothesis area_polygon : forall ring, area (Polygon ring) = Rabs (shoelace ring) / 2.
Hypothesis area_intersection : forall a b, area (intersection a b) <= area a.

Lemma area_hexagon (cx cy s : R) : area (hex_center_to_polygon cx cy s) = hex_area s.
Proof.
  unfold hex_center_to_polygon. rewrite area_polygon, shoelace_hexagon.
  unfold hex_area, HEX_CONST.
  pose proof sqrt3_pos. rewrite Rabs_right; [lra|]. 
  pose proof (Rle_0_sqr s) as Hsq. unfold Rsqr in Hsq. nra.
Qed.

Lemma clip_step_within farm s st h :
  (exists cx cy, snd h = hex_center_to_polygon cx cy s) ->
  Forall (within s) (fst st) ->
  Forall (within s) (fst (clip_step farm true st h)).
Proof.
  destruct st as [cells n]. intros [cx [cy Hh]] Hst. unfold clip_step.
  destruct (intersects (snd h) farm); [|exact Hst].
  destruct (Rlt_dec 1.0 _) as [Hgt|]; [|exact Hst].
  cbn [fst] in *. apply Forall_app. split; [exact Hst|].
  constructor; [|constructor]. unfold within. cbn [area_m2 poly].
  split; [reflexivity|]. split; [lra|].
  rewrite <- (area_hexagon cx cy s), <- Hh. apply area_intersection.
Qed.

Lemma fold_clip_within farm s l st :
  Forall (fun h => exists cx cy, snd h = hex_center_to_polygon cx cy s) l ->
  Forall (within s) (fst st) ->
  Forall (within s) (fst (fold_left (clip_step farm true) l st)).
Proof.
  revert st. induction l as [|h l IH]; intros st Hl Hst; cbn [fold_left].
  - exact Hst.
  - inversion Hl; subst. apply IH; [assumption|]. now apply clip_step_within.
Qed.


(** C7: with sliver rejection, every cell of the generated grid records the
    area of its clipped polygon, and that area is above the threshold of
    one square meter and at most the area of the full hexagon of the
    computed side length.  Shapely's contract enters as the two
    hypotheses: the area of a polygon is the shoelace area of its ring, and
    clipping does not enlarge a geometry. *)
Theorem generated_cell_area_bounds (farm_polygon : geom) (cell_acres side : R)
    (cells : list (hex_cell geom)) :
  compute_hex_side_for_acres cell_acres = Ok side ->
  generate_hex_grid farm_polygon cell_acres true = Ok cells ->
  Forall (fun c => area_m2 c = area (poly c)
                   /\ 1 < area_m2 c /\ area_m2 c <= hex_area side) cells.
Proof.
  intros Hside Hcells.
  pose proof (generate_hex_grid_positive _ _ _ _ Hcells) as Ha.
  destruct (generate_hex_grid_returns farm_polygon cell_acres true Ha)
    as [translated [Hgen Hshape]].
  rewrite side_of_acres in Hside by lra. injection Hside as <-.
  rewrite Hgen in Hcells. injection Hcells as <-.
  apply (fold_clip_within farm_polygon _ translated ([], 0%Z) Hshape).
  constructor.
Qed.

End Clipping.

(** C8: the ids of the generated cells are 0, 1, ..., N-1 in generation
    order (hence pairwise distinct), whether or not slivers are rejected:
    an id is taken only when a cell is kept. *)
Theorem generated_ids_contiguous (farm_polygon : geom) (cell_acres : R)
    (ignore_slivers : bool) (cells : list (hex_cell geom)) :
  generate_hex_grid farm_polygon cell_acres ignore_slivers = Ok cells ->
  map id cells = map Z.of_nat (seq 0 (length cells))
  /\ NoDup (map id cells).
Proof.
  intros Hcells.
  pose proof (generate_hex_grid_positive _ _ _ _ Hcells) as Ha.
  destruct (generate_hex_grid_returns farm_polygon cell_acres ignore_slivers Ha)
    as [translated [Hgen _]].
  rewrite Hgen in Hcells. injection Hcells as <-.
  destruct (clip_loop_ids farm_polygon ignore_slivers translated) as [Hids _].
  split; [exact Hids|].
  rewrite Hids. apply Finite.Injective_map_NoDup; [|apply seq_NoDup].
  intros x y Hxy. lia.
Qed.

End GridFacts.

Lemma generated_cell_area_bounds_on_rectangle :
  exists side cells,
    compute_hex_side_for_acres 0.5 = Ok side
    /\ generate_hex_grid farm_rectangle 0.5 true = Ok cells
    /\ Forall (fun c => area_m2 c = area (poly c)
                        /\ 1 < area_m2 c /\ area_m2 c <= hex_area side) cells.
Proof.
  destruct (generate_hex_grid_returns (H := plane_shapely) farm_rectangle 0.5 true
              ltac:(lra)) as [translated [Hgen _]].
  eexists _, _. split; [apply side_of_acres; lra|]. split; [exact Hgen|].
  apply (generated_cell_area_bounds (H := plane_shapely)
           (fun ring => eq_refl) (fun a b => Rle_refl _)
           farm_rectangle 0.5 _ _ (side_of_acres 0.5 ltac:(lra)) Hgen).
Defined.

Lemma generated_ids_contiguous_on_rectangle :
  exists cells,
    generate_hex_grid farm_rectangle 0.5 true = Ok cells
    /\ map id cells = map Z.of_nat (seq 0 (length cells))
    /\ NoDup (map id cells).
Proof.
  destruct (generate_hex_grid_returns (H := plane_shapely) farm_rectangle 0.5 true
              ltac:(lra)) as [translated [Hgen _]].
  eexists. split; [exact Hgen|].
  apply (generated_ids_contiguous (H := plane_shapely) farm_rectangle 0.5 true _ Hgen).
Defined.

End HexgridFacts.

(** ** Lists and sums *)

Lemma Rsum_app (l1 l2 : list R) : Rsum (l1 ++ l2) = Rsum l1 + Rsum l2.
Proof.
  induction l1 as [|x l1 IH]; simpl.
  - lra.
  - rewrite IH. lra.
Qed.

Lemma Rsum_perm (l1 l2 : list R) : Permutation l1 l2 -> Rsum l1 = Rsum l2.
Proof.
  induction 1; simpl; lra.
Qed.

Lemma list_set_length {A : Type} (l : list A) (i : nat) (v : A) :
  length (list_set l i v) = length l.
Proof.
  revert i. induction l as [|x l IH]; intros [|i]; simpl; auto.
Qed.

Lemma list_set_other {A : Type} (l : list A) (i j : nat) (v : A) :
  i <> j -> nth_error (list_set l i v) j = nth_error l j.
Proof.
  revert i j. induction l as [|x l IH]; intros [|i] [|j] Hij; simpl; auto.
  - congruence.
Qed.

(** Replacing one list of a list of lists trades its elements for the new
    ones. *)
Lemma concat_list_set {A : Type} (l : list (list A)) (i : nat) (x y : list A) :
  nth_error l i = Some x ->
  Permutation (concat (list_set l i y) ++ x) (concat l ++ y).
Proof.
  revert i. induction l as [|z l IH]; intros [|i] Hi; simpl in *; try discriminate.
  - injection Hi as ->. rewrite <- !app_assoc.
    rewrite (Permutation_app_comm (concat l) x).
    rewrite (Permutation_app_comm (concat l) y).
    rewrite !app_assoc. apply Permutation_app_tail. apply Permutation_app_comm.
  - rewrite <- !app_assoc. apply Permutation_app_head. now apply IH.
Qed.

Lemma nth_error_Ok {A : Type} (l : list A) (i : nat) :
  (i < length l)%nat -> exists x, nth_error l i = Some x.
Proof.
  intros Hi. destruct (nth_error l i) eqn:E; [eauto|].
  apply nth_error_None in E. lia.
Qed.

Lemma py_index_Ok {A : Type} (l : list A) (i : nat) (x : A) :
  py_index l i = Ok x <-> nth_error l i = Some x.
Proof.
  unfold py_index. destruct (nth_error l i); split; congruence.
Qed.

Lemma py_index_out {A : Type} (l : list A) (i : nat) :
  (length l <= i)%nat -> py_index l i = Raise IndexError.
Proof.
  intros Hi. unfold py_index. apply nth_error_None in Hi. now rewrite Hi.
Qed.

(** ** The stable insertion sort *)

Section SortFacts.
Context {A : Type} (le : A -> A -> Prop) (le_dec : forall x y, {le x y} + {~ le x y}).

Lemma insert_sorted_perm (x : A) (l : list A) :
  Permutation (insert_sorted le le_dec x l) (x :: l).
Proof.
  induction l as [|y l IH]; simpl.
  - reflexivity.
  - destruct (le_dec x y).
    + reflexivity.
    + rewrite IH. apply perm_swap.
Qed.

Lemma py_sorted_perm (l : list A) : Permutation (py_sorted le le_dec l) l.
Proof.
  induction l as [|x l IH]; simpl.
  - reflexivity.
  - rewrite insert_sorted_perm. now constructor.
Qed.

Hypothesis le_total : forall x y, le x y \/ le y x.
Hypothesis le_trans : forall x y z, le x y -> le y z -> le x z.

Lemma insert_sorted_sorted (x : A) (l : list A) :
  StronglySorted le l -> StronglySorted le (insert_sorted le le_dec x l).
Proof.
  induction 1 as [|y l Hl IH Hy]; simpl.
  - repeat constructor.
  - destruct (le_dec x y) as [Hxy|Hxy].
    + constructor; [now constructor|].
      constructor; [exact Hxy|].
      eapply Forall_impl; [|exact Hy]. intros z Hz. eapply le_trans; eauto.
    + constructor; [exact IH|].
      assert (Hyx : le y x) by (destruct (le_total x y); [contradiction | assumption]).
      eapply Permutation_Forall.
      * symmetry. apply insert_sorted_perm.
      * constructor; assumption.
Qed.

Lemma py_sorted_sorted (l : list A) : StronglySorted le (py_sorted le le_dec l).
Proof.
  induction l as [|x l IH]; simpl.
  - constructor.
  - now apply insert_sorted_sorted.
Qed.

End SortFacts.

Lemma tuple_le_total (x y : R * nat) : tuple_le x y \/ tuple_le y x.
Proof.
  unfold tuple_le.
  destruct (Rtotal_order (fst x) (fst y)) as [H|[H|H]]; auto.
  destruct (Nat.le_ge_cases (snd x) (snd y)); [left | right]; right; auto.
Qed.

Lemma tuple_le_trans (x y z : R * nat) : tuple_le x y -> tuple_le y z -> tuple_le x z.
Proof.
  unfold tuple_le. intros [H1|[H1 H1']] [H2|[H2 H2']].
  - left. lra.
  - left. lra.
  - left. lra.
  - right. split; [lra | lia].
Qed.

(** The head of the sorted candidates is a least candidate. *)
Lemma sorted_candidates_head (candidates : list (R * nat)) (c : R * nat) :
  py_index (py_sorted tuple_le tuple_le_dec candidates) 0 = Ok c ->
  In c candidates /\ forall c', In c' candidates -> tuple_le c c'.
Proof.
  intros Hc. apply py_index_Ok in Hc.
  pose proof (py_sorted_perm tuple_le tuple_le_dec candidates) as Hperm.
  pose proof (py_sorted_sorted tuple_le tuple_le_dec tuple_le_total tuple_le_trans
                candidates) as Hsort.
  destruct (py_sorted tuple_le tuple_le_dec candidates) as [|c0 rest]; [discriminate|].
  simpl in Hc. injection Hc as ->.
  split.
  - eapply Permutation_in; [exact Hperm | now left].
  - intros c' Hin. apply (Permutation_in _ (Permutation_sym Hperm)) in Hin.
    destruct Hin as [<-|Hin].
    + destruct (tuple_le_total c c) as [H|H]; exact H.
    + inversion Hsort as [|? ? _ Hall]; subst.
      rewrite Forall_forall in Hall. now apply Hall.
Qed.

Lemma sorted_candidates_nonempty (c0 : R * nat) (candidates : list (R * nat)) :
  exists c, py_index (py_sorted tuple_le tuple_le_dec (c0 :: candidates)) 0 = Ok c.
Proof.
  pose proof (py_sorted_perm tuple_le tuple_le_dec (c0 :: candidates)) as Hperm.
  destruct (py_sorted tuple_le tuple_le_dec (c0 :: candidates)) as [|c rest] eqn:E.
  - apply Permutation_nil in Hperm. discriminate.
  - exists c. reflexivity.
Qed.

(** ** The assignment *)

Module CapacityKMeansFacts.
Import CapacityKMeans.

(** Every index of [range(k)] is below [k]. *)
Ltac range_below :=
  apply Forall_forall; intros ?b ?Hb; apply in_seq in Hb; lia.

Section AssignFacts.
Context {geom : Type}.
Variable geom_eq_dec : forall a b : geom, {a = b} + {a <> b}.
#[local] Abbreviation cell := (hex_cell geom).
#[local] Abbreviation buckets_t := (list (list (hex_cell geom))).

Lemma bucket_workload_app (l1 l2 : list cell) :
  bucket_workload (l1 ++ l2) = bucket_workload l1 + bucket_workload l2.
Proof.
  unfold bucket_workload. now rewrite map_app, Rsum_app.
Qed.

Lemma bucket_workload_perm (l1 l2 : list cell) :
  Permutation l1 l2 -> bucket_workload l1 = bucket_workload l2.
Proof.
  intros Hp. unfold bucket_workload. apply Rsum_perm. now apply Permutation_map.
Qed.

(** *** [list.remove] *)

Lemma list_remove_perm (h : cell) (l l' : list cell) :
  list_remove geom_eq_dec h l = Ok l' -> Permutation l (h :: l').
Proof.
  revert l'. induction l as [|x l IH]; intros l' Hrm; simpl in Hrm.
  - discriminate.
  - destruct (cell_eq_dec geom_eq_dec x h) as [->|Hne].
    + injection Hrm as ->. reflexivity.
    + destruct (list_remove geom_eq_dec h l) as [tl|e]; simpl in Hrm; [|discriminate].
      injection Hrm as <-. rewrite (IH tl eq_refl). apply perm_swap.
Qed.

Lemma list_remove_in (h : cell) (l : list cell) :
  In h l -> exists l', list_remove geom_eq_dec h l = Ok l'.
Proof.
  induction l as [|x l IH]; intros Hin; simpl.
  - contradiction.
  - destruct (cell_eq_dec geom_eq_dec x h) as [->|Hne]; [eauto|].
    destruct Hin as [->|Hin]; [contradiction|].
    destruct (IH Hin) as [tl ->]. simpl. eauto.
Qed.

(** *** The move *)

Lemma move_cell_spec (buckets : buckets_t) (b chosen_b : nat) (h : cell)
    (src dst : list cell) :
  chosen_b <> b ->
  nth_error buckets b = Some src ->
  nth_error buckets chosen_b = Some dst ->
  In h src ->
  exists src',
    list_remove geom_eq_dec h src = Ok src'
    /\ move_cell geom_eq_dec buckets b chosen_b h
       = Ok (list_set (list_set buckets b src') chosen_b (dst ++ [h])).
Proof.
  intros Hne Hb Hc Hin.
  destruct (list_remove_in h src Hin) as [src' Hrm].
  exists src'. split; [exact Hrm|].
  unfold move_cell, bucket_get. rewrite Hb. cbn [bind]. rewrite Hrm. cbn [bind].
  rewrite list_set_other by congruence. rewrite Hc. reflexivity.
Qed.

Lemma move_cell_perm (buckets buckets' : buckets_t) (b chosen_b : nat) (h : cell) :
  move_cell geom_eq_dec buckets b chosen_b h = Ok buckets' ->
  length buckets' = length buckets
  /\ Permutation (concat buckets') (concat buckets).
Proof.
  unfold move_cell, bucket_get. intros Hmv.
  destruct (nth_error buckets b) as [src|] eqn:Hb; cbn [bind] in Hmv; [|discriminate].
  destruct (list_remove geom_eq_dec h src) as [src'|] eqn:Hrm; cbn [bind] in Hmv;
    [|discriminate].
  destruct (nth_error (list_set buckets b src') chosen_b) as [dst|] eqn:Hc;
    cbn [bind] in Hmv; [|discriminate].
  injection Hmv as <-. split.
  - now rewrite !list_set_length.
  - pose proof (concat_list_set buckets b src src' Hb) as H1.
    pose proof (concat_list_set _ chosen_b dst (dst ++ [h]) Hc) as H2.
    apply list_remove_perm in Hrm.
    transitivity (concat (list_set buckets b src') ++ [h]).
    + apply (Permutation_app_inv_r dst). rewrite H2, <- app_assoc.
      apply Permutation_app_head. apply Permutation_app_comm.
    + apply (Permutation_app_inv_r src'). rewrite <- H1, <- app_assoc.
      apply Permutation_app_head. now rewrite Hrm.
Qed.

(** *** The candidate scan *)

Lemma scan_candidates_spec (capacities : list R) (cluster_centers : list (R * R))
    (buckets : buckets_t) (b : nat) (h : cell) (b2s : list nat) :
  (forall b2, In b2 b2s ->
     (b2 < length capacities)%nat /\ (b2 < length buckets)%nat
     /\ (b2 < length cluster_centers)%nat) ->
  exists candidates,
    scan_candidates capacities cluster_centers buckets b h b2s = Ok candidates
    /\ forall d b2,
         In (d, b2) candidates <->
         In b2 b2s /\ qualifies capacities buckets b h b2
         /\ exists c2, nth_error cluster_centers b2 = Some c2 /\ d = dist h c2.
Proof.
  induction b2s as [|b2 rest IH]; intros Hrange.
  - exists []. split; [reflexivity|]. intros d b2. split; [intros [] | intros [[] _]].
  - destruct IH as [more [Hmore Hiff]].
    { intros x Hx. apply Hrange. now right. }
    destruct (Hrange b2 (or_introl eq_refl)) as [Hcap [Hbk Hcc]].
    destruct (nth_error_Ok _ _ Hcap) as [cap2 Ecap].
    destruct (nth_error_Ok _ _ Hbk) as [bk2 Ebk].
    destruct (nth_error_Ok _ _ Hcc) as [c2 Ecc].
    cbn [scan_candidates].
    destruct (Nat.eqb b2 b) eqn:Eb.
    + apply Nat.eqb_eq in Eb. subst b2.
      exists more. split; [exact Hmore|].
      intros d x. rewrite Hiff. split.
      * intros [Hin Hq]. split; [now right | exact Hq].
      * intros [[<-|Hin] [Hq Hc]]; [destruct Hq as [Hq _]; congruence | tauto].
    + apply Nat.eqb_neq in Eb.
      unfold py_index, bucket_get. rewrite Ecap, Ebk. cbn [bind].
      destruct (Rge_dec (cap2 - bucket_workload bk2) (workload h * 0.5)) as [Hge|Hlt].
      * rewrite Ecc. cbn [bind]. rewrite Hmore. cbn [bind].
        exists ((dist h c2, b2) :: more). split; [reflexivity|].
        intros d x. cbn [In]. rewrite Hiff. split.
        -- intros [Heq|[Hin Hq]].
           ++ injection Heq as <- <-. split; [now left|]. split.
              ** split; [exact Eb|]. exists cap2, bk2. auto.
              ** exists c2. auto.
           ++ split; [now right | exact Hq].
        -- intros [[<-|Hin] [Hq [c2' [Hc2' ->]]]].
           ++ left. rewrite Ecc in Hc2'. now injection Hc2' as <-.
           ++ right. split; [exact Hin|]. split; [exact Hq|]. eauto.
      * exists more. split; [exact Hmore|].
        intros d x. rewrite Hiff. split.
        -- intros [Hin Hq]. split; [now right | exact Hq].
        -- intros [[<-|Hin] [Hq Hc]]; [|tauto].
           exfalso. destruct Hq as [_ [cap2' [bk2' [H1 [H2 H3]]]]].
           rewrite Ecap in H1. rewrite Ebk in H2.
           injection H1 as <-. injection H2 as <-. contradiction.
Qed.

(** *** The loop over the sorted cells of a bucket *)

Lemma try_move_spec (capacities : list R) (cluster_centers : list (R * R)) (k : nat)
    (buckets : buckets_t) (b : nat) (src hexes : list cell) :
  well_shaped k capacities cluster_centers buckets ->
  nth_error buckets b = Some src ->
  incl hexes src ->
  (try_move geom_eq_dec capacities cluster_centers k buckets b hexes
     = Ok (buckets, false)
   /\ Forall (no_receiver capacities buckets k b) hexes)
  \/
  (exists pre h post chosen_b src' dst,
      hexes = pre ++ h :: post
      /\ Forall (no_receiver capacities buckets k b) pre
      /\ nearest_receiver capacities cluster_centers buckets k b h chosen_b
      /\ list_remove geom_eq_dec h src = Ok src'
      /\ nth_error buckets chosen_b = Some dst
      /\ try_move geom_eq_dec capacities cluster_centers k buckets b hexes
         = Ok (list_set (list_set buckets b src') chosen_b (dst ++ [h]), true)).
Proof.
  intros [Hlen [Hcaps Hcc]] Hb.
  induction hexes as [|h rest IH]; intros Hincl.
  - left. split; [reflexivity | constructor].
  - cbn [try_move].
    destruct (scan_candidates_spec capacities cluster_centers buckets b h (seq 0 k))
      as [candidates [Hscan Hiff]].
    { intros b2 Hin. apply in_seq in Hin. lia. }
    rewrite Hscan. cbn [bind].
    destruct candidates as [|c0 more].
    + (* no receiver for h: next cell *)
      assert (Hnone : no_receiver capacities buckets k b h).
      { intros b2 Hb2 Hq.
        destruct (nth_error_Ok cluster_centers b2 ltac:(lia)) as [c2 Hc2].
        apply (proj2 (Hiff (dist h c2) b2)).
        split; [apply in_seq; lia|]. split; [exact Hq|]. eauto. }
      destruct IH as [[Hrun Hall]|[pre [h' [post [chosen_b [src' [dst H]]]]]]].
      { intros x Hx. apply Hincl. now right. }
      * left. split; [exact Hrun | now constructor].
      * right. destruct H as [-> [Hpre [Hnear [Hrm [Hdst Hrun]]]]].
        exists (h :: pre), h', post, chosen_b, src', dst.
        split; [reflexivity|]. split; [now constructor|].
        split; [exact Hnear|]. split; [exact Hrm|]. split; [exact Hdst | exact Hrun].
    + (* h moves to the head of the sorted candidates *)
      right.
      destruct (sorted_candidates_nonempty c0 more) as [[d chosen_b] Hhead].
      rewrite Hhead. cbn [bind snd].
      destruct (sorted_candidates_head _ _ Hhead) as [Hin Hleast].
      apply Hiff in Hin. destruct Hin as [Hrange [Hq [c [Hc ->]]]].
      apply in_seq in Hrange.
      assert (Hne : chosen_b <> b) by apply Hq.
      destruct (nth_error_Ok buckets chosen_b ltac:(lia)) as [dst Hdst].
      destruct (move_cell_spec buckets b chosen_b h src dst Hne Hb Hdst)
        as [src' [Hrm Hmv]].
      { apply Hincl. now left. }
      rewrite Hmv. cbn [bind].
      exists [], h, rest, chosen_b, src', dst.
      split; [reflexivity|]. split; [constructor|].
      split; [|split; [exact Hrm|split; [exact Hdst | reflexivity]]].
      split; [lia|]. split; [exact Hq|].
      exists c. split; [exact Hc|].
      intros b2 c2 Hb2 Hq2 Hc2.
      assert (Hin2 : In (dist h c2, b2) (c0 :: more)).
      { apply Hiff. split; [apply in_seq; lia|]. split; [exact Hq2|]. eauto. }
      apply Hleast in Hin2. exact Hin2.
Qed.

(** *** Sorting a bucket farthest-first *)

Lemma hexes_sorted_perm (centroid : R * R) (bk : list cell) :
  Permutation (hexes_sorted centroid bk) bk.
Proof. apply py_sorted_perm. Qed.

Lemma hexes_sorted_descending (centroid : R * R) (bk : list cell) :
  StronglySorted (fun x y => dist x centroid >= dist y centroid)
                 (hexes_sorted centroid bk).
Proof.
  assert (Hs : StronglySorted (key_le centroid) (hexes_sorted centroid bk)).
  { apply py_sorted_sorted; unfold key_le.
    - intros x y. lra.
    - intros x y z. lra. }
  induction Hs as [|x l _ IH Hx]; constructor; [exact IH|].
  eapply Forall_impl; [|exact Hx]. unfold key_le. intros y Hy. lra.
Qed.

(** *** One bucket of a pass *)

Lemma process_bucket_light (capacities : list R) (cluster_centers : list (R * R))
    (k : nat) (buckets : buckets_t) (changed : bool) (b : nat)
    (bk : list cell) (cap : R) :
  nth_error buckets b = Some bk ->
  nth_error capacities b = Some cap ->
  bucket_workload bk <= cap ->
  process_bucket geom_eq_dec capacities cluster_centers k (buckets, changed) b
    = Ok (buckets, changed).
Proof.
  intros Hb Hcap Hle. unfold process_bucket, bucket_get, py_index.
  rewrite Hb, Hcap. cbn [bind].
  destruct (Rle_dec (bucket_workload bk) cap); [reflexivity | contradiction].
Qed.

Lemma process_bucket_heavy (capacities : list R) (cluster_centers : list (R * R))
    (k : nat) (buckets : buckets_t) (changed : bool) (b : nat)
    (bk : list cell) (cap : R) (centroid : R * R) :
  nth_error buckets b = Some bk ->
  nth_error capacities b = Some cap ->
  nth_error cluster_centers b = Some centroid ->
  bucket_workload bk > cap ->
  process_bucket geom_eq_dec capacities cluster_centers k (buckets, changed) b
  = '(buckets', moved) <- try_move geom_eq_dec capacities cluster_centers k buckets b
                            (hexes_sorted centroid bk) ;;
    Ok (buckets', if moved then true else changed).
Proof.
  intros Hb Hcap Hcc Hgt. unfold process_bucket, bucket_get, py_index.
  rewrite Hb, Hcap. cbn [bind].
  destruct (Rle_dec (bucket_workload bk) cap); [lra|].
  rewrite Hcc. reflexivity.
Qed.

Lemma well_shaped_set (k : nat) (capacities : list R) (cluster_centers : list (R * R))
    (buckets : buckets_t) (i : nat) (v : list cell) :
  well_shaped k capacities cluster_centers buckets ->
  well_shaped k capacities cluster_centers (list_set buckets i v).
Proof.
  unfold well_shaped. now rewrite list_set_length.
Qed.

(** A bucket step never raises on a well-shaped state; it keeps the shape
    and the cells, and reports a change exactly when it moved a cell. *)
Lemma process_bucket_keeps (capacities : list R) (cluster_centers : list (R * R))
    (k : nat) (buckets : buckets_t) (changed : bool) (b : nat) :
  well_shaped k capacities cluster_centers buckets ->
  (b < k)%nat ->
  exists buckets' changed',
    process_bucket geom_eq_dec capacities cluster_centers k (buckets, changed) b
      = Ok (buckets', changed')
    /\ well_shaped k capacities cluster_centers buckets'
    /\ Permutation (concat buckets') (concat buckets)
    /\ (changed' = false -> buckets' = buckets /\ changed = false)
    /\ (changed = true -> changed' = true).
Proof.
  intros Hshape Hb. pose proof Hshape as [Hlen [Hcaps Hcc]].
  destruct (nth_error_Ok buckets b ltac:(lia)) as [bk Ebk].
  destruct (nth_error_Ok capacities b ltac:(lia)) as [cap Ecap].
  destruct (nth_error_Ok cluster_centers b ltac:(lia)) as [centroid Ecc].
  destruct (Rle_dec (bucket_workload bk) cap) as [Hle|Hgt].
  - exists buckets, changed.
    rewrite (process_bucket_light _ _ _ _ _ _ _ _ Ebk Ecap Hle).
    split; [reflexivity|]. split; [exact Hshape|]. auto.
  - rewrite (process_bucket_heavy _ _ _ _ _ _ _ _ _ Ebk Ecap Ecc) by lra.
    destruct (try_move_spec capacities cluster_centers k buckets b bk
                (hexes_sorted centroid bk) Hshape Ebk)
      as [[Hrun _]|[pre [h [post [chosen_b [src' [dst H]]]]]]].
    { intros x Hx. eapply Permutation_in; [apply hexes_sorted_perm | exact Hx]. }
    + rewrite Hrun. cbn [bind]. exists buckets, changed.
      split; [reflexivity|]. split; [exact Hshape|]. auto.
    + destruct H as [_ [_ [Hnear [Hrm [Hdst Hrun]]]]].
      rewrite Hrun. cbn [bind]. eexists _, true.
      split; [reflexivity|]. split; [now do 2 apply well_shaped_set|].
      split; [|split; [discriminate | reflexivity]].
      assert (Hmv : move_cell geom_eq_dec buckets b chosen_b h
                    = Ok (list_set (list_set buckets b src') chosen_b (dst ++ [h]))).
      { destruct (move_cell_spec buckets b chosen_b h bk dst) as [s' [Hrm' Hmv]];
          try assumption.
        - apply Hnear.
        - apply list_remove_perm in Hrm.
          eapply Permutation_in; [symmetry; exact Hrm | now left].
        - rewrite Hrm in Hrm'. injection Hrm' as <-. exact Hmv. }
      apply (move_cell_perm _ _ _ _ _ Hmv).
Qed.

(** *** A pass *)

Lemma for_each_app {S : Type} (body : S -> nat -> result S) (l1 l2 : list nat) (s : S) :
  for_each body (l1 ++ l2) s = s1 <- for_each body l1 s ;; for_each body l2 s1.
Proof.
  revert s. induction l1 as [|x l1 IH]; intros s; cbn [for_each app bind].
  - reflexivity.
  - destruct (body s x) as [s'|e]; cbn [bind]; [apply IH | reflexivity].
Qed.

Lemma bucket_scan_keeps (capacities : list R) (cluster_centers : list (R * R))
    (k : nat) (l : list nat) (buckets : buckets_t) (changed : bool) :
  well_shaped k capacities cluster_centers buckets ->
  Forall (fun b => (b < k)%nat) l ->
  exists buckets' changed',
    for_each (process_bucket geom_eq_dec capacities cluster_centers k) l
             (buckets, changed) = Ok (buckets', changed')
    /\ well_shaped k capacities cluster_centers buckets'
    /\ Permutation (concat buckets') (concat buckets)
    /\ (changed' = false -> buckets' = buckets /\ changed = false)
    /\ (changed = true -> changed' = true).
Proof.
  intros Hshape Hl. revert buckets changed Hshape.
  induction Hl as [|b l Hb Hl IH]; intros buckets changed Hshape.
  - exists buckets, changed.
    split; [reflexivity|]. split; [exact Hshape|]. auto.
  - destruct (process_bucket_keeps capacities cluster_centers k buckets changed b
                Hshape Hb) as [bs1 [c1 [Hrun [Hs1 [Hp1 [Hf1 Ht1]]]]]].
    destruct (IH bs1 c1 Hs1) as [bs2 [c2 [Hrun2 [Hs2 [Hp2 [Hf2 Ht2]]]]]].
    exists bs2, c2. cbn [for_each]. rewrite Hrun. cbn [bind].
    split; [exact Hrun2|]. split; [exact Hs2|].
    split; [now rewrite Hp2|]. split.
    + intros Hc2. destruct (Hf2 Hc2) as [-> Hc1]. now apply Hf1.
    + intros Hc. apply Ht2. now apply Ht1.
Qed.

Lemma rebalance_pass_keeps (capacities : list R) (cluster_centers : list (R * R))
    (k : nat) (buckets : buckets_t) :
  well_shaped k capacities cluster_centers buckets ->
  exists buckets' changed',
    rebalance_pass geom_eq_dec capacities cluster_centers k buckets
      = Ok (buckets', changed')
    /\ well_shaped k capacities cluster_centers buckets'
    /\ Permutation (concat buckets') (concat buckets)
    /\ (changed' = false -> buckets' = buckets).
Proof.
  intros Hshape.
  destruct (bucket_scan_keeps capacities cluster_centers k (seq 0 k) buckets false
              Hshape) as [bs [c [Hrun [Hs [Hp [Hf _]]]]]].
  { range_below. }
  exists bs, c. unfold rebalance_pass.
  split; [exact Hrun|]. split; [exact Hs|]. split; [exact Hp|].
  intros Hc. now apply Hf.
Qed.

(** *** The while loop *)

Lemma rebalance_loop_spec (capacities : list R) (cluster_centers : list (R * R))
    (k : nat) (buckets0 : buckets_t) (remaining : nat) :
  forall (iter_count : nat) (changed : bool) (buckets : buckets_t),
  well_shaped k capacities cluster_centers buckets ->
  passes geom_eq_dec capacities cluster_centers k iter_count buckets0
    = Ok (buckets, changed) ->
  (forall j, (1 <= j < iter_count)%nat ->
     exists bsj, passes geom_eq_dec capacities cluster_centers k j buckets0
                 = Ok (bsj, true)) ->
  exists buckets' n changed',
    rebalance_loop geom_eq_dec capacities cluster_centers k remaining iter_count
                   changed buckets = Ok (buckets', n)
    /\ well_shaped k capacities cluster_centers buckets'
    /\ Permutation (concat buckets') (concat buckets)
    /\ (iter_count <= n <= iter_count + remaining)%nat
    /\ (changed = true -> (0 < remaining)%nat -> (iter_count < n)%nat)
    /\ passes geom_eq_dec capacities cluster_centers k n buckets0
       = Ok (buckets', changed')
    /\ ((n < iter_count + remaining)%nat -> changed' = false)
    /\ (forall j, (1 <= j < n)%nat ->
          exists bsj, passes geom_eq_dec capacities cluster_centers k j buckets0
                      = Ok (bsj, true)).
Proof.
  induction remaining as [|rem IH]; intros i changed buckets Hshape Hpass Hbefore.
  - exists buckets, i, changed. cbn [rebalance_loop].
    split; [reflexivity|]. split; [exact Hshape|]. split; [reflexivity|].
    split; [lia|]. split; [lia|]. split; [exact Hpass|]. split; [lia | exact Hbefore].
  - cbn [rebalance_loop]. destruct changed.
    + destruct (rebalance_pass_keeps capacities cluster_centers k buckets Hshape)
        as [bs1 [c1 [Hrun [Hs1 [Hp1 _]]]]].
      rewrite Hrun. cbn [bind].
      destruct (IH (S i) c1 bs1 Hs1) as [bs' [n [c' H]]].
      { cbn [passes]. rewrite Hpass. cbn [bind]. exact Hrun. }
      { intros j Hj. destruct (Nat.eq_dec j i) as [->|Hne].
        - eauto.
        - apply Hbefore. lia. }
      destruct H as [Hloop [Hs' [Hp' [Hn [_ [Hpass' [Hlast Hall]]]]]]].
      exists bs', n, c'.
      split; [exact Hloop|]. split; [exact Hs'|]. split; [now rewrite Hp'|].
      split; [lia|]. split; [lia|]. split; [exact Hpass'|].
      split; [intros Hlt; apply Hlast; lia | exact Hall].
    + exists buckets, i, false.
      split; [reflexivity|]. split; [exact Hshape|]. split; [reflexivity|].
      split; [lia|]. split; [discriminate|]. split; [exact Hpass|].
      split; [reflexivity | exact Hbefore].
Qed.

Lemma max_iters_pos (k : nat) : (0 < max_iters k)%nat.
Proof. unfold max_iters. lia. Qed.

Lemma rebalance_spec (capacities : list R) (cluster_centers : list (R * R))
    (k : nat) (buckets : buckets_t) :
  well_shaped k capacities cluster_centers buckets ->
  exists buckets' n changed',
    rebalance geom_eq_dec capacities cluster_centers k buckets = Ok (buckets', n)
    /\ well_shaped k capacities cluster_centers buckets'
    /\ Permutation (concat buckets') (concat buckets)
    /\ (1 <= n <= max_iters k)%nat
    /\ passes geom_eq_dec capacities cluster_centers k n buckets
       = Ok (buckets', changed')
    /\ ((n < max_iters k)%nat -> changed' = false)
    /\ (forall j, (1 <= j < n)%nat ->
          exists bsj, passes geom_eq_dec capacities cluster_centers k j buckets
                      = Ok (bsj, true)).
Proof.
  intros Hshape.
  destruct (rebalance_loop_spec capacities cluster_centers k buckets (max_iters k)
              0%nat true buckets Hshape eq_refl) as [bs' [n [c' H]]].
  { intros j Hj. lia. }
  destruct H as [Hloop [Hs' [Hp' [Hn [Hpos [Hpass' [Hlast Hall]]]]]]].
  pose proof (max_iters_pos k) as Hmax. specialize (Hpos eq_refl Hmax).
  exists bs', n, c'. unfold rebalance.
  split; [exact Hloop|]. split; [exact Hs'|]. split; [exact Hp'|].
  split; [lia|]. split; [exact Hpass'|]. split; [exact Hlast | exact Hall].
Qed.

(** A feasible state is a fixed point of the pass. *)
Lemma bucket_scan_feasible (capacities : list R) (cluster_centers : list (R * R))
    (k : nat) (l : list nat) (buckets : buckets_t) (changed : bool) :
  well_shaped k capacities cluster_centers buckets ->
  feasible capacities buckets ->
  Forall (fun b => (b < k)%nat) l ->
  for_each (process_bucket geom_eq_dec capacities cluster_centers k) l
           (buckets, changed) = Ok (buckets, changed).
Proof.
  intros [Hlen [Hcaps Hcc]] Hfeas Hl.
  induction Hl as [|b l Hb Hl IH]; cbn [for_each].
  - reflexivity.
  - destruct (nth_error_Ok buckets b ltac:(lia)) as [bk Ebk].
    destruct (nth_error_Ok capacities b ltac:(lia)) as [cap Ecap].
    rewrite (process_bucket_light _ _ _ _ _ _ _ _ Ebk Ecap (Hfeas _ _ _ Ebk Ecap)).
    cbn [bind]. exact IH.
Qed.

Lemma rebalance_feasible (capacities : list R) (cluster_centers : list (R * R))
    (k : nat) (buckets : buckets_t) :
  well_shaped k capacities cluster_centers buckets ->
  feasible capacities buckets ->
  rebalance geom_eq_dec capacities cluster_centers k buckets = Ok (buckets, 1%nat).
Proof.
  intros Hshape Hfeas. unfold rebalance.
  destruct (max_iters k) as [|rem] eqn:E.
  - pose proof (max_iters_pos k). lia.
  - cbn [rebalance_loop]. unfold rebalance_pass.
    rewrite (bucket_scan_feasible _ _ _ _ _ _ Hshape Hfeas).
    + cbn [bind]. destruct rem; reflexivity.
    + range_below.
Qed.

(** *** The capacity loop *)

Lemma fill_capacity_frame (total bsum : R) (u u' : uav) :
  fill_capacity total bsum u = Ok u' ->
  u' = filled total bsum u /\ capacity_workload u' <> None.
Proof.
  unfold fill_capacity, filled, py_div.
  destruct (capacity_workload u) as [c|] eqn:Ec.
  - intros H. injection H as <-. split; [reflexivity | congruence].
  - destruct (Req_dec_T bsum 0); cbn [bind]; intros H; [discriminate|].
    injection H as <-. split; [reflexivity | discriminate].
Qed.

Lemma filled_frame (total bsum : R) (u : uav) :
  uav_id (filled total bsum u) = uav_id u
  /\ battery_pct (filled total bsum u) = battery_pct u
  /\ (forall c, capacity_workload u = Some c -> filled total bsum u = u)
  /\ (capacity_workload u = None ->
      capacity_workload (filled total bsum u)
      = Some (total * battery_of u / bsum)).
Proof.
  unfold filled. destruct (capacity_workload u) as [c|] eqn:Ec; cbn.
  - repeat split; auto. discriminate.
  - repeat split; auto; try discriminate.
    intros _. f_equal. unfold Rdiv. ring.
Qed.

Lemma fill_capacities_Ok (total bsum : R) (uavs : list uav) :
  bsum <> 0 \/ Forall (fun u => capacity_workload u <> None) uavs ->
  fill_capacities total bsum uavs = (map (filled total bsum) uavs, Ok tt).
Proof.
  intros Hok. induction uavs as [|u rest IH]; cbn [fill_capacities map].
  - reflexivity.
  - assert (Hu : fill_capacity total bsum u = Ok (filled total bsum u)).
    { unfold fill_capacity, filled, py_div.
      destruct (capacity_workload u) eqn:Ec; [reflexivity|].
      destruct (Req_dec_T bsum 0) as [H0|_]; [|reflexivity].
      destruct Hok as [Hne|Hall]; [contradiction|].
      inversion Hall; subst. contradiction. }
    rewrite Hu, IH; [reflexivity|].
    destruct Hok as [Hne|Hall]; [now left | right; now inversion Hall].
Qed.

Lemma fill_capacities_inv (total bsum : R) (uavs uavs' : list uav) :
  fill_capacities total bsum uavs = (uavs', Ok tt) ->
  uavs' = map (filled total bsum) uavs
  /\ Forall (fun u => capacity_workload u <> None) uavs'.
Proof.
  revert uavs'. induction uavs as [|u rest IH]; intros uavs' H; cbn [fill_capacities] in H.
  - injection H as <-. split; [reflexivity | constructor].
  - destruct (fill_capacity total bsum u) as [u'|e] eqn:Eu; [|discriminate].
    destruct (fill_capacities total bsum rest) as [rest' r].
    injection H as <- ->.
    destruct (IH rest' eq_refl) as [-> Hall].
    apply fill_capacity_frame in Eu. destruct Eu as [-> Hsome].
    split; [reflexivity | now constructor].
Qed.

Lemma fill_capacities_zero_sum (total : R) (uavs : list uav) :
  Exists (fun u => capacity_workload u = None) uavs ->
  fill_capacities total 0 uavs = (uavs, Raise ZeroDivisionError).
Proof.
  induction uavs as [|u rest IH]; intros Hex; [inversion Hex|].
  cbn [fill_capacities]. unfold fill_capacity, py_div.
  destruct (capacity_workload u) as [c|] eqn:Ec.
  - rewrite IH; [reflexivity|]. inversion Hex; subst; [congruence | assumption].
  - destruct (Req_dec_T 0 0) as [_|Hne]; [reflexivity | contradiction].
Qed.

(** The capacity loop runs to its end, or it meets a vehicle without
    capacity while the battery sum is zero. *)
Lemma capacities_computable_cases (uavs : list uav) :
  capacities_computable uavs
  \/ (battery_sum uavs = 0 /\ Exists (fun u => capacity_workload u = None) uavs).
Proof.
  unfold capacities_computable.
  destruct (Req_dec_T (battery_sum uavs) 0) as [Hz|Hnz]; [|now left; left].
  assert (Hall : Forall (fun u => capacity_workload u <> None) uavs
                 \/ Exists (fun u => capacity_workload u = None) uavs).
  { clear Hz. induction uavs as [|u rest [IH|IH]]; [now left| |].
    - destruct (capacity_workload u) as [c|] eqn:Ec.
      + left. constructor; [congruence | exact IH].
      + right. now left.
    - right. now right. }
  destruct Hall as [Hall|Hex]; [left; now right | right; now split].
Qed.

Lemma read_capacities_Ok (uavs : list uav) :
  Forall (fun u => capacity_workload u <> None) uavs ->
  exists capacities,
    read_capacities uavs = Ok capacities
    /\ map Some capacities = map capacity_workload uavs.
Proof.
  induction 1 as [|u rest Hu _ IH]; cbn [read_capacities].
  - exists []. split; reflexivity.
  - destruct IH as [cs [Hcs Hmap]].
    unfold read_capacity. destruct (capacity_workload u) as [c|] eqn:Ec; [|contradiction].
    cbn [bind]. rewrite Hcs. cbn [bind].
    exists (c :: cs). split; [reflexivity|]. cbn [map]. now rewrite Hmap, Ec.
Qed.

Lemma read_capacities_length (uavs : list uav) (capacities : list R) :
  map Some capacities = map capacity_workload uavs ->
  length capacities = length uavs.
Proof.
  intros H. apply (f_equal (@length _)) in H. now rewrite !length_map in H.
Qed.

(** *** Building the buckets *)

Lemma skipn_nth_error {A : Type} (l : list A) (i : nat) (x : A) :
  nth_error l i = Some x -> skipn i l = x :: skipn (S i) l.
Proof.
  revert i. induction l as [|y l IH]; intros [|i] H; cbn in *; try discriminate.
  - now injection H as ->.
  - now apply IH.
Qed.

Lemma build_buckets_perm (hex_cells : list cell) (labels : list nat) :
  forall (idx : nat) (buckets buckets' : buckets_t),
  build_buckets hex_cells idx labels buckets = Ok buckets' ->
  (idx + length labels = length hex_cells)%nat ->
  length buckets' = length buckets
  /\ Permutation (concat buckets') (concat buckets ++ skipn idx hex_cells).
Proof.
  induction labels as [|lab rest IH]; intros idx buckets buckets' Hb Hlen;
    cbn [build_buckets] in Hb.
  - injection Hb as <-. split; [reflexivity|].
    cbn [length] in Hlen. rewrite Nat.add_0_r in Hlen. subst idx.
    now rewrite skipn_all, app_nil_r.
  - unfold bucket_get, py_index in Hb.
    destruct (nth_error buckets lab) as [bk|] eqn:Ebk; cbn [bind] in Hb; [|discriminate].
    destruct (nth_error hex_cells idx) as [h|] eqn:Eh; cbn [bind] in Hb; [|discriminate].
    cbn [length] in Hlen.
    destruct (IH _ _ _ Hb ltac:(lia)) as [Hl Hp].
    rewrite list_set_length in Hl. split; [exact Hl|].
    rewrite Hp, (skipn_nth_error _ _ _ Eh).
    pose proof (concat_list_set buckets lab bk (bk ++ [h]) Ebk) as Hset.
    assert (Hc : Permutation (concat (list_set buckets lab (bk ++ [h])))
                             (concat buckets ++ [h])).
    { apply (Permutation_app_inv_r bk). rewrite Hset, <- !app_assoc.
      apply Permutation_app_head. apply Permutation_app_comm. }
    rewrite Hc, <- app_assoc. reflexivity.
Qed.

Lemma build_buckets_Ok (hex_cells : list cell) (labels : list nat) :
  forall (idx : nat) (buckets : buckets_t),
  Forall (fun lab => (lab < length buckets)%nat) labels ->
  (idx + length labels = length hex_cells)%nat ->
  exists buckets', build_buckets hex_cells idx labels buckets = Ok buckets'.
Proof.
  induction labels as [|lab rest IH]; intros idx buckets Hlab Hlen;
    cbn [build_buckets].
  - eauto.
  - inversion Hlab as [|? ? Hlt Hrest]; subst. cbn [length] in Hlen.
    destruct (nth_error_Ok buckets lab Hlt) as [bk Ebk].
    destruct (nth_error_Ok hex_cells idx ltac:(lia)) as [h Eh].
    unfold bucket_get, py_index. rewrite Ebk, Eh. cbn [bind].
    apply IH; [|lia]. now rewrite list_set_length.
Qed.

(** *** The returned dictionaries *)

Lemma dict_set_fresh {V : Type} (d : list (Z * V)) (key : Z) (v : V) :
  ~ In key (map fst d) -> dict_set d key v = d ++ [(key, v)].
Proof.
  induction d as [|[key' v'] d IH]; intros Hfresh; cbn [dict_set app].
  - reflexivity.
  - cbn [map fst In] in Hfresh.
    destruct (Z.eqb_spec key key') as [->|Hne]; [tauto|].
    rewrite IH by tauto. reflexivity.
Qed.

Lemma dict_get_app_old {V : Type} (d d' : list (Z * V)) (key : Z) :
  In key (map fst d) -> dict_get (d ++ d') key = dict_get d key.
Proof.
  induction d as [|[key' v'] d IH]; intros Hin; cbn [dict_get app].
  - destruct Hin.
  - destruct (Z.eqb_spec key key') as [->|Hne]; [reflexivity|].
    apply IH. destruct Hin as [Heq|Hin]; [cbn in Heq; congruence | exact Hin].
Qed.

Lemma dict_get_app_new {V : Type} (d d' : list (Z * V)) (key : Z) :
  ~ In key (map fst d) -> dict_get (d ++ d') key = dict_get d' key.
Proof.
  induction d as [|[key' v'] d IH]; intros Hfresh; cbn [dict_get app].
  - reflexivity.
  - cbn [map fst In] in Hfresh.
    destruct (Z.eqb_spec key key') as [->|Hne]; [tauto|].
    apply IH. tauto.
Qed.

Lemma dict_get_single {V : Type} (key : Z) (v : V) : dict_get [(key, v)] key = Some v.
Proof. cbn. now rewrite Z.eqb_refl. Qed.

Lemma output_loop_spec (buckets : buckets_t) (uavs : list uav) :
  forall (i : nat) (assignments : list (Z * list cell)) (stats : list (Z * uav_stats)),
  Forall (fun u => capacity_workload u <> None) uavs ->
  NoDup (map fst assignments ++ map uav_id uavs) ->
  map fst stats = map fst assignments ->
  exists assignments' stats',
    output_loop buckets i uavs assignments stats = Ok (assignments', stats')
    /\ map fst assignments' = map fst assignments ++ map uav_id uavs
    /\ map fst stats' = map fst assignments'
    /\ (forall key, In key (map fst assignments) ->
          dict_get assignments' key = dict_get assignments key
          /\ dict_get stats' key = dict_get stats key)
    /\ (forall j u, nth_error uavs j = Some u ->
          dict_get assignments' (uav_id u) = Some (nth (i + j) buckets [])
          /\ exists st, dict_get stats' (uav_id u) = Some st
                        /\ stats_of_bucket (nth (i + j) buckets []) u st).
Proof.
  induction uavs as [|u rest IH]; intros i a s Hcap Hnodup Hkeys; cbn [output_loop].
  - exists a, s. split; [reflexivity|]. cbn [map]. rewrite app_nil_r.
    split; [reflexivity|]. split; [exact Hkeys|]. split; [auto|].
    intros [|j] u' H; discriminate.
  - inversion Hcap as [|? ? Hu Hrest]; subst.
    unfold read_capacity. destruct (capacity_workload u) as [c|] eqn:Ec; [|contradiction].
    cbn [bind].
    cbn [map] in Hnodup.
    assert (Hfresh : ~ In (uav_id u) (map fst a)).
    { intros Hin. apply NoDup_remove_2 in Hnodup. apply Hnodup.
      apply in_or_app. now left. }
    assert (Hfresh_s : ~ In (uav_id u) (map fst s)) by now rewrite Hkeys.
    rewrite (dict_set_fresh a _ _ Hfresh), (dict_set_fresh s _ _ Hfresh_s).
    set (assigned := nth i buckets []).
    set (st := mk_stats (length assigned) (bucket_workload assigned) c (battery_pct u)).
    destruct (IH (S i) (a ++ [(uav_id u, assigned)]) (s ++ [(uav_id u, st)]) Hrest)
      as [a' [s' [Hrun [Hka [Hks [Hold Hnew]]]]]].
    { rewrite map_app. cbn [map fst]. rewrite <- app_assoc. exact Hnodup. }
    { rewrite !map_app. cbn [map fst]. now rewrite Hkeys. }
    exists a', s'. split; [exact Hrun|].
    split; [rewrite Hka, map_app, <- app_assoc; reflexivity|].
    split; [exact Hks|].
    assert (Hin_u : In (uav_id u) (map fst (a ++ [(uav_id u, assigned)]))).
    { rewrite map_app. apply in_or_app. right. now left. }
    split.
    + intros key Hkey.
      destruct (Hold key) as [H1 H2].
      { rewrite map_app. apply in_or_app. now left. }
      rewrite H1, H2. split; apply dict_get_app_old; [|rewrite Hkeys]; exact Hkey.
    + intros [|j] u' Hu'; cbn [nth_error] in Hu'.
      * injection Hu' as <-. rewrite Nat.add_0_r.
        destruct (Hold (uav_id u) Hin_u) as [H1 H2]. rewrite H1, H2.
        rewrite (dict_get_app_new a _ _ Hfresh), (dict_get_app_new s _ _ Hfresh_s).
        rewrite !dict_get_single. split; [reflexivity|].
        exists st. split; [reflexivity|]. unfold stats_of_bucket, st. cbn.
        now rewrite Ec.
      * replace (i + S j)%nat with (S i + j)%nat by lia. now apply Hnew.
Qed.

Lemma output_loop_Ok (buckets : buckets_t) (uavs : list uav) :
  forall (i : nat) (assignments : list (Z * list cell)) (stats : list (Z * uav_stats)),
  Forall (fun u => capacity_workload u <> None) uavs ->
  exists assignments' stats',
    output_loop buckets i uavs assignments stats = Ok (assignments', stats').
Proof.
  induction uavs as [|u rest IH]; intros i a s Hcap; cbn [output_loop].
  - eauto.
  - inversion Hcap as [|? ? Hu Hrest]; subst.
    unfold read_capacity. destruct (capacity_workload u) as [c|]; [|contradiction].
    cbn [bind]. now apply IH.
Qed.

(** The rows [buckets.get(i, [])] for [i] below [n] hold the cells of the
    buckets when there are at most [n] buckets. *)
Lemma bucket_rows (buckets : buckets_t) :
  forall n, (length buckets <= n)%nat ->
  map (fun j => nth j buckets []) (seq 0 n)
  = buckets ++ repeat [] (n - length buckets).
Proof.
  induction buckets as [|bk rest IH]; intros n Hn.
  - cbn [length app]. rewrite Nat.sub_0_r. clear Hn.
    generalize 0%nat. induction n as [|n IHn]; intros start; cbn [seq map repeat].
    + reflexivity.
    + rewrite IHn. now destruct start.
  - destruct n as [|n]; cbn [length] in *; [lia|].
    cbn [seq map nth app Nat.sub]. f_equal.
    rewrite <- seq_shift, map_map. cbn [nth]. apply IH. lia.
Qed.

Lemma concat_repeat_nil {A : Type} (n : nat) : concat (repeat (@nil A) n) = [].
Proof. induction n; cbn; auto. Qed.

Lemma workload_concat (buckets : buckets_t) :
  Rsum (map bucket_workload buckets) = bucket_workload (concat buckets).
Proof.
  induction buckets as [|bk rest IH]; cbn [map concat Rsum fold_right].
  - reflexivity.
  - rewrite bucket_workload_app. unfold Rsum in IH. now rewrite IH.
Qed.

Lemma length_concat_sum (buckets : buckets_t) :
  list_sum (map (@length _) buckets) = length (concat buckets).
Proof.
  induction buckets as [|bk rest IH]; cbn [map list_sum fold_right concat];
    [reflexivity|].
  rewrite length_app. unfold list_sum in IH. now rewrite IH.
Qed.

(** *** The whole call *)

Variable KMeans_fit : nat -> Z -> list (R * R) -> option (list nat * list (R * R)).

#[local] Abbreviation assign := (assign_hexes_to_uavs geom_eq_dec KMeans_fit).

Lemma assign_zero_workload (hex_cells : list cell) (uavs : list uav)
    (k : option nat) (seed : Z) :
  total_workload hex_cells <= 0 ->
  assign hex_cells uavs k seed = (uavs, Raise ZeroWorkloadError).
Proof.
  intros Hle. unfold assign_hexes_to_uavs. fold (total_workload hex_cells).
  destruct (Rle_dec (total_workload hex_cells) 0); [reflexivity | contradiction].
Qed.

Lemma assign_positive_workload (hex_cells : list cell) (uavs : list uav)
    (k : option nat) (seed : Z) :
  0 < total_workload hex_cells ->
  assign hex_cells uavs k seed
  = (let '(uavs', filled) :=
       fill_capacities (total_workload hex_cells) (battery_sum uavs) uavs in
     (uavs',
      _ <- filled ;;
      capacities <- read_capacities uavs' ;;
      '(labels, cluster_centers) <-
         fit_or_raise (KMeans_fit (clusters uavs k) seed (map center hex_cells)) ;;
      buckets <- build_buckets hex_cells 0 labels (repeat [] (clusters uavs k)) ;;
      '(buckets', _) <- rebalance geom_eq_dec capacities cluster_centers
                          (clusters uavs k) buckets ;;
      output_loop buckets' 0 uavs' [] [])).
Proof.
  intros Hpos. unfold assign_hexes_to_uavs.
  fold (total_workload hex_cells). fold (battery_sum uavs). fold (clusters uavs k).
  destruct (Rle_dec (total_workload hex_cells) 0); [lra | reflexivity].
Qed.

Lemma assign_Ok_inv (hex_cells : list cell) (uavs uavs' : list uav)
    (k : option nat) (seed : Z) assignments stats :
  assign hex_cells uavs k seed = (uavs', Ok (assignments, stats)) ->
  0 < total_workload hex_cells
  /\ fill_capacities (total_workload hex_cells) (battery_sum uavs) uavs = (uavs', Ok tt)
  /\ exists labels cluster_centers,
       KMeans_fit (clusters uavs k) seed (map center hex_cells)
       = Some (labels, cluster_centers).
Proof.
  intros Hrun.
  destruct (Rle_dec (total_workload hex_cells) 0) as [Hle|Hpos].
  - rewrite assign_zero_workload in Hrun by exact Hle. discriminate.
  - apply Rnot_le_lt in Hpos. split; [exact Hpos|].
    rewrite assign_positive_workload in Hrun by exact Hpos.
    destruct (fill_capacities _ _ uavs) as [us [[]|e]]; injection Hrun as -> Hrun;
      cbn [bind] in Hrun; [|discriminate].
    split; [reflexivity|].
    destruct (read_capacities uavs') as [caps|e]; cbn [bind] in Hrun; [|discriminate].
    destruct (KMeans_fit _ _ _) as [[labels cc]|]; cbn [bind fit_or_raise] in Hrun;
      [eauto | discriminate].
Qed.

(** With a positive workload, a completed capacity loop, a fit of the
    contracted shape and at most as many clusters as vehicles, every later
    step returns, and the final buckets hold the input cells. *)
Lemma assign_core (hex_cells : list cell) (uavs uavs' : list uav)
    (k : option nat) (seed : Z) (labels : list nat) (cluster_centers : list (R * R)) :
  KMeans_shape KMeans_fit ->
  0 < total_workload hex_cells ->
  fill_capacities (total_workload hex_cells) (battery_sum uavs) uavs = (uavs', Ok tt) ->
  KMeans_fit (clusters uavs k) seed (map center hex_cells)
    = Some (labels, cluster_centers) ->
  (clusters uavs k <= length uavs)%nat ->
  exists capacities buckets buckets' n assignments stats,
    map Some capacities = map capacity_workload uavs'
    /\ build_buckets hex_cells 0 labels (repeat [] (clusters uavs k)) = Ok buckets
    /\ well_shaped (clusters uavs k) capacities cluster_centers buckets
    /\ Permutation (concat buckets) hex_cells
    /\ rebalance geom_eq_dec capacities cluster_centers (clusters uavs k) buckets
       = Ok (buckets', n)
    /\ well_shaped (clusters uavs k) capacities cluster_centers buckets'
    /\ Permutation (concat buckets') hex_cells
    /\ output_loop buckets' 0 uavs' [] [] = Ok (assignments, stats)
    /\ assign hex_cells uavs k seed = (uavs', Ok (assignments, stats)).
Proof.
  intros Hshape Hpos Hfill Hfit Hk.
  destruct (fill_capacities_inv _ _ _ _ Hfill) as [Huavs' Hsome].
  destruct (read_capacities_Ok uavs' Hsome) as [caps [Hread Hcaps]].
  pose proof (read_capacities_length _ _ Hcaps) as Hlen.
  assert (Hlen' : length uavs' = length uavs) by (subst uavs'; apply length_map).
  destruct (Hshape _ _ _ _ _ Hfit) as [Hlabels [Hrange Hcc]].
  rewrite length_map in Hlabels.
  destruct (build_buckets_Ok hex_cells labels 0 (repeat [] (clusters uavs k)))
    as [bs Hbuild].
  { now rewrite repeat_length. }
  { cbn. exact Hlabels. }
  destruct (build_buckets_perm _ _ _ _ _ Hbuild ltac:(cbn; exact Hlabels)) as [Hbl Hbp].
  rewrite repeat_length in Hbl. rewrite concat_repeat_nil in Hbp. cbn in Hbp.
  assert (Hws : well_shaped (clusters uavs k) caps cluster_centers bs).
  { unfold well_shaped. split; [exact Hbl|]. split; lia. }
  destruct (rebalance_spec caps cluster_centers _ bs Hws)
    as [bs' [n [c' [Hreb [Hws' [Hperm _]]]]]].
  destruct (output_loop_Ok bs' uavs' 0 [] [] Hsome) as [a [s Hout]].
  exists caps, bs, bs', n, a, s.
  split; [exact Hcaps|]. split; [exact Hbuild|]. split; [exact Hws|].
  split; [exact Hbp|]. split; [exact Hreb|]. split; [exact Hws'|].
  split; [now rewrite Hperm|]. split; [exact Hout|].
  rewrite assign_positive_workload by exact Hpos.
  rewrite Hfill. cbn [bind]. rewrite Hread. cbn [bind].
  rewrite Hfit. cbn [bind fit_or_raise]. rewrite Hbuild. cbn [bind].
  rewrite Hreb. cbn [bind]. now rewrite Hout.
Qed.

(** *** More clusters than vehicles *)

Lemma scan_candidates_short (capacities : list R) (cluster_centers : list (R * R))
    (buckets : buckets_t) (b : nat) (h : cell) (b2s : list nat) :
  (forall b2, In b2 b2s ->
     (b2 < length buckets)%nat /\ (b2 < length cluster_centers)%nat) ->
  In (length capacities) b2s ->
  length capacities <> b ->
  scan_candidates capacities cluster_centers buckets b h b2s = Raise IndexError.
Proof.
  intros Hrange Hin Hne.
  induction b2s as [|b2 rest IH]; [destruct Hin|].
  cbn [scan_candidates].
  destruct (Nat.eqb_spec b2 b) as [->|Hb2].
  - apply IH.
    + intros x Hx. apply Hrange. now right.
    + destruct Hin as [Heq|Hin]; [congruence | exact Hin].
  - destruct (Nat.lt_ge_cases b2 (length capacities)) as [Hlt|Hge].
    + assert (Hrest : scan_candidates capacities cluster_centers buckets b h rest
                      = Raise IndexError).
      { apply IH.
        - intros x Hx. apply Hrange. now right.
        - destruct Hin as [Heq|Hin]; [lia | exact Hin]. }
      destruct (Hrange b2 (or_introl eq_refl)) as [Hbk Hcc].
      destruct (nth_error_Ok _ _ Hlt) as [cap2 Ecap].
      destruct (nth_error_Ok _ _ Hbk) as [bk2 Ebk].
      destruct (nth_error_Ok _ _ Hcc) as [c2 Ecc].
      unfold py_index, bucket_get. rewrite Ecap, Ebk. cbn [bind].
      destruct (Rge_dec _ _); [|exact Hrest].
      rewrite Ecc. cbn [bind]. now rewrite Hrest.
    + now rewrite py_index_out.
Qed.

Lemma process_bucket_short (capacities : list R) (cluster_centers : list (R * R))
    (k : nat) (buckets : buckets_t) (changed : bool) (b : nat) :
  length buckets = k ->
  (k <= length cluster_centers)%nat ->
  (length capacities < k)%nat ->
  (b < k)%nat ->
  (process_bucket geom_eq_dec capacities cluster_centers k (buckets, changed) b
     = Raise IndexError)
  \/ (b <> length capacities
      /\ process_bucket geom_eq_dec capacities cluster_centers k (buckets, changed) b
         = Ok (buckets, changed)).
Proof.
  intros Hlen Hcc Hshort Hb.
  destruct (nth_error_Ok buckets b ltac:(lia)) as [bk Ebk].
  destruct (Nat.lt_ge_cases b (length capacities)) as [Hlt|Hge].
  - destruct (nth_error_Ok capacities b Hlt) as [cap Ecap].
    destruct (nth_error_Ok cluster_centers b ltac:(lia)) as [centroid Ecc].
    destruct (Rle_dec (bucket_workload bk) cap) as [Hle|Hgt].
    + right. split; [lia|]. now apply (process_bucket_light _ _ _ _ _ _ bk cap).
    + rewrite (process_bucket_heavy _ _ _ _ _ _ _ _ _ Ebk Ecap Ecc) by lra.
      destruct (hexes_sorted centroid bk) as [|h rest].
      * right. split; [lia | reflexivity].
      * left. cbn [try_move].
        rewrite scan_candidates_short; [reflexivity | | | lia].
        -- intros b2 Hin. apply in_seq in Hin. lia.
        -- apply in_seq. lia.
  - left. unfold process_bucket, bucket_get. rewrite Ebk. cbn [bind].
    now rewrite py_index_out.
Qed.

Lemma bucket_scan_short (capacities : list R) (cluster_centers : list (R * R))
    (k : nat) (buckets : buckets_t) (changed : bool) (l : list nat) :
  length buckets = k ->
  (k <= length cluster_centers)%nat ->
  (length capacities < k)%nat ->
  Forall (fun b => (b < k)%nat) l ->
  In (length capacities) l ->
  for_each (process_bucket geom_eq_dec capacities cluster_centers k) l
           (buckets, changed) = Raise IndexError.
Proof.
  intros Hlen Hcc Hshort Hl Hin.
  induction Hl as [|b l Hb Hl IH]; [destruct Hin|].
  cbn [for_each].
  destruct (process_bucket_short capacities cluster_centers k buckets changed b
              Hlen Hcc Hshort Hb) as [Hraise|[Hne Hsame]].
  - now rewrite Hraise.
  - rewrite Hsame. cbn [bind]. apply IH.
    destruct Hin as [Heq|Hin]; [congruence | exact Hin].
Qed.

Lemma rebalance_short (capacities : list R) (cluster_centers : list (R * R))
    (k : nat) (buckets : buckets_t) :
  length buckets = k ->
  (k <= length cluster_centers)%nat ->
  (length capacities < k)%nat ->
  rebalance geom_eq_dec capacities cluster_centers k buckets = Raise IndexError.
Proof.
  intros Hlen Hcc Hshort. unfold rebalance.
  destruct (max_iters k) as [|rem] eqn:E.
  - pose proof (max_iters_pos k). lia.
  - cbn [rebalance_loop]. unfold rebalance_pass.
    rewrite bucket_scan_short; try assumption; [reflexivity| |].
    + range_below.
    + apply in_seq. lia.
Qed.

(** *** Which exceptions a call can raise *)

Lemma bind_other {A B : Type} (m : result A) (f : A -> result B) :
  other_than_refusal m -> (forall a, other_than_refusal (f a)) ->
  other_than_refusal (bind m f).
Proof.
  unfold other_than_refusal. destruct m as [a|e]; cbn [bind]; intros Hm Hf.
  - apply Hf.
  - intros He. apply Hm. injection He as ->. reflexivity.
Qed.

Lemma py_index_other {A : Type} (l : list A) (i : nat) :
  other_than_refusal (py_index l i).
Proof. unfold other_than_refusal, py_index. destruct (nth_error l i); discriminate. Qed.

Lemma bucket_get_other (buckets : buckets_t) (i : nat) :
  other_than_refusal (bucket_get buckets i).
Proof.
  unfold other_than_refusal, bucket_get. destruct (nth_error buckets i); discriminate.
Qed.

Lemma read_capacity_other (u : uav) : other_than_refusal (read_capacity u).
Proof.
  unfold other_than_refusal, read_capacity. destruct (capacity_workload u); discriminate.
Qed.

Lemma Ok_other {A : Type} (a : A) : other_than_refusal (Ok a).
Proof. discriminate. Qed.

Lemma scan_candidates_other (capacities : list R) (cluster_centers : list (R * R))
    (buckets : buckets_t) (b : nat) (h : cell) (b2s : list nat) :
  other_than_refusal (scan_candidates capacities cluster_centers buckets b h b2s).
Proof.
  induction b2s as [|b2 rest IH]; cbn [scan_candidates].
  - apply Ok_other.
  - destruct (Nat.eqb b2 b); [exact IH|].
    apply bind_other; [apply py_index_other|]. intros cap2.
    apply bind_other; [apply bucket_get_other|]. intros bk2.
    destruct (Rge_dec _ _); [|exact IH].
    apply bind_other; [apply py_index_other|]. intros c2.
    apply bind_other; [exact IH|]. intros more. apply Ok_other.
Qed.

Lemma list_remove_other (h : cell) (bucket : list cell) :
  other_than_refusal (list_remove geom_eq_dec h bucket).
Proof.
  induction bucket as [|x tl IH]; cbn [list_remove].
  - discriminate.
  - destruct (cell_eq_dec geom_eq_dec x h); [apply Ok_other|].
    apply bind_other; [exact IH|]. intros tl'. apply Ok_other.
Qed.

Lemma move_cell_other (buckets : buckets_t) (b chosen_b : nat) (h : cell) :
  other_than_refusal (move_cell geom_eq_dec buckets b chosen_b h).
Proof.
  unfold move_cell.
  apply bind_other; [apply bucket_get_other|]. intros src.
  apply bind_other; [apply list_remove_other|]. intros src'.
  apply bind_other; [apply bucket_get_other|]. intros dst. apply Ok_other.
Qed.

Lemma try_move_other (capacities : list R) (cluster_centers : list (R * R)) (k : nat)
    (buckets : buckets_t) (b : nat) (hexes : list cell) :
  other_than_refusal
    (try_move geom_eq_dec capacities cluster_centers k buckets b hexes).
Proof.
  induction hexes as [|h rest IH]; cbn [try_move].
  - apply Ok_other.
  - apply bind_other; [apply scan_candidates_other|]. intros [|c0 more]; [exact IH|].
    apply bind_other; [apply py_index_other|]. intros chosen.
    apply bind_other; [apply move_cell_other|]. intros buckets'. apply Ok_other.
Qed.

Lemma process_bucket_other (capacities : list R) (cluster_centers : list (R * R))
    (k : nat) (st : buckets_t * bool) (b : nat) :
  other_than_refusal
    (process_bucket geom_eq_dec capacities cluster_centers k st b).
Proof.
  destruct st as [buckets changed]. unfold process_bucket.
  apply bind_other; [apply bucket_get_other|]. intros bk.
  apply bind_other; [apply py_index_other|]. intros cap.
  destruct (Rle_dec _ _); [apply Ok_other|].
  apply bind_other; [apply py_index_other|]. intros centroid.
  apply bind_other; [apply try_move_other|]. intros [buckets' moved]. apply Ok_other.
Qed.

Lemma for_each_other {S : Type} (body : S -> nat -> result S) (l : list nat) (s : S) :
  (forall s x, other_than_refusal (body s x)) ->
  other_than_refusal (for_each body l s).
Proof.
  intros Hbody. revert s. induction l as [|x rest IH]; intros s; cbn [for_each].
  - apply Ok_other.
  - apply bind_other; [apply Hbody | exact IH].
Qed.

Lemma rebalance_other (capacities : list R) (cluster_centers : list (R * R))
    (k : nat) (buckets : buckets_t) :
  other_than_refusal (rebalance geom_eq_dec capacities cluster_centers k buckets).
Proof.
  unfold rebalance. generalize 0%nat true buckets.
  induction (max_iters k) as [|rem IH]; intros i changed bs; cbn [rebalance_loop].
  - apply Ok_other.
  - destruct changed; [|apply Ok_other].
    apply bind_other.
    + apply for_each_other. intros s x. apply process_bucket_other.
    + intros [bs' c']. apply IH.
Qed.

Lemma build_buckets_other (hex_cells : list cell) (labels : list nat) :
  forall idx buckets, other_than_refusal (build_buckets hex_cells idx labels buckets).
Proof.
  induction labels as [|lab rest IH]; intros idx buckets; cbn [build_buckets].
  - apply Ok_other.
  - apply bind_other; [apply bucket_get_other|]. intros bk.
    apply bind_other; [apply py_index_other|]. intros h. apply IH.
Qed.

Lemma output_loop_other (buckets : buckets_t) (uavs : list uav) :
  forall i assignments stats,
    other_than_refusal (output_loop buckets i uavs assignments stats).
Proof.
  induction uavs as [|u rest IH]; intros i a s; cbn [output_loop].
  - apply Ok_other.
  - apply bind_other; [apply read_capacity_other|]. intros cap. apply IH.
Qed.

Lemma read_capacities_other (uavs : list uav) :
  other_than_refusal (read_capacities uavs).
Proof.
  induction uavs as [|u rest IH]; cbn [read_capacities].
  - apply Ok_other.
  - apply bind_other; [apply read_capacity_other|]. intros c.
    apply bind_other; [exact IH|]. intros cs. apply Ok_other.
Qed.

Lemma fill_capacities_other (total bsum : R) (uavs : list uav) :
  other_than_refusal (snd (fill_capacities total bsum uavs)).
Proof.
  induction uavs as [|u rest IH]; cbn [fill_capacities].
  - apply Ok_other.
  - destruct (fill_capacity total bsum u) as [u'|e] eqn:Eu.
    + destruct (fill_capacities total bsum rest) as [rest' r]. exact IH.
    + cbn [snd]. unfold fill_capacity, py_div in Eu.
      destruct (capacity_workload u); [discriminate|].
      destruct (Req_dec_T bsum 0); cbn [bind] in Eu; [|discriminate].
      injection Eu as <-. discriminate.
Qed.

(** *** Rows of the result *)

Lemma map_rows {A B : Type} (f : A -> B) (g : nat -> B) (l : list A) :
  forall start,
  (forall j u, nth_error l j = Some u -> f u = g (start + j)%nat) ->
  map f l = map g (seq start (length l)).
Proof.
  induction l as [|x l IH]; intros start Hrow; cbn [map length seq].
  - reflexivity.
  - f_equal.
    + rewrite (Hrow 0%nat x eq_refl). now rewrite Nat.add_0_r.
    + apply IH. intros j u Hj. rewrite (Hrow (S j) u Hj). f_equal. lia.
Qed.

(** A returning call with at most as many clusters as vehicles: row [j] of
    both dictionaries is bucket [j] of the final buckets, which hold the
    input cells. *)
Lemma assign_rows (hex_cells : list cell) (uavs uavs' : list uav)
    (k : option nat) (seed : Z) assignments stats :
  KMeans_shape KMeans_fit ->
  (clusters uavs k <= length uavs)%nat ->
  NoDup (map uav_id uavs) ->
  assign hex_cells uavs k seed = (uavs', Ok (assignments, stats)) ->
  exists buckets',
    Permutation (concat buckets') hex_cells
    /\ length buckets' = clusters uavs k
    /\ uavs' = map (filled (total_workload hex_cells) (battery_sum uavs)) uavs
    /\ map fst assignments = map uav_id uavs
    /\ map fst stats = map uav_id uavs
    /\ forall j u, nth_error uavs j = Some u ->
         dict_get assignments (uav_id u) = Some (nth j buckets' [])
         /\ exists st,
              dict_get stats (uav_id u) = Some st
              /\ stats_of_bucket (nth j buckets' [])
                   (filled (total_workload hex_cells) (battery_sum uavs) u) st.
Proof.
  intros Hshape Hk Hnodup Hrun.
  destruct (assign_Ok_inv _ _ _ _ _ _ _ Hrun) as [Hpos [Hfill [labels [cc Hfit]]]].
  destruct (assign_core _ _ _ _ _ _ _ Hshape Hpos Hfill Hfit Hk)
    as [caps [bs [bs' [n [a [s H]]]]]].
  destruct H as [_ [_ [_ [_ [_ [Hws [Hperm [Hout Hrun']]]]]]]].
  rewrite Hrun in Hrun'. injection Hrun' as <- <-.
  destruct (fill_capacities_inv _ _ _ _ Hfill) as [Huavs' Hsome].
  assert (Hids : map uav_id uavs' = map uav_id uavs).
  { subst uavs'. rewrite map_map. apply map_ext. intros u. apply filled_frame. }
  destruct (output_loop_spec bs' uavs' 0 [] [] Hsome) as [a' [s' H]].
  { cbn [map app]. now rewrite Hids. }
  { reflexivity. }
  destruct H as [Hout' [Hka [Hks [_ Hrow]]]].
  rewrite Hout in Hout'. injection Hout' as <- <-.
  exists bs'. split; [exact Hperm|]. split; [apply Hws|]. split; [exact Huavs'|].
  cbn [map app] in Hka. split; [now rewrite Hka|]. split; [now rewrite Hks, Hka|].
  intros j u Hj.
  assert (Hj' : nth_error uavs' j
                = Some (filled (total_workload hex_cells) (battery_sum uavs) u)).
  { subst uavs'. rewrite nth_error_map, Hj. reflexivity. }
  destruct (Hrow _ _ Hj') as [Ha [st [Hs Hst]]].
  destruct (filled_frame (total_workload hex_cells) (battery_sum uavs) u) as [Hid _].
  rewrite Hid in Ha, Hs. cbn [Nat.add] in Ha, Hst.
  split; [exact Ha|]. exists st. split; [exact Hs | exact Hst].
Qed.

Lemma rows_partition (hex_cells : list cell) (uavs : list uav)
    (buckets' : buckets_t) assignments stats :
  Permutation (concat buckets') hex_cells ->
  (length buckets' <= length uavs)%nat ->
  (forall j u, nth_error uavs j = Some u ->
     dict_get assignments (uav_id u) = Some (nth j buckets' [])
     /\ exists st, dict_get stats (uav_id u) = Some st
                   /\ count_hexes st = length (nth j buckets' [])
                   /\ stat_workload st = bucket_workload (nth j buckets' [])) ->
  Permutation (concat (map (assigned_to assignments) uavs)) hex_cells
  /\ list_sum (map (fun u => length (assigned_to assignments u)) uavs)
     = length hex_cells
  /\ list_sum (map (reported_count stats) uavs) = length hex_cells
  /\ Rsum (map (fun u => bucket_workload (assigned_to assignments u)) uavs)
     = total_workload hex_cells
  /\ Rsum (map (reported_workload stats) uavs) = total_workload hex_cells.
Proof.
  intros Hperm Hlen Hrow.
  set (rows := buckets' ++ repeat [] (length uavs - length buckets')).
  assert (Hrows : map (assigned_to assignments) uavs = rows).
  { unfold rows. rewrite <- (bucket_rows buckets' (length uavs) Hlen).
    apply map_rows. intros j u Hj. unfold assigned_to.
    destruct (Hrow j u Hj) as [-> _]. reflexivity. }
  assert (Hconcat : Permutation (concat rows) hex_cells).
  { unfold rows. now rewrite concat_app, concat_repeat_nil, app_nil_r. }
  assert (Hcount : list_sum (map (@length _) rows) = length hex_cells).
  { rewrite length_concat_sum. now apply Permutation_length. }
  assert (Hload : Rsum (map bucket_workload rows) = total_workload hex_cells).
  { rewrite workload_concat. now apply bucket_workload_perm. }
  split; [now rewrite Hrows|].
  split.
  { rewrite <- Hcount, <- Hrows, map_map. reflexivity. }
  split.
  { rewrite <- Hcount, <- Hrows, map_map. f_equal.
    rewrite (map_rows (reported_count stats) (fun j => length (nth j buckets' []))
               uavs 0%nat).
    - symmetry. apply map_rows. intros j u Hj. unfold assigned_to.
      destruct (Hrow j u Hj) as [-> _]. reflexivity.
    - intros j u Hj. unfold reported_count.
      destruct (Hrow j u Hj) as [_ [st [-> [Hc _]]]]. exact Hc. }
  split.
  { rewrite <- Hload, <- Hrows, map_map. reflexivity. }
  rewrite <- Hload, <- Hrows, map_map. f_equal.
  rewrite (map_rows (reported_workload stats)
             (fun j => bucket_workload (nth j buckets' [])) uavs 0%nat).
  - symmetry. apply map_rows. intros j u Hj. unfold assigned_to.
    destruct (Hrow j u Hj) as [-> _]. reflexivity.
  - intros j u Hj. unfold reported_workload.
    destruct (Hrow j u Hj) as [_ [st [-> [_ Hw]]]]. exact Hw.
Qed.

(** C1, amended: when [k] is the number of vehicles and the vehicle ids are
    pairwise distinct, the assignment a call returns is an exact partition
    of the input cells.  The dictionary has one entry per vehicle; the
    lists of the vehicles, one after the other, are a rearrangement of the
    input cell list (every cell once, none missing); the assigned counts
    add up to the number of input cells and the assigned workloads to the
    total workload, both as computed from the assignment and as reported in
    the statistics.  KMeans is taken to return one label below [k] per
    cell. *)
Theorem assignment_is_partition (hex_cells : list cell) (uavs uavs' : list uav)
    (k : option nat) (seed : Z) assignments stats :
  KMeans_shape KMeans_fit ->
  clusters uavs k = length uavs ->
  NoDup (map uav_id uavs) ->
  assign hex_cells uavs k seed = (uavs', Ok (assignments, stats)) ->
  map fst assignments = map uav_id uavs
  /\ Permutation (concat (map (assigned_to assignments) uavs)) hex_cells
  /\ list_sum (map (fun u => length (assigned_to assignments u)) uavs)
     = length hex_cells
  /\ list_sum (map (reported_count stats) uavs) = length hex_cells
  /\ Rsum (map (fun u => bucket_workload (assigned_to assignments u)) uavs)
     = total_workload hex_cells
  /\ Rsum (map (reported_workload stats) uavs) = total_workload hex_cells.
Proof.
  intros Hshape Hk Hnodup Hrun.
  assert (Hle : (clusters uavs k <= length uavs)%nat) by lia.
  destruct (assign_rows _ _ _ _ _ _ _ Hshape Hle Hnodup Hrun)
    as [bs' [Hperm [Hlen [_ [Hkeys [_ Hrow]]]]]].
  split; [exact Hkeys|].
  rewrite <- Hlen in Hle.
  apply (rows_partition hex_cells uavs bs' assignments stats Hperm Hle).
  intros j u Hj. destruct (Hrow j u Hj) as [Ha [st [Hs [Hc [Hw _]]]]].
  split; [exact Ha|]. exists st. auto.
Qed.

(** *** Calls that return, calls that raise *)

(** The call, step by step. *)
Lemma assign_run (hex_cells : list cell) (uavs : list uav) (k : option nat) (seed : Z)
    (capacities : list R) (labels : list nat) (cluster_centers : list (R * R))
    (buckets buckets' : buckets_t) (n : nat) :
  0 < total_workload hex_cells ->
  capacities_computable uavs ->
  read_capacities (map (filled (total_workload hex_cells) (battery_sum uavs)) uavs)
    = Ok capacities ->
  KMeans_fit (clusters uavs k) seed (map center hex_cells)
    = Some (labels, cluster_centers) ->
  build_buckets hex_cells 0 labels (repeat [] (clusters uavs k)) = Ok buckets ->
  rebalance geom_eq_dec capacities cluster_centers (clusters uavs k) buckets
    = Ok (buckets', n) ->
  assign hex_cells uavs k seed
  = (map (filled (total_workload hex_cells) (battery_sum uavs)) uavs,
     output_loop buckets' 0
       (map (filled (total_workload hex_cells) (battery_sum uavs)) uavs) [] []).
Proof.
  intros Hpos Hcomp Hread Hfit Hbuild Hreb.
  rewrite assign_positive_workload by exact Hpos.
  rewrite (fill_capacities_Ok _ _ _ Hcomp). cbn [bind].
  rewrite Hread. cbn [bind]. rewrite Hfit. cbn [bind fit_or_raise].
  rewrite Hbuild. cbn [bind]. now rewrite Hreb.
Qed.

Lemma assign_returns (hex_cells : list cell) (uavs : list uav)
    (k : option nat) (seed : Z) :
  KMeans_shape KMeans_fit ->
  0 < total_workload hex_cells ->
  capacities_computable uavs ->
  (clusters uavs k <= length uavs)%nat ->
  (exists labels cluster_centers,
      KMeans_fit (clusters uavs k) seed (map center hex_cells)
      = Some (labels, cluster_centers)) ->
  exists assignments stats,
    assign hex_cells uavs k seed
    = (map (filled (total_workload hex_cells) (battery_sum uavs)) uavs,
       Ok (assignments, stats)).
Proof.
  intros Hshape Hpos Hcomp Hk [labels [cc Hfit]].
  pose proof (fill_capacities_Ok (total_workload hex_cells) (battery_sum uavs) uavs
                Hcomp) as Hfill.
  destruct (assign_core _ _ _ _ _ _ _ Hshape Hpos Hfill Hfit Hk)
    as [caps [bs [bs' [n [a [s H]]]]]].
  exists a, s. apply H.
Qed.

Lemma assign_short (hex_cells : list cell) (uavs : list uav)
    (k : option nat) (seed : Z) :
  KMeans_shape KMeans_fit ->
  0 < total_workload hex_cells ->
  capacities_computable uavs ->
  (length uavs < clusters uavs k)%nat ->
  (exists labels cluster_centers,
      KMeans_fit (clusters uavs k) seed (map center hex_cells)
      = Some (labels, cluster_centers)) ->
  assign hex_cells uavs k seed
  = (map (filled (total_workload hex_cells) (battery_sum uavs)) uavs,
     Raise IndexError).
Proof.
  intros Hshape Hpos Hcomp Hk [labels [cc Hfit]].
  pose proof (fill_capacities_Ok (total_workload hex_cells) (battery_sum uavs) uavs
                Hcomp) as Hfill.
  destruct (fill_capacities_inv _ _ _ _ Hfill) as [_ Hsome].
  destruct (read_capacities_Ok _ Hsome) as [caps [Hread Hcaps]].
  pose proof (read_capacities_length _ _ Hcaps) as Hlen. rewrite length_map in Hlen.
  destruct (Hshape _ _ _ _ _ Hfit) as [Hlabels [Hrange Hcc]].
  rewrite length_map in Hlabels.
  destruct (build_buckets_Ok hex_cells labels 0 (repeat [] (clusters uavs k)))
    as [bs Hbuild].
  { now rewrite repeat_length. }
  { cbn. exact Hlabels. }
  destruct (build_buckets_perm _ _ _ _ _ Hbuild ltac:(cbn; exact Hlabels)) as [Hbl _].
  rewrite repeat_length in Hbl.
  rewrite assign_positive_workload by exact Hpos.
  rewrite Hfill. cbn [bind]. rewrite Hread. cbn [bind].
  rewrite Hfit. cbn [bind fit_or_raise]. rewrite Hbuild. cbn [bind].
  rewrite rebalance_short; [reflexivity | exact Hbl | lia | lia].
Qed.

Lemma assign_never_refuses (hex_cells : list cell) (uavs : list uav)
    (k : option nat) (seed : Z) :
  0 < total_workload hex_cells ->
  other_than_refusal (snd (assign hex_cells uavs k seed)).
Proof.
  intros Hpos. rewrite assign_positive_workload by exact Hpos.
  pose proof (fill_capacities_other (total_workload hex_cells) (battery_sum uavs) uavs)
    as Hfill.
  destruct (fill_capacities _ _ uavs) as [uavs' r]. cbn [snd] in *.
  apply bind_other; [exact Hfill|]. intros _.
  apply bind_other; [apply read_capacities_other|]. intros caps.
  apply bind_other.
  { unfold other_than_refusal, fit_or_raise. destruct (KMeans_fit _ _ _); discriminate. }
  intros [labels cc].
  apply bind_other; [apply build_buckets_other|]. intros bs.
  apply bind_other; [apply rebalance_other|]. intros [bs' n].
  apply output_loop_other.
Qed.

(** C2: when the call raises.  For a seed that numpy accepts (line 24
    raises for any other, before the workload is looked at) and a KMeans
    whose result has the contracted shape: the call raises the
    zero-workload error exactly when the total workload is not positive.
    With a positive workload it raises in three further situations:
    [ZeroDivisionError] when the battery fractions add up to zero and a
    vehicle comes without capacity; the error of KMeans when the fit
    fails; [IndexError] when there are more clusters than vehicles.  In
    every other case it returns.  None of the conditions looks at the
    value of a capacity: capacities that cannot be met never make the call
    raise.  Each vehicle's entry of the returned statistics carries the
    workload of its list next to its capacity, which is where a capacity
    left exceeded shows. *)
Theorem refusal_iff_zero_workload (hex_cells : list cell) (uavs : list uav)
    (k : option nat) (seed : Z) :
  KMeans_shape KMeans_fit ->
  (0 <= seed < 2 ^ 32)%Z ->
  (snd (assign hex_cells uavs k seed) = Raise ZeroWorkloadError
   <-> total_workload hex_cells <= 0)
  /\ (0 < total_workload hex_cells ->
      (battery_sum uavs = 0
       /\ Exists (fun u => capacity_workload u = None) uavs
       /\ snd (assign hex_cells uavs k seed) = Raise ZeroDivisionError)
      \/ (capacities_computable uavs
          /\ KMeans_fit (clusters uavs k) seed (map center hex_cells) = None
          /\ snd (assign hex_cells uavs k seed) = Raise KMeansError)
      \/ (capacities_computable uavs
          /\ (exists labels cluster_centers,
                 KMeans_fit (clusters uavs k) seed (map center hex_cells)
                 = Some (labels, cluster_centers))
          /\ (length uavs < clusters uavs k)%nat
          /\ snd (assign hex_cells uavs k seed) = Raise IndexError)
      \/ (capacities_computable uavs
          /\ (exists labels cluster_centers,
                 KMeans_fit (clusters uavs k) seed (map center hex_cells)
                 = Some (labels, cluster_centers))
          /\ (clusters uavs k <= length uavs)%nat
          /\ exists assignments stats,
               snd (assign hex_cells uavs k seed) = Ok (assignments, stats)
               /\ (NoDup (map uav_id uavs) ->
                   forall u, In u uavs ->
                     exists st,
                       dict_get stats (uav_id u) = Some st
                       /\ stat_workload st
                          = bucket_workload (assigned_to assignments u)
                       /\ Some (stat_capacity st)
                          = capacity_workload
                              (filled (total_workload hex_cells)
                                      (battery_sum uavs) u)))).
Proof.
  intros Hshape _. split.
  - split.
    + intros Hraise.
      destruct (Rle_dec (total_workload hex_cells) 0) as [Hle|Hpos]; [exact Hle|].
      apply Rnot_le_lt in Hpos.
      now destruct (assign_never_refuses hex_cells uavs k seed Hpos).
    + intros Hle. now rewrite assign_zero_workload.
  - intros Hpos.
    destruct (capacities_computable_cases uavs) as [Hcomp|[Hz Hex]].
    2:{ left. split; [exact Hz|]. split; [exact Hex|].
        rewrite assign_positive_workload by exact Hpos.
        rewrite Hz. now rewrite fill_capacities_zero_sum by exact Hex. }
    right.
    destruct (KMeans_fit (clusters uavs k) seed (map center hex_cells))
      as [[labels cluster_centers]|] eqn:Hfit.
    2:{ left. split; [exact Hcomp|]. split; [reflexivity|].
        rewrite assign_positive_workload by exact Hpos.
        pose proof (fill_capacities_Ok (total_workload hex_cells) (battery_sum uavs)
                      uavs Hcomp) as Hfill.
        rewrite Hfill. cbn [snd bind].
        destruct (fill_capacities_inv _ _ _ _ Hfill) as [_ Hsome].
        destruct (read_capacities_Ok _ Hsome) as [caps [Hread _]].
        rewrite Hread. cbn [bind]. rewrite Hfit. reflexivity. }
    right.
    assert (Hfit' : exists labels cluster_centers,
               KMeans_fit (clusters uavs k) seed (map center hex_cells)
               = Some (labels, cluster_centers)) by (rewrite Hfit; eauto).
    destruct (le_lt_dec (clusters uavs k) (length uavs)) as [Hk|Hk].
    2:{ left. split; [exact Hcomp|]. split; [eauto|]. split; [exact Hk|].
        now rewrite (assign_short _ _ _ _ Hshape Hpos Hcomp Hk Hfit'). }
    right. split; [exact Hcomp|]. split; [eauto|]. split; [exact Hk|].
    destruct (assign_returns _ _ _ _ Hshape Hpos Hcomp Hk Hfit') as [a [s Hrun]].
    exists a, s. split; [now rewrite Hrun|].
    intros Hnodup u Hin.
    destruct (assign_rows _ _ _ _ _ _ _ Hshape Hk Hnodup Hrun)
      as [bs' [_ [_ [_ [_ [_ Hrow]]]]]].
    apply In_nth_error in Hin. destruct Hin as [j Hj].
    destruct (Hrow j u Hj) as [Ha [st [Hs [_ [Hw [Hc _]]]]]].
    exists st. split; [exact Hs|]. unfold assigned_to. rewrite Ha.
    split; [exact Hw | exact Hc].
Qed.

(** C3: past the workload check and with a battery sum that is not zero,
    the call leaves every vehicle that came without a capacity with
    [total_workload * battery / battery_sum], leaves a supplied capacity as
    it was, and so gives two vehicles of equal battery fraction the same
    computed capacity. *)
Theorem capacity_is_battery_share (hex_cells : list cell) (uavs : list uav)
    (k : option nat) (seed : Z) :
  0 < total_workload hex_cells ->
  battery_sum uavs <> 0 ->
  length (fst (assign hex_cells uavs k seed)) = length uavs
  /\ (forall j u, nth_error uavs j = Some u ->
        exists u',
          nth_error (fst (assign hex_cells uavs k seed)) j = Some u'
          /\ (capacity_workload u = None ->
              capacity_workload u'
              = Some (total_workload hex_cells * battery_of u / battery_sum uavs))
          /\ (forall c, capacity_workload u = Some c -> capacity_workload u' = Some c))
  /\ (forall i j u1 u2 u1' u2',
        nth_error uavs i = Some u1 -> nth_error uavs j = Some u2 ->
        nth_error (fst (assign hex_cells uavs k seed)) i = Some u1' ->
        nth_error (fst (assign hex_cells uavs k seed)) j = Some u2' ->
        capacity_workload u1 = None -> capacity_workload u2 = None ->
        battery_of u1 = battery_of u2 ->
        capacity_workload u1' = capacity_workload u2').
Proof.
  intros Hpos Hsum.
  assert (Hfst : fst (assign hex_cells uavs k seed)
                 = map (filled (total_workload hex_cells) (battery_sum uavs)) uavs).
  { rewrite assign_positive_workload by exact Hpos.
    rewrite fill_capacities_Ok by now left. reflexivity. }
  rewrite Hfst. split; [apply length_map|]. split.
  - intros j u Hj. eexists. split; [rewrite nth_error_map, Hj; reflexivity|].
    destruct (filled_frame (total_workload hex_cells) (battery_sum uavs) u)
      as [_ [_ [Hsame Hnew]]].
    split; [exact Hnew|]. intros c Hc. now rewrite (Hsame c Hc).
  - intros i j u1 u2 u1' u2' H1 H2 H1' H2' Hn1 Hn2 Hb.
    rewrite nth_error_map, H1 in H1'. rewrite nth_error_map, H2 in H2'.
    injection H1' as <-. injection H2' as <-.
    destruct (filled_frame (total_workload hex_cells) (battery_sum uavs) u1)
      as [_ [_ [_ Hc1]]].
    destruct (filled_frame (total_workload hex_cells) (battery_sum uavs) u2)
      as [_ [_ [_ Hc2]]].
    now rewrite (Hc1 Hn1), (Hc2 Hn2), Hb.
Qed.

(** C5: one bucket of a pass.  A bucket within its capacity is left alone.
    A bucket above it has its cells sorted farthest from its centroid
    first; the cells are tried in that order; a bucket can receive a cell
    exactly when its spare capacity is at least half the cell's workload
    ([qualifies]); the first cell with a receiver goes to the receiver of
    nearest centroid, the lowest index winning a tie ([nearest_receiver]),
    and no later cell of the bucket is looked at.  Within a pass, bucket [b]
    is processed on the state the buckets before it left, and the buckets
    after it on the state it leaves. *)
Theorem rebalancing_step_rule (capacities : list R) (cluster_centers : list (R * R))
    (k : nat) (buckets : buckets_t) (changed : bool) (b : nat)
    (bk : list cell) (cap : R) (centroid : R * R) :
  well_shaped k capacities cluster_centers buckets ->
  (b < k)%nat ->
  nth_error buckets b = Some bk ->
  nth_error capacities b = Some cap ->
  nth_error cluster_centers b = Some centroid ->
  (bucket_workload bk <= cap ->
   process_bucket geom_eq_dec capacities cluster_centers k (buckets, changed) b
   = Ok (buckets, changed))
  /\ (bucket_workload bk > cap ->
      Permutation (hexes_sorted centroid bk) bk
      /\ StronglySorted (fun x y => dist x centroid >= dist y centroid)
                        (hexes_sorted centroid bk)
      /\ ((Forall (no_receiver capacities buckets k b) (hexes_sorted centroid bk)
           /\ process_bucket geom_eq_dec capacities cluster_centers k
                (buckets, changed) b = Ok (buckets, changed))
          \/ exists pre h post chosen_b src' dst,
               hexes_sorted centroid bk = pre ++ h :: post
               /\ Forall (no_receiver capacities buckets k b) pre
               /\ nearest_receiver capacities cluster_centers buckets k b h chosen_b
               /\ list_remove geom_eq_dec h bk = Ok src'
               /\ nth_error buckets chosen_b = Some dst
               /\ process_bucket geom_eq_dec capacities cluster_centers k
                    (buckets, changed) b
                  = Ok (list_set (list_set buckets b src') chosen_b (dst ++ [h]),
                        true)))
  /\ rebalance_pass geom_eq_dec capacities cluster_centers k buckets
     = (st1 <- for_each (process_bucket geom_eq_dec capacities cluster_centers k)
                 (seq 0 b) (buckets, false) ;;
        st2 <- process_bucket geom_eq_dec capacities cluster_centers k st1 b ;;
        for_each (process_bucket geom_eq_dec capacities cluster_centers k)
          (seq (S b) (k - S b)) st2).
Proof.
  intros Hshape Hb Ebk Ecap Ecc.
  split; [intros Hle; now apply (process_bucket_light _ _ _ _ _ _ bk cap)|].
  split.
  - intros Hgt.
    split; [apply hexes_sorted_perm|]. split; [apply hexes_sorted_descending|].
    rewrite (process_bucket_heavy _ _ _ _ _ _ _ _ _ Ebk Ecap Ecc Hgt).
    destruct (try_move_spec capacities cluster_centers k buckets b bk
                (hexes_sorted centroid bk) Hshape Ebk)
      as [[Hrun Hnone]|[pre [h [post [chosen_b [src' [dst H]]]]]]].
    { intros x Hx. eapply Permutation_in; [apply hexes_sorted_perm | exact Hx]. }
    + left. split; [exact Hnone|]. now rewrite Hrun.
    + right. exists pre, h, post, chosen_b, src', dst.
      destruct H as [Hsplit [Hpre [Hnear [Hrm [Hdst Hrun]]]]].
      split; [exact Hsplit|]. split; [exact Hpre|]. split; [exact Hnear|].
      split; [exact Hrm|]. split; [exact Hdst|]. now rewrite Hrun.
  - unfold rebalance_pass.
    replace (seq 0 k) with (seq 0 b ++ b :: seq (S b) (k - S b)).
    + rewrite for_each_app. reflexivity.
    + change (b :: seq (S b) (k - S b)) with (seq b (S (k - S b))).
      rewrite <- seq_app. f_equal. lia.
Qed.

(** *** A stuck state *)

Lemma bucket_scan_stuck (capacities : list R) (cluster_centers : list (R * R))
    (k : nat) (l : list nat) (buckets : buckets_t) (changed : bool) :
  well_shaped k capacities cluster_centers buckets ->
  (forall b bk h, nth_error buckets b = Some bk -> In h bk ->
     no_receiver capacities buckets k b h) ->
  Forall (fun b => (b < k)%nat) l ->
  for_each (process_bucket geom_eq_dec capacities cluster_centers k) l
           (buckets, changed) = Ok (buckets, changed).
Proof.
  intros Hshape Hstuck Hl. pose proof Hshape as [Hlen [Hcaps Hcc]].
  induction Hl as [|b l Hb Hl IH]; cbn [for_each]; [reflexivity|].
  destruct (nth_error_Ok buckets b ltac:(lia)) as [bk Ebk].
  destruct (nth_error_Ok capacities b ltac:(lia)) as [cap Ecap].
  destruct (nth_error_Ok cluster_centers b ltac:(lia)) as [centroid Ecc].
  assert (Hsame : process_bucket geom_eq_dec capacities cluster_centers k
                    (buckets, changed) b = Ok (buckets, changed)).
  { destruct (Rle_dec (bucket_workload bk) cap) as [Hle|Hgt].
    - now apply (process_bucket_light _ _ _ _ _ _ bk cap).
    - rewrite (process_bucket_heavy _ _ _ _ _ _ _ _ _ Ebk Ecap Ecc) by lra.
      destruct (try_move_spec capacities cluster_centers k buckets b bk
                  (hexes_sorted centroid bk) Hshape Ebk)
        as [[Hrun _]|[pre [h [post [chosen_b [src' [dst H]]]]]]].
      { intros x Hx. eapply Permutation_in; [apply hexes_sorted_perm | exact Hx]. }
      + now rewrite Hrun.
      + exfalso. destruct H as [Hsplit [_ [[Hlt [Hq _]] _]]].
        apply (Hstuck b bk h Ebk) with (b2 := chosen_b); [|exact Hlt | exact Hq].
        eapply Permutation_in; [apply hexes_sorted_perm|].
        rewrite Hsplit. apply in_or_app. right. now left. }
  rewrite Hsame. cbn [bind]. exact IH.
Qed.

Lemma rebalance_stuck (capacities : list R) (cluster_centers : list (R * R))
    (k : nat) (buckets : buckets_t) :
  well_shaped k capacities cluster_centers buckets ->
  (forall b bk h, nth_error buckets b = Some bk -> In h bk ->
     no_receiver capacities buckets k b h) ->
  rebalance geom_eq_dec capacities cluster_centers k buckets = Ok (buckets, 1%nat).
Proof.
  intros Hshape Hstuck. unfold rebalance.
  destruct (max_iters k) as [|rem] eqn:E.
  - pose proof (max_iters_pos k). lia.
  - cbn [rebalance_loop]. unfold rebalance_pass.
    rewrite (bucket_scan_stuck _ _ _ _ _ _ Hshape Hstuck).
    + cbn [bind]. destruct rem; reflexivity.
    + range_below.
Qed.

End AssignFacts.

(** *** The sample data *)

Lemma modulo_clustering_shape : KMeans_shape modulo_clustering.
Proof.
  intros k seed centers labels cc. unfold modulo_clustering.
  destruct (Nat.eqb_spec k 0) as [|Hk]; [discriminate|].
  destruct (Nat.ltb_spec (length centers) k) as [|Hn]; [discriminate|].
  intros H. injection H as <- <-.
  split; [now rewrite length_map, length_seq|]. split.
  - apply Forall_forall. intros lab Hin. apply in_map_iff in Hin.
    destruct Hin as [i [<- _]]. now apply Nat.mod_upper_bound.
  - rewrite length_firstn. lia.
Qed.

Lemma two_cells_workload : total_workload two_cells = 2.
Proof.
  unfold total_workload, two_cells, cell_a, cell_b, workload. cbn [map Rsum fold_right
    area_m2 priority]. lra.
Qed.

Lemma unit_cell_workload : workload cell_a = 1 /\ workload cell_b = 1.
Proof. unfold workload, cell_a, cell_b. cbn [area_m2 priority]. lra. Qed.

Lemma two_uavs_battery : battery_sum two_uavs = 1.
Proof.
  unfold battery_sum, two_uavs, battery_of. cbn [map Rsum fold_right battery_pct]. lra.
Qed.

(** Two unit cells, one per bucket, and two capacities of 0.1: no move is
    possible, the loop stops after one pass, both buckets stay above their
    capacity. *)
Lemma starved_fleet_stays_over_capacity :
  well_shaped 2 [0.1; 0.1] [(0, 0); (10, 0)] [[cell_a]; [cell_b]]
  /\ rebalance unit_eq_dec [0.1; 0.1] [(0, 0); (10, 0)] 2 [[cell_a]; [cell_b]]
     = Ok ([[cell_a]; [cell_b]], 1%nat)
  /\ ~ feasible [0.1; 0.1] [[cell_a]; [cell_b]].
Proof.
  destruct unit_cell_workload as [Ha Hb].
  assert (Hshape : well_shaped 2 [0.1; 0.1] [(0, 0); (10, 0)] [[cell_a]; [cell_b]]).
  { unfold well_shaped. cbn [length]. lia. }
  split; [exact Hshape|]. split.
  - apply rebalance_stuck; [exact Hshape|].
    intros b bk h Ebk Hin b2 Hb2 [_ [cap2 [bk2 [Ecap [Ebk2 Hge]]]]].
    assert (Hh : workload h = 1).
    { apply nth_error_In in Ebk.
      destruct Ebk as [<-|[<-|[]]]; destruct Hin as [<-|[]]; assumption. }
    assert (Hspare : cap2 - bucket_workload bk2 = 0.1 - 1).
    { destruct b2 as [|[|b2]]; [| |lia]; cbn in Ecap, Ebk2;
        injection Ecap as <-; injection Ebk2 as <-;
        unfold bucket_workload; cbn [map Rsum fold_right]; lra. }
    lra.
  - intros Hfeas. specialize (Hfeas 0%nat [cell_a] 0.1 eq_refl eq_refl).
    unfold bucket_workload in Hfeas. cbn [map Rsum fold_right] in Hfeas. lra.
Qed.

Section LoopAndFrame.
Context {geom : Type}.
Variable geom_eq_dec : forall a b : geom, {a = b} + {a <> b}.
Variable KMeans_fit : nat -> Z -> list (R * R) -> option (list nat * list (R * R)).
#[local] Abbreviation cell := (hex_cell geom).
#[local] Abbreviation buckets_t := (list (list (hex_cell geom))).
#[local] Abbreviation assign := (assign_hexes_to_uavs geom_eq_dec KMeans_fit).

(** C6: the rebalancing loop ends.  On a well-shaped state it returns
    after [n] passes with [1 <= n <= max(200, 10 k)]; every pass before the
    [n]-th moved a cell, and the [n]-th moved none unless the budget is
    used up.  A pass over a state with no bucket above its capacity moves
    nothing, so such a state is returned after one pass.  The final state
    need not be feasible: the starved fleet above is returned as it is. *)
Theorem rebalancing_terminates_within_budget (capacities : list R)
    (cluster_centers : list (R * R)) (k : nat) (buckets : buckets_t) :
  well_shaped k capacities cluster_centers buckets ->
  (exists buckets' n changed',
      rebalance geom_eq_dec capacities cluster_centers k buckets = Ok (buckets', n)
      /\ (1 <= n <= Nat.max 200 (10 * k))%nat
      /\ passes geom_eq_dec capacities cluster_centers k n buckets
         = Ok (buckets', changed')
      /\ ((n < Nat.max 200 (10 * k))%nat -> changed' = false)
      /\ (forall j, (1 <= j < n)%nat ->
            exists bsj, passes geom_eq_dec capacities cluster_centers k j buckets
                        = Ok (bsj, true)))
  /\ (feasible capacities buckets ->
      rebalance_pass geom_eq_dec capacities cluster_centers k buckets
        = Ok (buckets, false)
      /\ rebalance geom_eq_dec capacities cluster_centers k buckets
         = Ok (buckets, 1%nat))
  /\ (exists caps0 centers0 k0 (stuck : list (list (hex_cell unit))) n0,
        well_shaped k0 caps0 centers0 stuck
        /\ rebalance unit_eq_dec caps0 centers0 k0 stuck = Ok (stuck, n0)
        /\ ~ feasible caps0 stuck).
Proof.
  intros Hshape. split; [|split].
  - destruct (rebalance_spec geom_eq_dec capacities cluster_centers k buckets Hshape)
      as [bs' [n [c' [Hreb [_ [_ [Hn [Hpass [Hlast Hall]]]]]]]]].
    exists bs', n, c'. unfold max_iters in Hn, Hlast. auto.
  - intros Hfeas. split.
    + unfold rebalance_pass. apply bucket_scan_feasible; try assumption.
      range_below.
    + now apply rebalance_feasible.
  - exists [0.1; 0.1], [(0, 0); (10, 0)], 2%nat, [[cell_a]; [cell_b]], 1%nat.
    exact starved_fleet_stays_over_capacity.
Qed.

Lemma dict_set_values {V : Type} (d : list (Z * V)) (key : Z) (v : V) (row : Z * V) :
  In row (dict_set d key v) -> In row d \/ row = (key, v).
Proof.
  induction d as [|[key' v'] d IH]; cbn [dict_set].
  - intros [<-|[]]. now right.
  - destruct (Z.eqb key key').
    + intros [<-|Hin]; [now right | left; now right].
    + intros [<-|Hin]; [left; now left|].
      destruct (IH Hin) as [H|H]; [left; now right | now right].
Qed.

Lemma output_loop_values (buckets : buckets_t) (uavs : list uav) :
  forall i assignments stats assignments' stats',
  output_loop buckets i uavs assignments stats = Ok (assignments', stats') ->
  forall key cells, In (key, cells) assignments' ->
    In (key, cells) assignments \/ exists j, cells = nth j buckets [].
Proof.
  induction uavs as [|u rest IH]; intros i a s a' s' Hrun key cells Hin;
    cbn [output_loop] in Hrun.
  - injection Hrun as <- <-. now left.
  - destruct (read_capacity u) as [cap|e]; cbn [bind] in Hrun; [|discriminate].
    destruct (IH _ _ _ _ _ Hrun key cells Hin) as [Hold|Hnew]; [|now right].
    apply dict_set_values in Hold. destruct Hold as [Hold|Heq]; [now left|].
    right. exists i. now injection Heq.
Qed.

(** C9: the call writes into the caller's vehicle records, and only the
    missing capacities.  Past the workload check and with capacities that
    can be computed, the vehicle list after the call is the list before it
    with every missing [capacity_workload] set to the computed share: ids
    and battery fractions are as before, and a record that came with a
    capacity is the same record.  Every cell record of the returned
    assignment is one of the input cell records. *)
Theorem call_writes_only_missing_capacities (hex_cells : list cell) (uavs : list uav)
    (k : option nat) (seed : Z) :
  KMeans_shape KMeans_fit ->
  0 < total_workload hex_cells ->
  capacities_computable uavs ->
  fst (assign hex_cells uavs k seed)
    = map (filled (total_workload hex_cells) (battery_sum uavs)) uavs
  /\ Forall2 (fun u u' =>
                uav_id u' = uav_id u
                /\ battery_pct u' = battery_pct u
                /\ (forall c, capacity_workload u = Some c -> u' = u)
                /\ (capacity_workload u = None ->
                    capacity_workload u'
                    = Some (total_workload hex_cells * battery_of u / battery_sum uavs)))
             uavs (fst (assign hex_cells uavs k seed))
  /\ (forall assignments stats key cells c,
        snd (assign hex_cells uavs k seed) = Ok (assignments, stats) ->
        In (key, cells) assignments -> In c cells -> In c hex_cells).
Proof.
  intros Hshape Hpos Hcomp.
  pose proof (fill_capacities_Ok (total_workload hex_cells) (battery_sum uavs) uavs
                Hcomp) as Hfill.
  assert (Hfst : fst (assign hex_cells uavs k seed)
                 = map (filled (total_workload hex_cells) (battery_sum uavs)) uavs).
  { rewrite (assign_positive_workload geom_eq_dec KMeans_fit) by exact Hpos.
    now rewrite Hfill. }
  split; [exact Hfst|]. split.
  - rewrite Hfst. clear.
    generalize (total_workload hex_cells) (battery_sum uavs). intros total bsum.
    induction uavs as [|u rest IH]; cbn [map]; constructor.
    + apply filled_frame.
    + exact IH.
  - intros a s key cells c Hrun Hin Hc.
    destruct (assign hex_cells uavs k seed) as [uavs' r] eqn:Hcall.
    cbn [fst snd] in *. subst r uavs'.
    destruct (assign_Ok_inv geom_eq_dec KMeans_fit _ _ _ _ _ _ _ Hcall)
      as [_ [_ [labels [cc Hfit]]]].
    destruct (Nat.lt_ge_cases (length uavs) (clusters uavs k)) as [Hshort|Hk].
    + rewrite (assign_short geom_eq_dec KMeans_fit) in Hcall; eauto. discriminate.
    + destruct (assign_core geom_eq_dec KMeans_fit _ _ _ _ _ _ _ Hshape Hpos Hfill
                  Hfit Hk) as [caps [bs [bs' [n [a0 [s0 H]]]]]].
      destruct H as [_ [_ [_ [_ [_ [_ [Hperm [Hout Hrun']]]]]]]].
      rewrite Hcall in Hrun'. injection Hrun' as <- <-.
      destruct (output_loop_values _ _ _ _ _ _ _ Hout key cells Hin) as [[]|[j ->]].
      apply (Permutation_in _ Hperm). apply in_concat.
      exists (nth j bs' []). split; [|exact Hc].
      destruct (Nat.lt_ge_cases j (length bs')) as [Hj|Hj].
      * now apply nth_In.
      * rewrite nth_overflow in Hc by exact Hj. destruct Hc.
Qed.

(** C10, amended: with more clusters than vehicles the call does not
    return: the first pass of the rebalancing reads [capacities[b]] for a
    bucket index without a vehicle and raises [IndexError] (given a
    positive workload, capacities that can be computed and a fit of the
    contracted shape).  With at most as many clusters as vehicles and
    pairwise distinct vehicle ids the call returns an exact partition, the
    vehicles from position [k] on holding no cell. *)
Theorem clusters_beyond_vehicles_raise (hex_cells : list cell) (uavs : list uav)
    (k : nat) (seed : Z) :
  KMeans_shape KMeans_fit ->
  0 < total_workload hex_cells ->
  capacities_computable uavs ->
  (exists labels cluster_centers,
      KMeans_fit k seed (map center hex_cells) = Some (labels, cluster_centers)) ->
  ((length uavs < k)%nat ->
   snd (assign hex_cells uavs (Some k) seed) = Raise IndexError)
  /\ ((k <= length uavs)%nat ->
      NoDup (map uav_id uavs) ->
      exists assignments stats,
        snd (assign hex_cells uavs (Some k) seed) = Ok (assignments, stats)
        /\ Permutation (concat (map (assigned_to assignments) uavs)) hex_cells
        /\ (forall j u, (k <= j)%nat -> nth_error uavs j = Some u ->
              assigned_to assignments u = [])).
Proof.
  intros Hshape Hpos Hcomp Hfit. split.
  - intros Hshort.
    now rewrite (assign_short geom_eq_dec KMeans_fit hex_cells uavs (Some k) seed).
  - intros Hk Hnodup.
    destruct (assign_returns geom_eq_dec KMeans_fit hex_cells uavs (Some k) seed
                Hshape Hpos Hcomp Hk Hfit) as [a [s Hrun]].
    exists a, s. split; [now rewrite Hrun|].
    destruct (assign_rows geom_eq_dec KMeans_fit hex_cells uavs _ (Some k) seed a s
                Hshape Hk Hnodup Hrun) as [bs' [Hperm [Hlen [_ [_ [_ Hrow]]]]]].
    cbn [clusters] in Hlen. split.
    + apply (rows_partition hex_cells uavs bs' a s Hperm); [lia|].
      intros j u Hj. destruct (Hrow j u Hj) as [Ha [st [Hs [Hc [Hw _]]]]].
      split; [exact Ha|]. exists st. auto.
    + intros j u Hj Hu. unfold assigned_to.
      destruct (Hrow j u Hu) as [-> _]. apply nth_overflow. lia.
Qed.

End LoopAndFrame.

(** *** The results on the sample data *)

Lemma two_cells_fit :
  exists labels cluster_centers,
    modulo_clustering 2%nat 42 (map center two_cells) = Some (labels, cluster_centers).
Proof. eexists _, _. reflexivity. Qed.

Lemma two_uavs_computable : capacities_computable two_uavs.
Proof. left. rewrite two_uavs_battery. lra. Qed.

Lemma one_uav_computable : capacities_computable one_uav.
Proof. right. repeat constructor. discriminate. Qed.

Lemma two_uavs_distinct : NoDup (map uav_id two_uavs).
Proof.
  cbn. constructor.
  - intros [H|[]]. discriminate.
  - constructor; [intros [] | constructor].
Qed.

(** C1, as the claim states it, fails when two vehicles share an id: the
    returned dictionaries are keyed by vehicle id, so the entry of the
    second vehicle replaces that of the first.  Two cells, two vehicles
    with id 7: the assignment returned is [{7: [cell_b]}], and [cell_a] is
    in no list. *)
Lemma twin_ids_lose_a_cell :
  clusters twin_uavs None = length twin_uavs
  /\ (exists stats,
        assign_hexes_to_uavs unit_eq_dec modulo_clustering two_cells twin_uavs None 42
        = (twin_uavs, Ok ([(7%Z, [cell_b])], stats))
        /\ map (reported_count stats) twin_uavs = [1%nat; 1%nat])
  /\ map (assigned_to [(7%Z, [cell_b])]) twin_uavs = [[cell_b]; [cell_b]]
  /\ ~ In cell_a (concat (map (assigned_to [(7%Z, [cell_b])]) twin_uavs))
  /\ ~ Permutation (concat (map (assigned_to [(7%Z, [cell_b])]) twin_uavs)) two_cells.
Proof.
  assert (Hab : cell_a <> cell_b) by discriminate.
  split; [reflexivity|]. split; [|split; [reflexivity|split]].
  - eexists. split.
    + rewrite (assign_run unit_eq_dec modulo_clustering two_cells twin_uavs None 42
                 [1; 1] [0%nat; 1%nat] two_centers [[cell_a]; [cell_b]]
                 [[cell_a]; [cell_b]] 1%nat).
      * reflexivity.
      * rewrite two_cells_workload. lra.
      * right. repeat constructor; discriminate.
      * reflexivity.
      * reflexivity.
      * reflexivity.
      * apply rebalance_feasible.
        -- unfold well_shaped. cbn [length two_centers clusters twin_uavs]. lia.
        -- destruct unit_cell_workload as [Ha Hb].
           intros b bk cap Ebk Ecap.
           destruct b as [|[|b]]; cbn in Ebk, Ecap.
           ++ injection Ebk as <-. injection Ecap as <-.
              unfold bucket_workload. cbn [map Rsum fold_right]. lra.
           ++ injection Ebk as <-. injection Ecap as <-.
              unfold bucket_workload. cbn [map Rsum fold_right]. lra.
           ++ destruct b; discriminate.
    + reflexivity.
  - cbn. intros [H|[H|[]]]; now apply Hab.
  - intros Hperm. apply Permutation_sym in Hperm.
    apply (Permutation_in cell_a) in Hperm; [|now left].
    cbn in Hperm. destruct Hperm as [H|[H|[]]]; now apply Hab.
Qed.

Lemma assignment_is_partition_two_cells :
  exists uavs' assignments stats,
    assign_hexes_to_uavs unit_eq_dec modulo_clustering two_cells two_uavs None 42
    = (uavs', Ok (assignments, stats))
    /\ map fst assignments = map uav_id two_uavs
    /\ Permutation (concat (map (assigned_to assignments) two_uavs)) two_cells
    /\ list_sum (map (fun u => length (assigned_to assignments u)) two_uavs)
       = length two_cells
    /\ list_sum (map (reported_count stats) two_uavs) = length two_cells
    /\ Rsum (map (fun u => bucket_workload (assigned_to assignments u)) two_uavs)
       = total_workload two_cells
    /\ Rsum (map (reported_workload stats) two_uavs) = total_workload two_cells.
Proof.
  destruct (assign_returns unit_eq_dec modulo_clustering two_cells two_uavs None 42)
    as [a [s Hrun]].
  - exact modulo_clustering_shape.
  - rewrite two_cells_workload. lra.
  - exact two_uavs_computable.
  - cbn. lia.
  - exact two_cells_fit.
  - eexists _, a, s. split; [exact Hrun|].
    apply (assignment_is_partition unit_eq_dec modulo_clustering two_cells two_uavs
             _ None 42 a s modulo_clustering_shape eq_refl two_uavs_distinct Hrun).
Defined.

Lemma capacity_is_battery_share_two_uavs :
  0 < total_workload two_cells
  /\ battery_sum two_uavs <> 0
  /\ map capacity_workload
       (fst (assign_hexes_to_uavs unit_eq_dec modulo_clustering two_cells two_uavs
               None 42))
     = [Some 1; Some 1].
Proof.
  assert (Hpos : 0 < total_workload two_cells) by (rewrite two_cells_workload; lra).
  assert (Hsum : battery_sum two_uavs <> 0) by (rewrite two_uavs_battery; lra).
  split; [exact Hpos|]. split; [exact Hsum|].
  destruct (capacity_is_battery_share unit_eq_dec modulo_clustering two_cells two_uavs
              None 42 Hpos Hsum) as [Hlen [Hrow _]].
  destruct (Hrow 0%nat _ eq_refl) as [u0 [H0 [Hc0 _]]].
  destruct (Hrow 1%nat _ eq_refl) as [u1 [H1 [Hc1 _]]].
  specialize (Hc0 eq_refl). specialize (Hc1 eq_refl).
  destruct (fst (assign_hexes_to_uavs unit_eq_dec modulo_clustering two_cells two_uavs
                   None 42)) as [|x0 [|x1 [|x2 rest]]]; try discriminate.
  cbn in H0, H1. injection H0 as ->. injection H1 as ->.
  cbn [map]. rewrite Hc0, Hc1, two_cells_workload, two_uavs_battery.
  unfold battery_of. cbn [battery_pct].
  repeat f_equal; lra.
Defined.

Lemma dist_cell_a_origin : dist cell_a (0, 0) = 0.
Proof.
  unfold dist, hypot, cell_a. cbn [center fst snd].
  replace ((0 - 0) * (0 - 0) + (0 - 0) * (0 - 0)) with 0 by ring. apply sqrt_0.
Qed.

Lemma dist_cell_b_origin : dist cell_b (0, 0) = 10.
Proof.
  unfold dist, hypot, cell_b. cbn [center fst snd].
  replace ((10 - 0) * (10 - 0) + (0 - 0) * (0 - 0)) with (10 * 10) by ring.
  apply sqrt_square. lra.
Qed.

(** Bucket 0 holds both cells and has capacity 0.1, bucket 1 is empty with
    capacity 5: the cell farther from the centroid of bucket 0 leaves. *)
Lemma rebalancing_step_rule_crowded :
  well_shaped 2 [0.1; 5] two_centers crowded
  /\ (0 < 2)%nat
  /\ process_bucket unit_eq_dec [0.1; 5] two_centers 2 (crowded, false) 0
     = Ok ([[cell_a]; [cell_b]], true).
Proof.
  assert (Hshape : well_shaped 2 [0.1; 5] two_centers crowded).
  { unfold well_shaped. cbn [length crowded two_centers]. lia. }
  split; [exact Hshape|]. split; [lia|].
  destruct unit_cell_workload as [Hwa Hwb].
  destruct (rebalancing_step_rule unit_eq_dec [0.1; 5] two_centers 2 crowded false 0
              [cell_a; cell_b] 0.1 (0, 0) Hshape ltac:(lia) eq_refl eq_refl eq_refl)
    as [_ [Hheavy _]].
  destruct Hheavy as [Hperm [Hsorted Hcases]].
  { unfold bucket_workload. cbn [map Rsum fold_right]. lra. }
  assert (Hreceiver : forall h, workload h = 1 -> qualifies [0.1; 5] crowded 0 h 1).
  { intros h Hh. split; [lia|]. exists 5, []. split; [reflexivity|].
    split; [reflexivity|]. unfold bucket_workload. cbn [map Rsum fold_right]. lra. }
  assert (Horder : hexes_sorted (0, 0) [cell_a; cell_b] = [cell_b; cell_a]).
  { destruct (hexes_sorted (0, 0) [cell_a; cell_b]) as [|x [|y [|z rest]]] eqn:E.
    - apply Permutation_length in Hperm. discriminate.
    - apply Permutation_length in Hperm. discriminate.
    - assert (Hx : x = cell_a \/ x = cell_b).
      { assert (Hin : In x [cell_a; cell_b])
          by (eapply Permutation_in; [exact Hperm | now left]).
        destruct Hin as [<-|[<-|[]]]; auto. }
      assert (Hy : y = cell_a \/ y = cell_b).
      { assert (Hin : In y [cell_a; cell_b])
          by (eapply Permutation_in; [exact Hperm | right; now left]).
        destruct Hin as [<-|[<-|[]]]; auto. }
      inversion Hsorted as [|? ? _ Hall]; subst. inversion Hall as [|? ? Hge _]; subst.
      assert (Hnd : NoDup [x; y]).
      { apply Permutation_NoDup with (l := [cell_a; cell_b]); [now symmetry|].
        constructor; [|constructor; [intros [] | constructor]].
        intros [H|[]]. discriminate. }
      inversion Hnd as [|? ? Hnot _]; subst.
      destruct Hx as [-> | ->]; destruct Hy as [-> | ->]; try reflexivity.
      * exfalso. apply Hnot. now left.
      * rewrite dist_cell_a_origin, dist_cell_b_origin in Hge. lra.
      * exfalso. apply Hnot. now left.
    - apply Permutation_length in Hperm. discriminate. }
  destruct Hcases as [[Hnone _]|[pre [h [post [chosen_b [src' [dst H]]]]]]].
  - exfalso. rewrite Horder in Hnone. inversion Hnone as [|? ? Hb _]; subst.
    apply (Hb 1%nat ltac:(lia)). now apply Hreceiver.
  - destruct H as [Hsplit [Hpre [Hnear [Hrm [Hdst Hrun]]]]].
    rewrite Horder in Hsplit.
    destruct pre as [|p pre].
    + cbn [app] in Hsplit. injection Hsplit as <- <-.
      destruct Hnear as [Hlt [[Hne _] _]].
      assert (chosen_b = 1%nat) by lia. subst chosen_b.
      cbn in Hdst. injection Hdst as <-.
      cbn [list_remove] in Hrm.
      destruct (cell_eq_dec unit_eq_dec cell_a cell_b) as [Heq|_]; [discriminate|].
      destruct (cell_eq_dec unit_eq_dec cell_b cell_b) as [_|Hneq]; [|contradiction].
      cbn [bind] in Hrm. injection Hrm as <-. exact Hrun.
    + exfalso. cbn [app] in Hsplit. injection Hsplit as <- _.
      inversion Hpre as [|? ? Hb _]; subst.
      apply (Hb 1%nat ltac:(lia)). now apply Hreceiver.
Defined.

Lemma starved_uavs_distinct : NoDup (map uav_id starved_uavs).
Proof.
  cbn. constructor.
  - intros [H|[]]. discriminate.
  - constructor; [intros [] | constructor].
Qed.

Lemma starved_uavs_computable : capacities_computable starved_uavs.
Proof. right. repeat constructor; discriminate. Qed.

(** C2, as the claim states it, fails: an error other than the
    zero-workload one, for cells of positive workload.  Two unit cells and
    one vehicle with an empty battery and no capacity: the total workload
    is 2, the battery fractions add up to 0, and the division of line 39
    raises [ZeroDivisionError]. *)
Lemma positive_workload_zero_battery_raises :
  0 < total_workload two_cells
  /\ ~ total_workload two_cells <= 0
  /\ assign_hexes_to_uavs unit_eq_dec modulo_clustering two_cells
       [mk_uav 0 (Some 0) None] None 42
     = ([mk_uav 0 (Some 0) None], Raise ZeroDivisionError).
Proof.
  assert (Hpos : 0 < total_workload two_cells) by (rewrite two_cells_workload; lra).
  split; [exact Hpos|]. split; [lra|].
  rewrite (assign_positive_workload unit_eq_dec modulo_clustering) by exact Hpos.
  assert (Hb : battery_sum [mk_uav 0 (Some 0) None] = 0).
  { unfold battery_sum, battery_of. cbn [map battery_pct Rsum fold_right]. ring. }
  rewrite Hb, fill_capacities_zero_sum; [reflexivity|]. now left.
Qed.

(** Two capacities of 0.1 for a workload of 2: the call returns, and the
    statistics show a vehicle above its capacity. *)
Lemma refusal_iff_zero_workload_starved :
  exists assignments stats,
    snd (assign_hexes_to_uavs unit_eq_dec modulo_clustering two_cells starved_uavs
           None 42) = Ok (assignments, stats)
    /\ exists u st,
         In u starved_uavs
         /\ dict_get stats (uav_id u) = Some st
         /\ stat_capacity st < stat_workload st.
Proof.
  assert (Hpos : 0 < total_workload two_cells) by (rewrite two_cells_workload; lra).
  assert (Hseed : (0 <= 42 < 2 ^ 32)%Z) by (split; [lia | reflexivity]).
  destruct (refusal_iff_zero_workload unit_eq_dec modulo_clustering two_cells
              starved_uavs None 42 modulo_clustering_shape Hseed) as [_ Hcases].
  assert (Hk : (clusters starved_uavs None <= length starved_uavs)%nat)
    by (cbn; lia).
  destruct (Hcases Hpos)
    as [[Hz _]|[[_ [Hnone _]]|[[_ [_ [Hshort _]]]|[_ [_ [_ [a [s [Hrun Hstats]]]]]]]]].
  { exfalso. unfold battery_sum, starved_uavs, battery_of in Hz.
    cbn [map Rsum fold_right battery_pct] in Hz. lra. }
  { exfalso. destruct two_cells_fit as [labels [cc Hfit]].
    cbn [clusters length starved_uavs two_uavs] in Hnone, Hfit. congruence. }
  { exfalso. cbn [clusters length starved_uavs] in Hshort. lia. }
  exists a, s. split; [exact Hrun|].
  specialize (Hstats starved_uavs_distinct).
  destruct (assign_hexes_to_uavs unit_eq_dec modulo_clustering two_cells starved_uavs
              None 42) as [uavs' r] eqn:Hcall.
  cbn [snd] in Hrun. subst r.
  destruct (assign_rows unit_eq_dec modulo_clustering _ _ _ _ _ _ _
              modulo_clustering_shape Hk starved_uavs_distinct Hcall)
    as [bs' [Hperm [Hlen [_ [_ [_ Hrow]]]]]].
  destruct (rows_partition two_cells starved_uavs bs' a s Hperm) as [_ [_ [_ [Hsum _]]]].
  { rewrite Hlen. cbn. lia. }
  { intros j u Hj. destruct (Hrow j u Hj) as [Ha [st [Hs [Hc [Hw _]]]]].
    split; [exact Ha|]. exists st. auto. }
  rewrite two_cells_workload in Hsum.
  destruct (Hstats (mk_uav 0 (Some 1) (Some 0.1)) ltac:(now left))
    as [st0 [Hs0 [Hw0 Hc0]]].
  destruct (Hstats (mk_uav 1 (Some 1) (Some 0.1)) ltac:(right; now left))
    as [st1 [Hs1 [Hw1 Hc1]]].
  cbn in Hc0, Hc1. injection Hc0 as Hc0. injection Hc1 as Hc1.
  cbn [starved_uavs map Rsum fold_right] in Hsum.
  rewrite <- Hw0, <- Hw1 in Hsum.
  destruct (Rle_dec (stat_workload st0) 0.1) as [Hle|Hgt].
  - exists (mk_uav 1 (Some 1) (Some 0.1)), st1.
    split; [right; now left|]. split; [exact Hs1|]. lra.
  - exists (mk_uav 0 (Some 1) (Some 0.1)), st0.
    split; [now left|]. split; [exact Hs0|]. lra.
Defined.

Lemma rebalancing_terminates_within_budget_starved :
  well_shaped 2 [0.1; 0.1] two_centers [[cell_a]; [cell_b]]
  /\ exists buckets' n changed',
       rebalance unit_eq_dec [0.1; 0.1] two_centers 2 [[cell_a]; [cell_b]]
       = Ok (buckets', n)
       /\ (1 <= n <= Nat.max 200 (10 * 2))%nat
       /\ passes unit_eq_dec [0.1; 0.1] two_centers 2 n [[cell_a]; [cell_b]]
          = Ok (buckets', changed')
       /\ ((n < Nat.max 200 (10 * 2))%nat -> changed' = false)
       /\ (forall j, (1 <= j < n)%nat ->
             exists bsj, passes unit_eq_dec [0.1; 0.1] two_centers 2 j
                           [[cell_a]; [cell_b]] = Ok (bsj, true)).
Proof.
  assert (Hshape : well_shaped 2 [0.1; 0.1] two_centers [[cell_a]; [cell_b]]).
  { unfold well_shaped. cbn [length two_centers]. lia. }
  split; [exact Hshape|].
  apply (rebalancing_terminates_within_budget unit_eq_dec [0.1; 0.1] two_centers 2
           [[cell_a]; [cell_b]] Hshape).
Defined.

Lemma call_writes_only_missing_capacities_two_uavs :
  0 < total_workload two_cells
  /\ capacities_computable two_uavs
  /\ fst (assign_hexes_to_uavs unit_eq_dec modulo_clustering two_cells two_uavs None 42)
     = map (filled (total_workload two_cells) (battery_sum two_uavs)) two_uavs.
Proof.
  assert (Hpos : 0 < total_workload two_cells) by (rewrite two_cells_workload; lra).
  split; [exact Hpos|]. split; [exact two_uavs_computable|].
  apply (call_writes_only_missing_capacities unit_eq_dec modulo_clustering two_cells
           two_uavs None 42 modulo_clustering_shape Hpos two_uavs_computable).
Defined.

(** C10, as the claim states it, fails: two cells, one vehicle and [k = 2].
    The call returns no assignment that could lack the cell of bucket 1:
    it raises [IndexError]. *)
Lemma too_many_clusters_raise_on_two_cells :
  (length one_uav < 2)%nat
  /\ assign_hexes_to_uavs unit_eq_dec modulo_clustering two_cells one_uav (Some 2%nat) 42
     = (one_uav, Raise IndexError).
Proof.
  split; [cbn; lia|].
  rewrite (assign_short unit_eq_dec modulo_clustering two_cells one_uav (Some 2%nat) 42).
  - reflexivity.
  - exact modulo_clustering_shape.
  - rewrite two_cells_workload. lra.
  - exact one_uav_computable.
  - cbn. lia.
  - exact two_cells_fit.
Qed.

Lemma clusters_beyond_vehicles_raise_on_two_cells :
  0 < total_workload two_cells
  /\ capacities_computable one_uav
  /\ (length one_uav < 2)%nat
  /\ snd (assign_hexes_to_uavs unit_eq_dec modulo_clustering two_cells one_uav
            (Some 2%nat) 42) = Raise IndexError.
Proof.
  assert (Hpos : 0 < total_workload two_cells) by (rewrite two_cells_workload; lra).
  split; [exact Hpos|]. split; [exact one_uav_computable|].
  split; [cbn; lia|].
  apply (clusters_beyond_vehicles_raise unit_eq_dec modulo_clustering two_cells one_uav
           2%nat 42 modulo_clustering_shape Hpos one_uav_computable two_cells_fit).
  cbn. lia.
Defined.

End CapacityKMeansFacts.

(** * Further properties of the code *)

(** ** Geometry primitives and the grid builder *)

Module HexgridMore.
Import Hexgrid HexgridFacts HexgridSpec.

(** X1: [hex_area] is strictly increasing on non-negative sides, and only
    there: it is an even function, so on the mirrored negative sides the
    order is reversed. *)
Theorem hex_area_increasing (a b : R) :
  0 <= a -> a < b ->
  hex_area a < hex_area b /\ hex_area (- a) < hex_area (- b).
Proof.
  intros Ha Hab. pose proof HEX_CONST_pos as Hc. unfold hex_area.
  assert (Hsq : a ^ 2 < b ^ 2) by nra.
  replace ((- a) ^ 2) with (a ^ 2) by ring.
  replace ((- b) ^ 2) with (b ^ 2) by ring.
  split; apply Rmult_lt_compat_l; assumption.
Qed.

Lemma hex_area_increasing_1_2 :
  0 <= 1 /\ 1 < 2 /\ hex_area 1 < hex_area 2 /\ hex_area (- 1) < hex_area (- 2).
Proof.
  split; [lra|]. split; [lra|]. apply (hex_area_increasing 1 2); lra.
Defined.

(** X2: [compute_hex_side_for_acres] raises on a negative size and on no
    other; for a size that is not negative it returns the non-negative side
    whose hexagon has exactly the requested area, in square meters. *)
Theorem side_for_acres_meets_target (cell_acres : R) :
  (cell_acres < 0 /\ compute_hex_side_for_acres cell_acres = Raise MathDomainError)
  \/ (0 <= cell_acres
      /\ exists side,
           compute_hex_side_for_acres cell_acres = Ok side
           /\ 0 <= side
           /\ hex_area side = cell_acres * ACRE_M2).
Proof.
  pose proof HEX_CONST_pos as Hc. pose proof ACRE_M2_pos as Hm.
  destruct (Rlt_le_dec cell_acres 0) as [Hneg|Hpos].
  - left. split; [exact Hneg|].
    unfold compute_hex_side_for_acres, py_sqrt.
    destruct (Rlt_dec (cell_acres * ACRE_M2 / HEX_CONST) 0) as [_|Hnlt];
      [reflexivity|].
    exfalso. apply Hnlt. apply Rmult_neg_pos; [nra | now apply Rinv_0_lt_compat].
  - right. split; [exact Hpos|].
    exists (sqrt (cell_acres * ACRE_M2 / HEX_CONST)).
    split; [now apply side_of_acres|]. split; [apply sqrt_pos|].
    unfold hex_area. cbn [pow]. rewrite Rmult_1_r, sqrt_sqrt.
    + field. lra.
    + apply Rmult_le_pos; [nra | left; now apply Rinv_0_lt_compat].
Qed.

(** X3: in the pointy-top layout of [axial_to_xy] the centers of the six
    axial neighbours of a cell all lie at distance [sqrt 3 * s] from its
    center, twice the apothem of a hexagon of side [s]: neighbouring
    hexagons share an edge. *)
Theorem axial_neighbours_equidistant (q r : Z) (s : R) :
  0 <= s ->
  Forall (fun d : Z * Z =>
            hypot (fst (axial_to_xy (q + fst d) (r + snd d) s) - fst (axial_to_xy q r s))
                  (snd (axial_to_xy (q + fst d) (r + snd d) s) - snd (axial_to_xy q r s))
            = sqrt 3 * s)
         [(1, 0); (0, 1); (-1, 1); (-1, 0); (0, -1); (1, -1)]%Z.
Proof.
  intros Hs. pose proof sqrt3_sq as H3. pose proof sqrt3_pos as Hp.
  assert (Hnorm : forall x y, x * x + y * y = (sqrt 3 * s) * (sqrt 3 * s) ->
                              hypot x y = sqrt 3 * s).
  { intros x y Hxy. unfold hypot. rewrite Hxy. apply sqrt_square. nra. }
  repeat constructor; cbn [fst snd]; apply Hnorm; unfold axial_to_xy; cbn [fst snd];
    rewrite ?plus_IZR; nra.
Qed.

Lemma axial_neighbours_equidistant_origin :
  0 <= 2
  /\ Forall (fun d : Z * Z =>
               hypot (fst (axial_to_xy (0 + fst d) (0 + snd d) 2) - fst (axial_to_xy 0 0 2))
                     (snd (axial_to_xy (0 + fst d) (0 + snd d) 2) - snd (axial_to_xy 0 0 2))
               = sqrt 3 * 2)
            [(1, 0); (0, 1); (-1, 1); (-1, 0); (0, -1); (1, -1)]%Z.
Proof.
  split; [lra|]. apply (axial_neighbours_equidistant 0 0 2). lra.
Defined.

(** X4: the ring built for [hex_center_to_polygon] is a regular hexagon:
    six vertices on the circle of radius [s] around the center, each at
    distance [s] from the next, listed counter-clockwise, enclosing the area
    [hex_area s] (the shoelace sum is twice that area). *)
Theorem hexagon_is_regular (cx cy s : R) :
  0 <= s ->
  length (hex_vertices cx cy s) = 6%nat
  /\ Forall (fun v => hypot (fst v - cx) (snd v - cy) = s) (hex_vertices cx cy s)
  /\ (forall i, (i < 6)%nat ->
        hypot (fst (nth (S i mod 6) (hex_vertices cx cy s) (0, 0))
               - fst (nth i (hex_vertices cx cy s) (0, 0)))
              (snd (nth (S i mod 6) (hex_vertices cx cy s) (0, 0))
               - snd (nth i (hex_vertices cx cy s) (0, 0)))
        = s)
  /\ shoelace (hex_vertices cx cy s) = 2 * hex_area s.
Proof.
  intros Hs. pose proof sqrt3_sq as H3.
  assert (Hnorm : forall x y, x * x + y * y = s * s -> hypot x y = s).
  { intros x y Hxy. unfold hypot. rewrite Hxy. now apply sqrt_square. }
  split; [reflexivity|].
  split; [|split].
  - rewrite hex_vertices_explicit.
    repeat constructor; cbn [fst snd]; apply Hnorm; nra.
  - intros i Hi. rewrite hex_vertices_explicit.
    do 6 (destruct i as [|i];
          [match goal with |- context [Nat.modulo ?a 6] =>
             let m := eval vm_compute in (Nat.modulo a 6) in
             change (Nat.modulo a 6) with m
           end; cbn [nth fst snd]; apply Hnorm; nra|]).
    lia.
  - rewrite shoelace_hexagon. unfold hex_area, HEX_CONST. lra.
Qed.

Lemma hexagon_is_regular_unit :
  0 <= 1
  /\ length (hex_vertices 0 0 1) = 6%nat
  /\ Forall (fun v => hypot (fst v - 0) (snd v - 0) = 1) (hex_vertices 0 0 1)
  /\ shoelace (hex_vertices 0 0 1) = 2 * hex_area 1.
Proof.
  split; [lra|].
  destruct (hexagon_is_regular 0 0 1 ltac:(lra)) as [Hlen [Hcircle [_ Harea]]].
  split; [exact Hlen|]. split; [exact Hcircle | exact Harea].
Defined.

Section GridMore.
Context {geom : Type} `{Shapely geom}.

(** The call with a positive cell size, spelled out: the lattice ranges, the
    offsets and the clipping loop over the translated lattice. *)
Lemma generate_hex_grid_unfold (farm : geom) (cell_acres : R) (flag : bool) :
  0 < cell_acres ->
  exists q_min q_max r_min r_max off_x off_y,
    generate_hex_grid farm cell_acres flag
    = Ok (fst (clip_loop farm flag
                 (translate off_x off_y (sqrt (cell_acres * ACRE_M2 / HEX_CONST))
                    (raw_lattice q_min q_max r_min r_max
                       (sqrt (cell_acres * ACRE_M2 / HEX_CONST)))))).
Proof.
  intros Ha. unfold generate_hex_grid.
  rewrite side_of_acres by lra. cbn [bind].
  pose proof (side_positive cell_acres Ha) as Hs.
  set (s := sqrt (cell_acres * ACRE_M2 / HEX_CONST)) in *.
  destruct (bounds farm) as [[[minx miny] maxx] maxy].
  assert (H3 : 0 < sqrt 3.0) by (apply sqrt_lt_R0; lra).
  rewrite !py_div_nonzero by nra. cbn [bind].
  match goal with |- context [raw_lattice ?a ?b ?c ?d s] =>
    exists a, b, c, d; destruct (raw_lattice a b c d s) as [|h0 raw] eqn:Hraw end.
  - exists 0, 0. reflexivity.
  - eexists _, _. reflexivity.
Qed.

(** X5: [generate_hex_grid] needs a positive cell size.  A negative size
    fails in [math.sqrt] (line 22), before the boundary is read; a size of
    zero gives a side of zero and fails in the first division by it
    (line 78), whatever numbers [.bounds] yields; so a call that returns
    was given a positive size.  Whether a call with a positive size
    returns also depends on shapely and on the boundary, and is not part
    of the statement. *)
Theorem generate_hex_grid_outcome (farm : geom) (cell_acres : R) (flag : bool) :
  (cell_acres < 0 -> generate_hex_grid farm cell_acres flag = Raise MathDomainError)
  /\ (cell_acres = 0 ->
      generate_hex_grid farm cell_acres flag = Raise ZeroDivisionError)
  /\ (forall cells,
        generate_hex_grid farm cell_acres flag = Ok cells -> 0 < cell_acres).
Proof.
  pose proof HEX_CONST_pos as Hc. pose proof ACRE_M2_pos as Hm.
  assert (Hneg : cell_acres < 0 ->
                 generate_hex_grid farm cell_acres flag = Raise MathDomainError).
  { intros Hlt.
    unfold generate_hex_grid, compute_hex_side_for_acres, py_sqrt.
    destruct (Rlt_dec (cell_acres * ACRE_M2 / HEX_CONST) 0) as [_|Hnlt];
      [reflexivity|].
    exfalso. apply Hnlt. apply Rmult_neg_pos; [nra | now apply Rinv_0_lt_compat]. }
  assert (Hzero : cell_acres = 0 ->
                  generate_hex_grid farm cell_acres flag = Raise ZeroDivisionError).
  { intros ->.
    unfold generate_hex_grid. rewrite side_of_acres by lra. cbn [bind].
    replace (0 * ACRE_M2 / HEX_CONST) with 0 by (field; lra). rewrite sqrt_0.
    destruct (bounds farm) as [[[minx miny] maxx] maxy].
    unfold py_div at 1.
    destruct (Req_dec_T (0 * sqrt 3.0) 0) as [_|Hne]; [reflexivity|].
    exfalso. apply Hne. ring. }
  split; [exact Hneg|]. split; [exact Hzero|].
  intros cells Hrun.
  destruct (Rtotal_order cell_acres 0) as [Hlt|[Heq|Hgt]]; [| |exact Hgt].
  - rewrite (Hneg Hlt) in Hrun. discriminate.
  - rewrite (Hzero Heq) in Hrun. discriminate.
Qed.

(** The clipping loop keeps the hexagons that pass [keeps], in order, and
    numbers them from the current [hex_id]. *)
Lemma fold_clip_filter (farm : geom) (flag : bool) (l : list ((R * R) * geom)) :
  forall cells n,
    fst (fold_left (clip_step farm flag) l (cells, n))
    = cells ++ number_from farm n (filter (keeps farm flag) l).
Proof.
  induction l as [|h l IH]; intros cells n; cbn [fold_left filter].
  - cbn [number_from fst]. now rewrite app_nil_r.
  - unfold clip_step at 2, keeps at 1.
    destruct (intersects (snd h) farm); cbn [andb]; [|apply IH].
    destruct flag.
    + destruct (Rlt_dec 1.0 (area (intersection (snd h) farm))); [|apply IH].
      rewrite IH, <- app_assoc. reflexivity.
    + rewrite IH, <- app_assoc. reflexivity.
Qed.

Lemma number_from_centers (farm : geom) (l : list ((R * R) * geom)) :
  forall i, map center (number_from farm i l) = map fst l.
Proof.
  induction l as [|h l IH]; intros i; cbn [number_from map]; [reflexivity|].
  now rewrite IH.
Qed.

Lemma translate_shape (off_x off_y s : R) (raw : list (raw_hex geom)) :
  Forall (fun h => snd h = hex_center_to_polygon (fst (fst h)) (snd (fst h)) s)
         (translate off_x off_y s raw).
Proof.
  unfold translate. apply Forall_forall. intros h Hin.
  apply in_map_iff in Hin. destruct Hin as [r [<- _]].
  destruct (raw_center r) as [cx cy]. reflexivity.
Qed.

(** X6: what a returned grid consists of.  The cells are the clipped
    hexagons of a lattice of regular hexagons of the computed side, each
    built around its center: in lattice order, those that intersect the
    boundary and, with sliver rejection, have a clipped area above one
    square meter.  Each record holds the hexagon's center, the
    intersection with the boundary as its polygon and the area of that
    intersection, and has no ['priority'] or ['restricted'] key yet.
    Without sliver rejection every intersecting hexagon is kept, whatever
    its area. *)
Theorem generated_cells_are_clipped_hexagons (farm : geom) (cell_acres : R)
    (flag : bool) (cells : list (hex_cell geom)) :
  generate_hex_grid farm cell_acres flag = Ok cells ->
  exists side lattice,
    compute_hex_side_for_acres cell_acres = Ok side
    /\ Forall (fun h => snd h = hex_center_to_polygon (fst (fst h)) (snd (fst h)) side)
              lattice
    /\ cells = number_from farm 0 (filter (keeps farm flag) lattice)
    /\ Forall (fun c =>
                 poly c = intersection
                            (hex_center_to_polygon (fst (center c)) (snd (center c)) side)
                            farm
                 /\ intersects
                      (hex_center_to_polygon (fst (center c)) (snd (center c)) side)
                      farm = true
                 /\ area_m2 c = area (poly c)
                 /\ priority c = None /\ restricted c = None)
              cells.
Proof.
  intros Hcells.
  pose proof (generate_hex_grid_positive _ _ _ _ Hcells) as Ha.
  destruct (generate_hex_grid_unfold farm cell_acres flag Ha)
    as [a [b [c [d [ox [oy Hgen]]]]]].
  rewrite Hgen in Hcells. injection Hcells as <-.
  set (s := sqrt (cell_acres * ACRE_M2 / HEX_CONST)).
  set (lattice := translate ox oy s (raw_lattice a b c d s)).
  exists s, lattice.
  split; [apply side_of_acres; lra|].
  pose proof (translate_shape ox oy s (raw_lattice a b c d s)) as Hshape.
  fold lattice in Hshape. split; [exact Hshape|].
  unfold clip_loop. rewrite fold_clip_filter. cbn [app].
  split; [reflexivity|].
  assert (Hkept : Forall (fun h => snd h = hex_center_to_polygon (fst (fst h))
                                             (snd (fst h)) s
                                   /\ intersects (snd h) farm = true)
                         (filter (keeps farm flag) lattice)).
  { apply Forall_forall. intros h Hin. apply filter_In in Hin.
    destruct Hin as [Hin Hkeep]. rewrite Forall_forall in Hshape.
    split; [now apply Hshape|]. unfold keeps in Hkeep.
    now apply andb_prop in Hkeep. }
  clear Hshape. generalize 0%Z.
  induction Hkept as [|h l [Hh Hi] _ IH]; intros i; cbn [number_from];
    constructor; [|apply IH].
  unfold record_of. cbn [poly center area_m2 priority restricted].
  rewrite <- Hh. auto.
Qed.

End GridMore.

Lemma generated_cells_are_clipped_hexagons_on_rectangle :
  exists cells side lattice,
    generate_hex_grid farm_rectangle 0.5 true = Ok cells
    /\ compute_hex_side_for_acres 0.5 = Ok side
    /\ cells = number_from farm_rectangle 0 (filter (keeps farm_rectangle true) lattice).
Proof.
  destruct (generate_hex_grid_unfold (H := plane_shapely) farm_rectangle 0.5 true
              ltac:(lra)) as [a [b [c [d [ox [oy Hgen]]]]]].
  destruct (generated_cells_are_clipped_hexagons (H := plane_shapely) farm_rectangle
              0.5 true _ Hgen) as [side [lattice [Hside [_ [Hcells _]]]]].
  eexists _, side, lattice. split; [exact Hgen|]. split; [exact Hside | exact Hcells].
Defined.

(** *** Centers *)

Lemma Rsum_shift (l : list R) (c : R) :
  Rsum (map (fun x => x + c) l) = Rsum l + INR (length l) * c.
Proof.
  induction l as [|x l IH]; cbn [map Rsum fold_right length].
  - cbn. lra.
  - fold (Rsum (map (fun x => x + c) l)). fold (Rsum l).
    rewrite IH, S_INR. lra.
Qed.

Lemma np_mean_shift (l : list R) (c : R) :
  l <> [] -> np_mean (map (fun x => x + c) l) = np_mean l + c.
Proof.
  intros Hl. unfold np_mean. rewrite Rsum_shift, length_map.
  assert (Hn : INR (length l) <> 0).
  { apply not_0_INR. destruct l; [contradiction | discriminate]. }
  field. exact Hn.
Qed.

Lemma py_range_NoDup (lo hi : Z) : NoDup (py_range lo hi).
Proof.
  unfold py_range. apply Finite.Injective_map_NoDup; [|apply seq_NoDup].
  intros x y Hxy. lia.
Qed.

Lemma axial_to_xy_injective (q r q' r' : Z) (s : R) :
  s <> 0 -> axial_to_xy q r s = axial_to_xy q' r' s -> q = q' /\ r = r'.
Proof.
  intros Hs Heq. unfold axial_to_xy in Heq. injection Heq as Hx Hy.
  pose proof sqrt3_pos as H3.
  assert (Hr : IZR r = IZR r').
  { apply (Rmult_eq_reg_l (s * 1.5)); [exact Hy | nra]. }
  assert (Hq : IZR q = IZR q').
  { assert (Hsum : IZR q + IZR r / 2.0 = IZR q' + IZR r' / 2.0).
    { apply (Rmult_eq_reg_l (s * sqrt 3)); [exact Hx | nra]. }
    rewrite Hr in Hsum. lra. }
  split; now apply eq_IZR.
Qed.

Section GridCenters.
Context {geom : Type} `{Shapely geom}.

(** X7: the translation of step 6 centers the lattice on the boundary: the
    mean of the translated centers is the center of the bounding box from
    which the offsets were computed. *)
Theorem lattice_is_recentered (farm_cx farm_cy s : R) (raw_hexes : list (raw_hex geom)) :
  raw_hexes <> [] ->
  np_mean (map (fun h => fst (fst h))
             (translate (farm_cx - np_mean (map (fun h => fst (raw_center h)) raw_hexes))
                        (farm_cy - np_mean (map (fun h => snd (raw_center h)) raw_hexes))
                        s raw_hexes))
  = farm_cx
  /\ np_mean (map (fun h => snd (fst h))
                (translate (farm_cx - np_mean (map (fun h => fst (raw_center h)) raw_hexes))
                           (farm_cy - np_mean (map (fun h => snd (raw_center h)) raw_hexes))
                           s raw_hexes))
     = farm_cy.
Proof.
  intros Hraw.
  set (mx := np_mean (map (fun h => fst (raw_center h)) raw_hexes)).
  set (my := np_mean (map (fun h => snd (raw_center h)) raw_hexes)).
  assert (Hx : map (fun h => fst (fst h)) (translate (farm_cx - mx) (farm_cy - my) s raw_hexes)
               = map (fun x => x + (farm_cx - mx))
                     (map (fun h => fst (raw_center h)) raw_hexes)).
  { unfold translate. rewrite !map_map. apply map_ext. intros h.
    destruct (raw_center h) as [cx cy]. reflexivity. }
  assert (Hy : map (fun h => snd (fst h)) (translate (farm_cx - mx) (farm_cy - my) s raw_hexes)
               = map (fun y => y + (farm_cy - my))
                     (map (fun h => snd (raw_center h)) raw_hexes)).
  { unfold translate. rewrite !map_map. apply map_ext. intros h.
    destruct (raw_center h) as [cx cy]. reflexivity. }
  assert (Hne : forall (f : raw_hex geom -> R), map f raw_hexes <> []).
  { intros f Hnil. apply map_eq_nil in Hnil. contradiction. }
  rewrite Hx, Hy, !np_mean_shift by apply Hne.
  fold mx my. split; lra.
Qed.

Lemma translated_centers (off_x off_y s : R) (raw : list (raw_hex geom)) :
  map fst (translate off_x off_y s raw)
  = map (fun c => (fst c + off_x, snd c + off_y)) (map raw_center raw).
Proof.
  unfold translate. rewrite !map_map. apply map_ext. intros h.
  destruct (raw_center h) as [cx cy]. reflexivity.
Qed.

Lemma raw_lattice_centers (q_min q_max r_min r_max : Z) (s : R) :
  map raw_center (raw_lattice (geom := geom) q_min q_max r_min r_max s)
  = flat_map (fun r => map (fun q => axial_to_xy q r s) (py_range q_min (q_max + 1)))
             (py_range r_min (r_max + 1)).
Proof.
  unfold raw_lattice. induction (py_range r_min (r_max + 1)) as [|r rs IH];
    cbn [flat_map map]; [reflexivity|].
  rewrite map_app, IH. f_equal. rewrite map_map. apply map_ext. intros q.
  destruct (axial_to_xy q r s) as [cx cy]. reflexivity.
Qed.

Lemma lattice_centers_NoDup (qs rs : list Z) (s : R) :
  s <> 0 -> NoDup qs -> NoDup rs ->
  NoDup (flat_map (fun r => map (fun q => axial_to_xy q r s) qs) rs).
Proof.
  intros Hs Hqs Hrs. induction Hrs as [|r rs Hr Hrs IH]; cbn [flat_map].
  - constructor.
  - apply NoDup_app; [|exact IH|].
    + apply Finite.Injective_map_NoDup; [|exact Hqs].
      intros q q' Heq. now apply (axial_to_xy_injective q r q' r s Hs).
    + intros c Hin Hin'. apply in_map_iff in Hin. destruct Hin as [q [<- _]].
      apply in_flat_map in Hin'. destruct Hin' as [r' [Hr' Hin']].
      apply in_map_iff in Hin'. destruct Hin' as [q' [Heq _]].
      destruct (axial_to_xy_injective q' r' q r s Hs Heq) as [_ ->]. contradiction.
Qed.

Lemma filter_fst_NoDup {A B : Type} (f : A * B -> bool) (l : list (A * B)) :
  NoDup (map fst l) -> NoDup (map fst (filter f l)).
Proof.
  induction l as [|x l IH]; cbn [map filter]; intros Hnd; [constructor|].
  inversion Hnd as [|? ? Hnot Hrest]; subst.
  destruct (f x); [|now apply IH].
  cbn [map]. constructor; [|now apply IH].
  intros Hin. apply Hnot. apply in_map_iff in Hin. destruct Hin as [y [Hy Hin]].
  apply filter_In in Hin. apply in_map_iff. exists y. tauto.
Qed.

(** X8: the cells of a returned grid have pairwise distinct centers: the
    lattice positions [(q, r)] are distinct, [axial_to_xy] is injective for
    a side that is not zero, and the translation and the clipping loop keep
    centers apart. *)
Theorem generated_centers_distinct (farm : geom) (cell_acres : R) (flag : bool)
    (cells : list (hex_cell geom)) :
  generate_hex_grid farm cell_acres flag = Ok cells ->
  NoDup (map center cells).
Proof.
  intros Hcells.
  pose proof (generate_hex_grid_positive _ _ _ _ Hcells) as Ha.
  destruct (generate_hex_grid_unfold farm cell_acres flag Ha)
    as [a [b [c [d [ox [oy Hgen]]]]]].
  rewrite Hgen in Hcells. injection Hcells as <-.
  pose proof (side_positive cell_acres Ha) as Hs.
  set (s := sqrt (cell_acres * ACRE_M2 / HEX_CONST)) in *.
  unfold clip_loop. rewrite fold_clip_filter. cbn [app].
  rewrite number_from_centers. apply filter_fst_NoDup.
  rewrite translated_centers, raw_lattice_centers.
  apply Finite.Injective_map_NoDup.
  - intros [x y] [x' y'] Heq. cbn [fst snd] in Heq. injection Heq as Hx Hy.
    f_equal; lra.
  - apply lattice_centers_NoDup; [lra | apply py_range_NoDup | apply py_range_NoDup].
Qed.

End GridCenters.

Lemma lattice_is_recentered_pair :
  [mk_raw 0 0 (0, 0) farm_rectangle; mk_raw 1 0 (2, 4) farm_rectangle] <> []
  /\ np_mean (map (fun h => fst (fst h))
                (translate (H := plane_shapely)
                   (500 - np_mean (map (fun h => fst (raw_center h))
                      [mk_raw 0 0 (0, 0) farm_rectangle; mk_raw 1 0 (2, 4) farm_rectangle]))
                   (400 - np_mean (map (fun h => snd (raw_center h))
                      [mk_raw 0 0 (0, 0) farm_rectangle; mk_raw 1 0 (2, 4) farm_rectangle]))
                   1
                   [mk_raw 0 0 (0, 0) farm_rectangle; mk_raw 1 0 (2, 4) farm_rectangle]))
     = 500.
Proof.
  split; [discriminate|].
  apply (lattice_is_recentered (H := plane_shapely) 500 400 1). discriminate.
Defined.

Lemma generated_centers_distinct_on_rectangle :
  exists cells,
    generate_hex_grid farm_rectangle 0.5 true = Ok cells
    /\ NoDup (map center cells).
Proof.
  destruct (generate_hex_grid_unfold (H := plane_shapely) farm_rectangle 0.5 true
              ltac:(lra)) as [a [b [c [d [ox [oy Hgen]]]]]].
  eexists. split; [exact Hgen|].
  apply (generated_centers_distinct (H := plane_shapely) farm_rectangle 0.5 true _ Hgen).
Defined.

End HexgridMore.

(** ** The assignment *)

Module CapacityKMeansMore.
Import CapacityKMeans CapacityKMeansFacts.

Section AssignMore.
Context {geom : Type}.
Variable geom_eq_dec : forall a b : geom, {a = b} + {a <> b}.
Variable KMeans_fit : nat -> Z -> list (R * R) -> option (list nat * list (R * R)).
#[local] Abbreviation cell := (hex_cell geom).
#[local] Abbreviation buckets_t := (list (list (hex_cell geom))).
#[local] Abbreviation assign := (assign_hexes_to_uavs geom_eq_dec KMeans_fit).

Lemma assign_writes (hex_cells : list cell) (uavs : list uav) (k : option nat)
    (seed : Z) :
  0 < total_workload hex_cells ->
  capacities_computable uavs ->
  fst (assign hex_cells uavs k seed)
  = map (filled (total_workload hex_cells) (battery_sum uavs)) uavs.
Proof.
  intros Hpos Hcomp.
  rewrite (assign_positive_workload geom_eq_dec KMeans_fit) by exact Hpos.
  now rewrite (fill_capacities_Ok _ _ _ Hcomp).
Qed.

Lemma filled_has_capacity (total bsum : R) (u : uav) :
  capacity_workload (filled total bsum u) <> None.
Proof.
  unfold filled. destruct (capacity_workload u) eqn:E; cbn; congruence.
Qed.

Lemma filled_twice (total bsum total' bsum' : R) (u : uav) :
  filled total' bsum' (filled total bsum u) = filled total bsum u.
Proof.
  pose proof (filled_has_capacity total bsum u) as Hsome.
  unfold filled at 1. destruct (capacity_workload (filled total bsum u));
    [reflexivity | contradiction].
Qed.

(** X9: the default capacities share out the total workload: when no
    vehicle comes with a capacity (and the battery sum is not zero), the
    capacities the call writes add up to the total workload of the cells. *)
Theorem default_capacities_sum_to_total (hex_cells : list cell) (uavs : list uav)
    (k : option nat) (seed : Z) :
  0 < total_workload hex_cells ->
  battery_sum uavs <> 0 ->
  Forall (fun u => capacity_workload u = None) uavs ->
  exists capacities,
    map capacity_workload (fst (assign hex_cells uavs k seed)) = map Some capacities
    /\ Rsum capacities = total_workload hex_cells.
Proof.
  intros Hpos Hsum Hnone.
  rewrite assign_writes by (try assumption; now left).
  set (total := total_workload hex_cells). set (bsum := battery_sum uavs) in *.
  exists (map (fun u => total * (battery_of u / bsum)) uavs). split.
  - rewrite !map_map. apply map_ext_in. intros u Hin.
    rewrite Forall_forall in Hnone. unfold filled. now rewrite (Hnone u Hin).
  - assert (Hscale : forall l, Rsum (map (fun u => total * (battery_of u / bsum)) l)
                               = total * (Rsum (map battery_of l) / bsum)).
    { induction l as [|u l IH]; cbn [map Rsum fold_right].
      - unfold Rdiv. ring.
      - fold (Rsum (map (fun u => total * (battery_of u / bsum)) l)).
        fold (Rsum (map battery_of l)). rewrite IH. field. exact Hsum. }
    rewrite Hscale. fold (battery_sum uavs). fold bsum. field. exact Hsum.
Qed.

(** X10: capacities are written once.  After a call that got past the
    workload check and computed the capacities, any later call on the same
    vehicle list, for whatever cells, cluster count and seed, leaves the
    list as it is: the capacities of the first call are reused, also for a
    cell set of a different total workload. *)
Theorem capacities_are_written_once (hex_cells hex_cells' : list cell)
    (uavs : list uav) (k k' : option nat) (seed seed' : Z) :
  0 < total_workload hex_cells ->
  capacities_computable uavs ->
  fst (assign hex_cells' (fst (assign hex_cells uavs k seed)) k' seed')
  = fst (assign hex_cells uavs k seed).
Proof.
  intros Hpos Hcomp. rewrite (assign_writes hex_cells) by assumption.
  set (uavs1 := map (filled (total_workload hex_cells) (battery_sum uavs)) uavs).
  destruct (Rle_dec (total_workload hex_cells') 0) as [Hle|Hgt].
  - now rewrite (assign_zero_workload geom_eq_dec KMeans_fit).
  - apply Rnot_le_lt in Hgt. rewrite assign_writes; [|exact Hgt|].
    + unfold uavs1. rewrite map_map. apply map_ext. intros u. apply filled_twice.
    + right. unfold uavs1. apply Forall_forall. intros u Hin.
      apply in_map_iff in Hin. destruct Hin as [u0 [<- _]]. apply filled_has_capacity.
Qed.

(** X11: a battery sum of zero.  With a positive workload, a vehicle
    without capacity and battery fractions that add up to zero, the call
    raises [ZeroDivisionError] and has written nothing into the vehicle
    records. *)
Theorem zero_battery_sum_raises (hex_cells : list cell) (uavs : list uav)
    (k : option nat) (seed : Z) :
  0 < total_workload hex_cells ->
  battery_sum uavs = 0 ->
  Exists (fun u => capacity_workload u = None) uavs ->
  assign hex_cells uavs k seed = (uavs, Raise ZeroDivisionError).
Proof.
  intros Hpos Hsum Hex.
  rewrite (assign_positive_workload geom_eq_dec KMeans_fit) by exact Hpos.
  rewrite Hsum, fill_capacities_zero_sum by exact Hex. reflexivity.
Qed.

(** X12: a failing fit.  When KMeans raises (for instance for fewer cells
    than clusters), the call raises too, after the capacities have been
    written: the caller's vehicle records carry the computed capacities
    although no assignment was returned. *)
Theorem failed_fit_leaves_capacities (hex_cells : list cell) (uavs : list uav)
    (k : option nat) (seed : Z) :
  0 < total_workload hex_cells ->
  capacities_computable uavs ->
  KMeans_fit (clusters uavs k) seed (map center hex_cells) = None ->
  assign hex_cells uavs k seed
  = (map (filled (total_workload hex_cells) (battery_sum uavs)) uavs,
     Raise KMeansError).
Proof.
  intros Hpos Hcomp Hfit.
  rewrite (assign_positive_workload geom_eq_dec KMeans_fit) by exact Hpos.
  pose proof (fill_capacities_Ok (total_workload hex_cells) (battery_sum uavs) uavs
                Hcomp) as Hfill.
  rewrite Hfill. cbn [bind].
  destruct (fill_capacities_inv _ _ _ _ Hfill) as [_ Hsome].
  destruct (read_capacities_Ok _ Hsome) as [caps [Hread _]].
  rewrite Hread. cbn [bind]. rewrite Hfit. reflexivity.
Qed.

(** *** Conservation *)

Lemma passes_keep (capacities : list R) (cluster_centers : list (R * R)) (k : nat)
    (buckets : buckets_t) :
  well_shaped k capacities cluster_centers buckets ->
  forall j,
  exists bsj changed,
    passes geom_eq_dec capacities cluster_centers k j buckets = Ok (bsj, changed)
    /\ well_shaped k capacities cluster_centers bsj
    /\ Permutation (concat bsj) (concat buckets).
Proof.
  intros Hshape. induction j as [|j IH]; cbn [passes].
  - exists buckets, true. split; [reflexivity|]. split; [exact Hshape | reflexivity].
  - destruct IH as [bsj [c [Hj [Hsj Hpj]]]]. rewrite Hj. cbn [bind].
    destruct (rebalance_pass_keeps geom_eq_dec capacities cluster_centers k bsj Hsj)
      as [bs' [c' [Hrun [Hs' [Hp' _]]]]].
    exists bs', c'. split; [exact Hrun|]. split; [exact Hs'|]. now rewrite Hp'.
Qed.

(** X13: the rebalancing only moves cells.  After any number of passes, and
    at the end of the loop, there are still [k] buckets, the buckets taken
    together hold the cells they held at the start (each as often as
    before), and the workloads of the buckets add up to the same total. *)
Theorem rebalancing_conserves_cells (capacities : list R)
    (cluster_centers : list (R * R)) (k : nat) (buckets : buckets_t) :
  well_shaped k capacities cluster_centers buckets ->
  (forall j,
     exists bsj changed,
       passes geom_eq_dec capacities cluster_centers k j buckets = Ok (bsj, changed)
       /\ length bsj = k
       /\ Permutation (concat bsj) (concat buckets)
       /\ Rsum (map bucket_workload bsj) = Rsum (map bucket_workload buckets))
  /\ exists buckets' n,
       rebalance geom_eq_dec capacities cluster_centers k buckets = Ok (buckets', n)
       /\ length buckets' = k
       /\ Permutation (concat buckets') (concat buckets)
       /\ Rsum (map bucket_workload buckets') = Rsum (map bucket_workload buckets).
Proof.
  intros Hshape. split.
  - intros j. destruct (passes_keep capacities cluster_centers k buckets Hshape j)
      as [bsj [c [Hj [Hsj Hpj]]]].
    exists bsj, c. split; [exact Hj|]. split; [apply Hsj|]. split; [exact Hpj|].
    rewrite !workload_concat. now apply bucket_workload_perm.
  - destruct (rebalance_spec geom_eq_dec capacities cluster_centers k buckets Hshape)
      as [bs' [n [c' [Hreb [Hs' [Hp' _]]]]]].
    exists bs', n. split; [exact Hreb|]. split; [apply Hs'|]. split; [exact Hp'|].
    rewrite !workload_concat. now apply bucket_workload_perm.
Qed.

(** *** One move *)

Lemma list_set_same {A : Type} (l : list A) (i : nat) (v : A) :
  (i < length l)%nat -> nth_error (list_set l i v) i = Some v.
Proof.
  revert i. induction l as [|x l IH]; intros [|i] Hi; cbn in *; try lia.
  - reflexivity.
  - apply IH. lia.
Qed.

(** X14: what a move does.  When the step of bucket [b] reports a move, the
    bucket was above its capacity; one of its cells [h] went to another
    bucket [chosen_b]; bucket [b] lost the workload of [h], the receiver
    gained it and ends at most half that workload above its own capacity;
    every other bucket is as it was. *)
Theorem move_overshoots_by_half_at_most (capacities : list R)
    (cluster_centers : list (R * R)) (k : nat) (buckets buckets' : buckets_t)
    (b : nat) :
  well_shaped k capacities cluster_centers buckets ->
  (b < k)%nat ->
  process_bucket geom_eq_dec capacities cluster_centers k (buckets, false) b
    = Ok (buckets', true) ->
  exists h chosen_b bk cap dst cap2 bk' dst',
    nth_error buckets b = Some bk /\ In h bk
    /\ nth_error capacities b = Some cap /\ bucket_workload bk > cap
    /\ chosen_b <> b
    /\ nth_error buckets chosen_b = Some dst
    /\ nth_error capacities chosen_b = Some cap2
    /\ nth_error buckets' b = Some bk'
    /\ bucket_workload bk' = bucket_workload bk - workload h
    /\ nth_error buckets' chosen_b = Some dst'
    /\ dst' = dst ++ [h]
    /\ bucket_workload dst' <= cap2 + workload h / 2
    /\ (forall j, j <> b -> j <> chosen_b ->
          nth_error buckets' j = nth_error buckets j).
Proof.
  intros Hshape Hb Hrun. pose proof Hshape as [Hlen [Hcaps Hcc]].
  destruct (nth_error_Ok buckets b ltac:(lia)) as [bk Ebk].
  destruct (nth_error_Ok capacities b ltac:(lia)) as [cap Ecap].
  destruct (nth_error_Ok cluster_centers b ltac:(lia)) as [centroid Ecc].
  destruct (Rle_dec (bucket_workload bk) cap) as [Hle|Hgt].
  { rewrite (process_bucket_light geom_eq_dec _ _ _ _ _ _ bk cap Ebk Ecap Hle) in Hrun.
    discriminate. }
  apply Rnot_le_gt in Hgt.
  rewrite (process_bucket_heavy geom_eq_dec _ _ _ _ _ _ _ _ _ Ebk Ecap Ecc Hgt) in Hrun.
  destruct (try_move_spec geom_eq_dec capacities cluster_centers k buckets b bk
              (hexes_sorted centroid bk) Hshape Ebk)
    as [[Htry _]|[pre [h [post [chosen_b [src' [dst H]]]]]]].
  { intros x Hx. eapply Permutation_in; [apply hexes_sorted_perm | exact Hx]. }
  { rewrite Htry in Hrun. discriminate. }
  destruct H as [Hsplit [_ [Hnear [Hrm [Hdst Htry]]]]].
  rewrite Htry in Hrun. cbn [bind] in Hrun. injection Hrun as <-.
  destruct Hnear as [Hlt [[Hne [cap2 [bk2 [Ecap2 [Ebk2 Hspare]]]]] _]].
  rewrite Hdst in Ebk2. injection Ebk2 as <-.
  apply (list_remove_perm geom_eq_dec) in Hrm.
  assert (Hin : In h bk).
  { eapply Permutation_in; [symmetry; exact Hrm | now left]. }
  assert (Hload : bucket_workload bk = workload h + bucket_workload src').
  { rewrite (bucket_workload_perm _ _ Hrm). unfold bucket_workload.
    cbn [map Rsum fold_right]. reflexivity. }
  exists h, chosen_b, bk, cap, dst, cap2, src', (dst ++ [h]).
  split; [exact Ebk|]. split; [exact Hin|]. split; [exact Ecap|].
  split; [exact Hgt|]. split; [exact Hne|]. split; [exact Hdst|].
  split; [exact Ecap2|].
  split.
  { rewrite list_set_other by congruence. apply list_set_same. lia. }
  split; [lra|].
  split.
  { apply list_set_same. rewrite list_set_length. lia. }
  split; [reflexivity|].
  split.
  { rewrite bucket_workload_app. unfold bucket_workload at 2.
    cbn [map Rsum fold_right]. lra. }
  intros j Hjb Hjc. rewrite !list_set_other by congruence. reflexivity.
Qed.

(** *** A single vehicle *)

Lemma build_buckets_single (hex_cells : list cell) (labels : list nat) :
  forall idx acc,
  Forall (fun lab => (lab < 1)%nat) labels ->
  (idx + length labels = length hex_cells)%nat ->
  build_buckets hex_cells idx labels [acc] = Ok [acc ++ skipn idx hex_cells].
Proof.
  induction labels as [|lab rest IH]; intros idx acc Hlab Hlen; cbn [build_buckets].
  - cbn [length] in Hlen. rewrite Nat.add_0_r in Hlen. subst idx.
    now rewrite skipn_all, app_nil_r.
  - inversion Hlab as [|? ? Hlt Hrest]; subst. cbn [length] in Hlen.
    assert (lab = 0%nat) by lia. subst lab.
    destruct (nth_error_Ok hex_cells idx ltac:(lia)) as [h Eh].
    unfold py_index. cbn [bucket_get nth_error bind]. rewrite Eh. cbn [bind list_set].
    rewrite IH by (try assumption; lia).
    rewrite (skipn_nth_error _ _ _ Eh), <- app_assoc. reflexivity.
Qed.

(** X15: a fleet of one.  With a single vehicle and [k] left to default,
    the vehicle is assigned every cell, in the order of the input list,
    whatever its capacity: no other bucket exists to receive a cell.  The
    statistics report the number of cells and the total workload. *)
Theorem single_vehicle_gets_every_cell (hex_cells : list cell) (u : uav) (seed : Z) :
  KMeans_shape KMeans_fit ->
  0 < total_workload hex_cells ->
  capacities_computable [u] ->
  (exists labels cluster_centers,
      KMeans_fit 1%nat seed (map center hex_cells) = Some (labels, cluster_centers)) ->
  exists uavs' st,
    assign hex_cells [u] None seed
    = (uavs', Ok ([(uav_id u, hex_cells)], [(uav_id u, st)]))
    /\ count_hexes st = length hex_cells
    /\ stat_workload st = total_workload hex_cells.
Proof.
  intros Hshape Hpos Hcomp [labels [cc Hfit]].
  set (total := total_workload hex_cells). set (bsum := battery_sum [u]).
  pose proof (filled_has_capacity total bsum u) as Hsome.
  destruct (capacity_workload (filled total bsum u)) as [c|] eqn:Ec; [|contradiction].
  destruct (Hshape _ _ _ _ _ Hfit) as [Hlabels [Hrange Hcc]].
  rewrite length_map in Hlabels.
  assert (Hws : well_shaped 1 [c] cc [hex_cells]).
  { unfold well_shaped. cbn [length]. lia. }
  eexists _, _. split.
  - rewrite (assign_run geom_eq_dec KMeans_fit hex_cells [u] None seed [c] labels cc
               [hex_cells] [hex_cells] 1%nat Hpos Hcomp).
    + fold total bsum. cbn [map output_loop]. unfold read_capacity. rewrite Ec.
      cbn [bind nth dict_set output_loop].
      destruct (filled_frame total bsum u) as [-> [-> _]]. reflexivity.
    + fold total bsum. cbn [map read_capacities]. unfold read_capacity. rewrite Ec.
      reflexivity.
    + exact Hfit.
    + cbn [clusters length repeat].
      rewrite (build_buckets_single hex_cells labels 0 [] Hrange Hlabels).
      reflexivity.
    + apply rebalance_stuck; [exact Hws|].
      intros b bk h Ebk Hin b2 Hb2 [Hne _]. cbn [clusters length] in Hb2.
      destruct b as [|b]; [lia|]. destruct b; discriminate.
  - split; reflexivity.
Qed.

(** *** The keys of the returned dictionaries *)

Lemma dict_set_known {V : Type} (d : list (Z * V)) (key : Z) (v : V) :
  In key (map fst d) -> map fst (dict_set d key v) = map fst d.
Proof.
  induction d as [|[key' v'] d IH]; intros Hin; cbn [dict_set map fst].
  - destruct Hin.
  - destruct (Z.eqb_spec key key') as [->|Hne]; [reflexivity|].
    cbn [map fst]. f_equal. apply IH.
    destruct Hin as [Heq|Hin]; [cbn in Heq; congruence | exact Hin].
Qed.

Lemma dict_get_set_same {V : Type} (d : list (Z * V)) (key : Z) (v : V) :
  dict_get (dict_set d key v) key = Some v.
Proof.
  induction d as [|[key' v'] d IH]; cbn [dict_set dict_get].
  - now rewrite Z.eqb_refl.
  - destruct (Z.eqb_spec key key') as [->|Hne]; cbn [dict_get].
    + now rewrite Z.eqb_refl.
    + destruct (Z.eqb_spec key key'); [contradiction | exact IH].
Qed.

Lemma dict_get_set_other {V : Type} (d : list (Z * V)) (key key' : Z) (v : V) :
  key' <> key -> dict_get (dict_set d key v) key' = dict_get d key'.
Proof.
  intros Hne. induction d as [|[k0 v0] d IH]; cbn [dict_set dict_get].
  - destruct (Z.eqb_spec key' key); [contradiction | reflexivity].
  - destruct (Z.eqb_spec key k0) as [->|Hk]; cbn [dict_get].
    + destruct (Z.eqb_spec key' k0); [contradiction | reflexivity].
    + destruct (Z.eqb_spec key' k0); [reflexivity | exact IH].
Qed.

Lemma dict_set_keys {V : Type} (d : list (Z * V)) (key : Z) (v : V) :
  NoDup (map fst d) ->
  NoDup (map fst (dict_set d key v))
  /\ forall x, In x (map fst (dict_set d key v)) <-> In x (map fst d) \/ x = key.
Proof.
  intros Hnd. destruct (in_dec Z.eq_dec key (map fst d)) as [Hin|Hnot].
  - rewrite (dict_set_known d key v Hin). split; [exact Hnd|].
    intros x. split; [now left | intros [Hx| ->]; assumption].
  - rewrite (dict_set_fresh d key v Hnot), map_app. cbn [map fst]. split.
    + apply NoDup_app; [exact Hnd | repeat constructor; intros [] |].
      intros x Hx [<-|[]]. contradiction.
    + intros x. rewrite in_app_iff. cbn [In]. intuition.
Qed.

Lemma output_loop_keys (buckets : buckets_t) (uavs : list uav) :
  forall i assignments stats assignments' stats',
  output_loop buckets i uavs assignments stats = Ok (assignments', stats') ->
  NoDup (map fst assignments) ->
  map fst stats = map fst assignments ->
  NoDup (map fst assignments')
  /\ map fst stats' = map fst assignments'
  /\ (forall key, In key (map fst assignments') <->
                  In key (map fst assignments) \/ In key (map uav_id uavs))
  /\ (forall key, ~ In key (map uav_id uavs) ->
        dict_get stats' key = dict_get stats key).
Proof.
  induction uavs as [|u rest IH]; intros i a s a' s' Hrun Hnd Hkeys;
    cbn [output_loop] in Hrun.
  - injection Hrun as <- <-. split; [exact Hnd|]. split; [exact Hkeys|].
    split; [|reflexivity]. intros key. cbn. tauto.
  - destruct (read_capacity u) as [cap|e]; cbn [bind] in Hrun; [|discriminate].
    destruct (dict_set_keys a (uav_id u) (nth i buckets []) Hnd) as [Hnd1 Hin1].
    assert (Hkeys1 : map fst (dict_set s (uav_id u)
                        (mk_stats (length (nth i buckets []))
                           (bucket_workload (nth i buckets [])) cap (battery_pct u)))
                     = map fst (dict_set a (uav_id u) (nth i buckets []))).
    { destruct (in_dec Z.eq_dec (uav_id u) (map fst a)) as [Hin|Hnot].
      - rewrite !dict_set_known; [exact Hkeys | exact Hin | now rewrite Hkeys].
      - rewrite !dict_set_fresh, !map_app; [now rewrite Hkeys | exact Hnot |
          now rewrite Hkeys]. }
    destruct (IH _ _ _ _ _ Hrun Hnd1 Hkeys1) as [Hnd' [Hkeys' [Hin' Hget']]].
    split; [exact Hnd'|]. split; [exact Hkeys'|]. split.
    + intros key. rewrite Hin', Hin1. cbn [map In]. intuition.
    + intros key Hnot. cbn [map In] in Hnot.
      rewrite Hget' by tauto. apply dict_get_set_other. intros ->. tauto.
Qed.

Lemma assign_output_inv (hex_cells : list cell) (uavs uavs' : list uav)
    (k : option nat) (seed : Z) assignments stats :
  assign hex_cells uavs k seed = (uavs', Ok (assignments, stats)) ->
  uavs' = map (filled (total_workload hex_cells) (battery_sum uavs)) uavs
  /\ exists buckets', output_loop buckets' 0 uavs' [] [] = Ok (assignments, stats).
Proof.
  intros Hrun.
  destruct (assign_Ok_inv geom_eq_dec KMeans_fit _ _ _ _ _ _ _ Hrun)
    as [Hpos [Hfill _]].
  destruct (fill_capacities_inv _ _ _ _ Hfill) as [Huavs' _].
  split; [exact Huavs'|].
  rewrite (assign_positive_workload geom_eq_dec KMeans_fit) in Hrun by exact Hpos.
  rewrite Hfill in Hrun. injection Hrun as Hrun. cbn [bind] in Hrun.
  destruct (read_capacities uavs') as [caps|e]; cbn [bind] in Hrun; [|discriminate].
  destruct (fit_or_raise _) as [[labels cc]|e]; cbn [bind] in Hrun; [|discriminate].
  destruct (build_buckets _ _ _ _) as [bs|e]; cbn [bind] in Hrun; [|discriminate].
  destruct (rebalance _ _ _ _ _) as [[bs' n]|e]; cbn [bind] in Hrun; [|discriminate].
  eauto.
Qed.

(** X16: the keys of the result.  Whatever the vehicle ids, the two
    returned dictionaries have the same keys in the same order, pairwise
    distinct, and these are exactly the ids of the vehicles: a repeated id
    gives one entry, so there can be fewer entries than vehicles.  The
    statistics under an id are those of the last vehicle carrying it. *)
Theorem result_is_keyed_by_vehicle_id (hex_cells : list cell) (uavs uavs' : list uav)
    (k : option nat) (seed : Z) assignments stats :
  assign hex_cells uavs k seed = (uavs', Ok (assignments, stats)) ->
  NoDup (map fst assignments)
  /\ map fst stats = map fst assignments
  /\ (forall key, In key (map fst assignments) <-> In key (map uav_id uavs))
  /\ (length assignments <= length uavs)%nat
  /\ (forall front u back,
        uavs = front ++ u :: back ->
        ~ In (uav_id u) (map uav_id back) ->
        exists st,
          dict_get stats (uav_id u) = Some st
          /\ stat_battery_pct st = battery_pct u
          /\ (forall c, capacity_workload u = Some c -> stat_capacity st = c)).
Proof.
  intros Hrun.
  destruct (assign_output_inv _ _ _ _ _ _ _ Hrun) as [Huavs' [bs' Hout]].
  set (total := total_workload hex_cells) in *. set (bsum := battery_sum uavs) in *.
  assert (Hids : forall l, map uav_id (map (filled total bsum) l) = map uav_id l).
  { intros l. rewrite map_map. apply map_ext. intros u. apply filled_frame. }
  destruct (output_loop_keys bs' uavs' 0 [] [] _ _ Hout (NoDup_nil _) eq_refl)
    as [Hnd [Hkeys [Hin _]]].
  split; [exact Hnd|]. split; [exact Hkeys|].
  assert (Hin' : forall key, In key (map fst assignments) <-> In key (map uav_id uavs)).
  { intros key. rewrite Hin, Huavs', Hids. cbn. tauto. }
  split; [exact Hin'|]. split.
  - rewrite <- (length_map fst assignments), <- (length_map uav_id uavs).
    apply NoDup_incl_length; [exact Hnd|]. intros key. apply Hin'.
  - intros front u back Hsplit Hlast.
    rewrite Huavs', Hsplit, map_app in Hout. cbn [map] in Hout.
    clear Hnd Hkeys Hin Hin'.
    assert (Hgen : forall pre i a s,
              output_loop bs' i (pre ++ filled total bsum u :: map (filled total bsum) back)
                a s = Ok (assignments, stats) ->
              exists st, dict_get stats (uav_id u) = Some st
                         /\ stat_battery_pct st = battery_pct u
                         /\ Some (stat_capacity st)
                            = capacity_workload (filled total bsum u)).
    { induction pre as [|p pre IHp]; intros i a s Hloop; cbn [app output_loop] in Hloop.
      - destruct (read_capacity (filled total bsum u)) as [cap|e] eqn:Ecap;
          cbn [bind] in Hloop; [|discriminate].
        destruct (filled_frame total bsum u) as [Hid [Hbat _]].
        rewrite Hid, Hbat in Hloop.
        set (a1 := dict_set a (uav_id u) (nth i bs' [])) in Hloop.
        set (st := mk_stats (length (nth i bs' [])) (bucket_workload (nth i bs' []))
                     cap (battery_pct u)) in Hloop.
        assert (Hrest : dict_get stats (uav_id u)
                        = dict_get (dict_set s (uav_id u) st) (uav_id u)).
        { revert Hloop. generalize (S i) a1 (dict_set s (uav_id u) st).
          clear - Hlast Hids.
          induction back as [|v back IHb]; intros j a2 s2 Hloop;
            cbn [map output_loop] in Hloop.
          - now injection Hloop as _ <-.
          - destruct (read_capacity (filled total bsum v)) as [cv|e];
              cbn [bind] in Hloop; [|discriminate].
            cbn [map In] in Hlast.
            rewrite (IHb ltac:(tauto) _ _ _ Hloop).
            apply dict_get_set_other.
            destruct (filled_frame total bsum v) as [-> _]. intros Heq.
            apply Hlast. left. now symmetry. }
        exists st. rewrite Hrest, dict_get_set_same.
        split; [reflexivity|]. split; [reflexivity|].
        unfold read_capacity in Ecap.
        destruct (capacity_workload (filled total bsum u)); [|discriminate].
        now injection Ecap as ->.
      - destruct (read_capacity p) as [cp|e]; cbn [bind] in Hloop; [|discriminate].
        now apply (IHp _ _ _ Hloop). }
    destruct (Hgen (map (filled total bsum) front) 0%nat [] [] Hout)
      as [st [Hst [Hbat Hcap]]].
    exists st. split; [exact Hst|]. split; [exact Hbat|].
    intros c Hc. destruct (filled_frame total bsum u) as [_ [_ [Hsame _]]].
    rewrite (Hsame c Hc), Hc in Hcap. now injection Hcap.
Qed.

End AssignMore.

(** *** On the sample data *)

Lemma two_uavs_bare : Forall (fun u => capacity_workload u = None) two_uavs.
Proof. repeat constructor. Qed.

Lemma two_cells_positive : 0 < total_workload two_cells.
Proof. rewrite two_cells_workload. lra. Qed.

Lemma default_capacities_sum_to_total_two_uavs :
  exists capacities,
    map capacity_workload
      (fst (assign_hexes_to_uavs unit_eq_dec modulo_clustering two_cells two_uavs None 42))
    = map Some capacities
    /\ Rsum capacities = total_workload two_cells.
Proof.
  apply (default_capacities_sum_to_total unit_eq_dec modulo_clustering two_cells
           two_uavs None 42 two_cells_positive).
  - rewrite two_uavs_battery. lra.
  - exact two_uavs_bare.
Defined.

Lemma capacities_are_written_once_two_uavs :
  fst (assign_hexes_to_uavs unit_eq_dec modulo_clustering one_cell
         (fst (assign_hexes_to_uavs unit_eq_dec modulo_clustering two_cells two_uavs
                 None 42))
         None 7)
  = fst (assign_hexes_to_uavs unit_eq_dec modulo_clustering two_cells two_uavs None 42).
Proof.
  apply (capacities_are_written_once unit_eq_dec modulo_clustering two_cells one_cell
           two_uavs None None 42 7 two_cells_positive two_uavs_computable).
Defined.

Lemma zero_battery_sum_raises_flat :
  assign_hexes_to_uavs unit_eq_dec modulo_clustering two_cells flat_uavs None 42
  = (flat_uavs, Raise ZeroDivisionError).
Proof.
  apply (zero_battery_sum_raises unit_eq_dec modulo_clustering two_cells flat_uavs
           None 42 two_cells_positive).
  - unfold battery_sum, flat_uavs, battery_of. cbn [map Rsum fold_right battery_pct].
    lra.
  - left. reflexivity.
Defined.

Lemma one_cell_positive : 0 < total_workload one_cell.
Proof.
  unfold total_workload, one_cell. cbn [map Rsum fold_right].
  destruct unit_cell_workload as [-> _]. lra.
Qed.

(** One cell for two clusters: the fit fails. *)
Lemma failed_fit_leaves_capacities_one_cell :
  assign_hexes_to_uavs unit_eq_dec modulo_clustering one_cell two_uavs None 42
  = (map (filled (total_workload one_cell) (battery_sum two_uavs)) two_uavs,
     Raise KMeansError).
Proof.
  apply (failed_fit_leaves_capacities unit_eq_dec modulo_clustering one_cell two_uavs
           None 42 one_cell_positive two_uavs_computable).
  reflexivity.
Defined.

Lemma crowded_shape : well_shaped 2 [0.1; 5] two_centers crowded.
Proof. unfold well_shaped. cbn [length crowded two_centers]. lia. Qed.

Lemma rebalancing_conserves_cells_crowded :
  exists buckets' n,
    rebalance unit_eq_dec [0.1; 5] two_centers 2 crowded = Ok (buckets', n)
    /\ length buckets' = 2%nat
    /\ Permutation (concat buckets') (concat crowded)
    /\ Rsum (map bucket_workload buckets') = Rsum (map bucket_workload crowded).
Proof.
  apply (rebalancing_conserves_cells unit_eq_dec [0.1; 5] two_centers 2 crowded
           crowded_shape).
Defined.

(** The crowded bucket gives a cell away. *)
Lemma crowded_bucket_moves :
  exists buckets',
    process_bucket unit_eq_dec [0.1; 5] two_centers 2 (crowded, false) 0
    = Ok (buckets', true).
Proof.
  destruct unit_cell_workload as [Hwa Hwb].
  assert (Hgt : bucket_workload [cell_a; cell_b] > 0.1).
  { unfold bucket_workload. cbn [map Rsum fold_right]. lra. }
  rewrite (process_bucket_heavy unit_eq_dec [0.1; 5] two_centers 2 crowded false 0
             [cell_a; cell_b] 0.1 (0, 0) eq_refl eq_refl eq_refl Hgt).
  destruct (try_move_spec unit_eq_dec [0.1; 5] two_centers 2 crowded 0
              [cell_a; cell_b] (hexes_sorted (0, 0) [cell_a; cell_b]) crowded_shape
              eq_refl)
    as [[_ Hnone]|[pre [h [post [chosen_b [src' [dst H]]]]]]].
  - intros x Hx. eapply Permutation_in; [apply hexes_sorted_perm | exact Hx].
  - exfalso.
    assert (Hin : In cell_a (hexes_sorted (0, 0) [cell_a; cell_b])).
    { eapply Permutation_in; [symmetry; apply hexes_sorted_perm | now left]. }
    rewrite Forall_forall in Hnone.
    apply (Hnone cell_a Hin 1%nat ltac:(lia)).
    split; [lia|]. exists 5, []. split; [reflexivity|]. split; [reflexivity|].
    unfold bucket_workload. cbn [map Rsum fold_right]. lra.
  - destruct H as [_ [_ [_ [_ [_ Hrun]]]]]. rewrite Hrun. cbn [bind]. eauto.
Qed.

Lemma move_overshoots_by_half_at_most_crowded :
  exists buckets' (h : hex_cell unit) chosen_b dst' cap2,
    process_bucket unit_eq_dec [0.1; 5] two_centers 2 (crowded, false) 0
    = Ok (buckets', true)
    /\ nth_error buckets' chosen_b = Some dst'
    /\ nth_error [0.1; 5] chosen_b = Some cap2
    /\ bucket_workload dst' <= cap2 + workload h / 2.
Proof.
  destruct crowded_bucket_moves as [bs' Hrun].
  destruct (move_overshoots_by_half_at_most unit_eq_dec [0.1; 5] two_centers 2 crowded
              bs' 0 crowded_shape ltac:(lia) Hrun)
    as [h [chosen_b [bk [cap [dst [cap2 [bk' [dst' H]]]]]]]].
  exists bs', h, chosen_b, dst', cap2.
  split; [exact Hrun|]. split; [apply H|]. split; apply H.
Defined.

Lemma lone_uav_computable : capacities_computable [lone_uav].
Proof.
  left. unfold battery_sum, lone_uav, battery_of. cbn [map Rsum fold_right battery_pct].
  lra.
Qed.

Lemma single_vehicle_gets_every_cell_lone :
  exists uavs' st,
    assign_hexes_to_uavs unit_eq_dec modulo_clustering two_cells [lone_uav] None 42
    = (uavs', Ok ([(uav_id lone_uav, two_cells)], [(uav_id lone_uav, st)]))
    /\ count_hexes st = length two_cells
    /\ stat_workload st = total_workload two_cells.
Proof.
  apply (single_vehicle_gets_every_cell unit_eq_dec modulo_clustering two_cells
           lone_uav 42 modulo_clustering_shape two_cells_positive lone_uav_computable).
  eexists _, _. reflexivity.
Defined.

Lemma twin_uavs_computable : capacities_computable twin_uavs.
Proof. right. repeat constructor; discriminate. Qed.

(** Two vehicles with the id 7: one entry. *)
Lemma result_is_keyed_by_vehicle_id_twins :
  exists uavs' assignments stats,
    assign_hexes_to_uavs unit_eq_dec modulo_clustering two_cells twin_uavs None 42
    = (uavs', Ok (assignments, stats))
    /\ NoDup (map fst assignments)
    /\ map fst stats = map fst assignments
    /\ (length assignments <= length twin_uavs)%nat.
Proof.
  destruct (assign_returns unit_eq_dec modulo_clustering two_cells twin_uavs None 42
              modulo_clustering_shape two_cells_positive twin_uavs_computable)
    as [a [s Hrun]].
  - cbn. lia.
  - exact two_cells_fit.
  - destruct (result_is_keyed_by_vehicle_id unit_eq_dec modulo_clustering two_cells
                twin_uavs _ None 42 a s Hrun) as [Hnd [Hkeys [_ [Hlen _]]]].
    eexists _, a, s. split; [exact Hrun|]. split; [exact Hnd|].
    split; [exact Hkeys | exact Hlen].
Defined.

End CapacityKMeansMore.

(** * The script [src/app.py] *)

Module AppFacts.
Import Hexgrid HexgridFacts CapacityKMeans CapacityKMeansFacts App.

(** ** Truncation *)

Lemma py_int_fraction (x : R) (m d : Z) :
  (0 < d)%Z -> (0 <= m)%Z -> x = IZR m / IZR d -> py_int x = (m / d)%Z.
Proof.
  intros Hd Hm ->.
  assert (Hd' : 0 < IZR d) by now apply IZR_lt.
  assert (Hm' : 0 <= IZR m) by now apply IZR_le.
  assert (Hx : 0 <= IZR m / IZR d).
  { apply Rmult_le_pos; [exact Hm'|]. left. now apply Rinv_0_lt_compat. }
  unfold py_int. destruct (Rle_dec 0 (IZR m / IZR d)) as [_|Hn]; [|contradiction].
  apply Zfloor_eq.
  pose proof (Z.mul_div_le m d Hd) as Hlo.
  pose proof (Z.mul_succ_div_gt m d Hd) as Hhi.
  apply IZR_le in Hlo. apply IZR_lt in Hhi.
  rewrite mult_IZR in Hlo. rewrite mult_IZR, succ_IZR in Hhi.
  assert (Hy : IZR m / IZR d * IZR d = IZR m) by (field; lra).
  set (y := IZR m / IZR d) in *.
  split; nra.
Qed.

Lemma threshold_four_fifths (n : nat) :
  py_int (0.8 * INR n) = (4 * Z.of_nat n / 5)%Z.
Proof.
  apply py_int_fraction; [lia | lia |].
  rewrite INR_IZR_INZ, mult_IZR. lra.
Qed.

Lemma high_fraction_twentieth (n : nat) :
  py_int (INR n * HIGH_PRIORITY_FRACTION) = (Z.of_nat n / 20)%Z.
Proof.
  apply py_int_fraction; [lia | lia |].
  unfold HIGH_PRIORITY_FRACTION. rewrite INR_IZR_INZ. lra.
Qed.

(** ** The centroid filter *)

Section Filter.
Context {geom : Type}.
Variable point_within : R * R -> geom -> bool.

#[local] Abbreviation cell := (hex_cell geom).

Lemma filter_length_bound {A : Type} (f : A -> bool) (l : list A) :
  (length (filter f l) <= length l)%nat.
Proof.
  induction l as [|x l IH]; cbn [filter length]; [lia|].
  destruct (f x); cbn [length]; lia.
Qed.

Lemma filter_all {A : Type} (f : A -> bool) (l : list A) :
  Forall (fun x => f x = true) l -> filter f l = l.
Proof.
  induction 1 as [|x l Hx _ IH]; cbn [filter]; [reflexivity|].
  now rewrite Hx, IH.
Qed.

Lemma centroid_filter_cases (farm_polygon : geom) (cells : list cell) :
  let inside := filter (fun h => point_within (center h) farm_polygon) cells in
  (centroid_filter point_within farm_polygon cells = cells
   /\ (5 * length inside + 5 <= 4 * length cells)%nat)
  \/ (centroid_filter point_within farm_polygon cells = inside
      /\ (4 * length cells < 5 * length inside + 5)%nat).
Proof.
  intros inside. unfold centroid_filter. fold inside.
  rewrite threshold_four_fifths.
  destruct (Z.ltb_spec (Z.of_nat (length inside)) (4 * Z.of_nat (length cells) / 5))
    as [Hlt|Hge]; [left|right]; (split; [reflexivity|]).
  - pose proof (Z.mul_div_le (4 * Z.of_nat (length cells)) 5 ltac:(lia)). lia.
  - pose proof (Z.mul_succ_div_gt (4 * Z.of_nat (length cells)) 5 ltac:(lia)). lia.
Qed.

Lemma centroid_filter_all_inside (farm_polygon : geom) (cells : list cell) :
  Forall (fun h => point_within (center h) farm_polygon = true) cells ->
  centroid_filter point_within farm_polygon cells = cells.
Proof.
  intros Hall.
  destruct (centroid_filter_cases farm_polygon cells) as [[-> _]|[-> _]];
    [reflexivity|].
  now apply filter_all.
Qed.

Lemma centroid_filter_incl (farm_polygon : geom) (cells : list cell) :
  incl (centroid_filter point_within farm_polygon cells) cells.
Proof.
  destruct (centroid_filter_cases farm_polygon cells) as [[-> _]|[-> _]].
  - apply incl_refl.
  - intros x Hx. apply filter_In in Hx. tauto.
Qed.

(** X17: the centroid filter.  The script keeps the cells whose center lies
    within the farm, in grid order, unless these are fewer than
    [int(0.8 * len(cells))]: then it keeps the whole grid.  Either way more
    than four fifths of the grid minus one cell remain.  Nothing remains
    only for an empty grid, or for a grid of a single cell whose center
    lies outside ([int(0.8)] is 0, so there is no fallback). *)
Theorem centroid_filter_keeps_most (farm_polygon : geom) (cells : list cell) :
  let inside := filter (fun h => point_within (center h) farm_polygon) cells in
  let filtered := centroid_filter point_within farm_polygon cells in
  (filtered = inside \/ filtered = cells)
  /\ (filtered = cells <->
      (5 * length inside + 5 <= 4 * length cells)%nat \/ inside = cells)
  /\ (4 * length cells < 5 * length filtered + 5)%nat
  /\ (length filtered <= length cells)%nat
  /\ (filtered = [] <->
      cells = []
      \/ exists h, cells = [h] /\ point_within (center h) farm_polygon = false).
Proof.
  intros inside filtered.
  pose proof (filter_length_bound (fun h => point_within (center h) farm_polygon) cells)
    as Hle. fold inside in Hle.
  destruct (centroid_filter_cases farm_polygon cells) as [[Heq Hn]|[Heq Hn]];
    fold inside in Heq, Hn; fold filtered in Heq; rewrite Heq.
  - split; [now right|]. split; [tauto|]. split; [lia|]. split; [lia|].
    split.
    + intros ->. now left.
    + intros [->|[h [-> _]]]; [reflexivity|]. cbn [length] in Hn, Hle. lia.
  - split; [now left|]. split.
    { split; [intros Hic; now right|]. intros [Hfew|Hic]; [lia|exact Hic]. }
    split; [lia|]. split; [lia|].
    split.
    + intros Hnil. rewrite Hnil in Hn. cbn [length] in Hn.
      destruct cells as [|h [|h' rest]]; [now left| |cbn [length] in Hn; lia].
      right. exists h. split; [reflexivity|].
      unfold inside in Hnil. cbn [filter] in Hnil.
      destruct (point_within (center h) farm_polygon); [discriminate|reflexivity].
    + intros [Hc|[h [Hc Hout]]]; unfold inside; rewrite Hc; cbn [filter];
        [reflexivity|]. now rewrite Hout.
Qed.

End Filter.

(** ** Priorities *)

Section Priorities.
Context {geom : Type}.
Variable shuffle : list (hex_cell geom) -> list (hex_cell geom).

#[local] Abbreviation cell := (hex_cell geom).

Lemma num_high_twentieth (filtered : list cell) :
  num_high filtered = Z.max 1 (Z.of_nat (length filtered) / 20).
Proof. unfold num_high. now rewrite high_fraction_twentieth. Qed.

Lemma num_high_nat (filtered : list cell) :
  Z.to_nat (num_high filtered) = Nat.max 1 (length filtered / 20).
Proof.
  rewrite num_high_twentieth.
  change 20%Z with (Z.of_nat 20). rewrite <- Nat2Z.inj_div. lia.
Qed.

Lemma mark_frame (high : list Z) (l : list cell) :
  map id (map (mark high) l) = map id l
  /\ map center (map (mark high) l) = map center l
  /\ map poly (map (mark high) l) = map poly l
  /\ map area_m2 (map (mark high) l) = map area_m2 l.
Proof. rewrite !map_map. cbn [mark id center poly area_m2]. tauto. Qed.

Lemma mark_high_count (high : list Z) (l : list cell) :
  length (filter is_high (map (mark high) l))
  = length (filter (fun h => existsb (Z.eqb (id h)) high) l).
Proof.
  induction l as [|h l IH]; cbn [map filter]; [reflexivity|].
  unfold is_high at 1, mark at 1. cbn [priority].
  destruct (existsb (Z.eqb (id h)) high); cbn [length]; now rewrite IH.
Qed.

Lemma filter_perm_length {A : Type} (f : A -> bool) (l l' : list A) :
  Permutation l l' -> length (filter f l) = length (filter f l').
Proof.
  induction 1 as [|x l l' _ IH|x y l|l l' l'' _ IH1 _ IH2]; cbn [filter].
  - reflexivity.
  - destruct (f x); cbn [length]; now rewrite IH.
  - destruct (f x), (f y); reflexivity.
  - now rewrite IH1.
Qed.

(** Among cells with distinct ids, the cells whose id is among those of the
    first [m] are the first [m]. *)
Lemma filter_first_ids (l : list cell) :
  NoDup (map id l) ->
  forall m,
    filter (fun h => existsb (Z.eqb (id h)) (map id (firstn m l))) l = firstn m l.
Proof.
  induction l as [|a l IH]; intros Hnd m.
  - now rewrite firstn_nil.
  - inversion Hnd as [|? ? Hnotin Hnd']; subst.
    destruct m as [|m]; cbn [firstn map].
    + cbn [existsb]. clear. induction (a :: l) as [|x t IHt]; [reflexivity|exact IHt].
    + cbn [filter existsb]. rewrite Z.eqb_refl. cbn [orb]. f_equal.
      etransitivity; [|apply (IH Hnd' m)].
      apply filter_ext_in. intros x Hx. cbn [existsb].
      destruct (Z.eqb_spec (id x) (id a)) as [Heq|_]; [|reflexivity].
      exfalso. apply Hnotin. rewrite <- Heq. now apply in_map.
Qed.

(** X18: the priority block.  With the shuffle a rearrangement of the
    candidates and the ids pairwise distinct, the block marks
    [max(1, len(filtered) // 20)] cells as high priority (2), or all of
    them when there are fewer: at least one cell of a non-empty list, and
    none twice.  Every other cell gets priority 1, every cell gets
    ['restricted'] = False, and ids, centers, polygons and areas are left
    as they were. *)
Theorem priorities_mark_a_twentieth (filtered : list cell) :
  Permutation (shuffle filtered) filtered ->
  NoDup (map id filtered) ->
  let marked := prioritise shuffle filtered in
  length (filter is_high marked)
  = Nat.min (Nat.max 1 (length filtered / 20)) (length filtered)
  /\ Forall (fun h => (priority h = Some 1%Z \/ priority h = Some 2%Z)
                      /\ restricted h = Some false) marked
  /\ map id marked = map id filtered
  /\ map center marked = map center filtered
  /\ map poly marked = map poly filtered
  /\ map area_m2 marked = map area_m2 filtered.
Proof.
  intros Hperm Hnd marked. unfold marked, prioritise.
  split; [|split; [|apply mark_frame]].
  - rewrite mark_high_count.
    rewrite (filter_perm_length _ filtered (shuffle filtered)) by now symmetry.
    unfold high_set. rewrite filter_first_ids.
    + rewrite length_firstn, num_high_nat.
      now rewrite (Permutation_length Hperm).
    + apply (Permutation_NoDup (l := map id filtered)); [|exact Hnd].
      apply Permutation_map. now symmetry.
  - apply Forall_forall. intros h Hin. apply in_map_iff in Hin.
    destruct Hin as [h0 [<- _]]. unfold mark. cbn [priority restricted].
    destruct (existsb (Z.eqb (id h0)) (high_set shuffle filtered)); tauto.
Qed.

End Priorities.

Lemma reversing_permutes (l : list (hex_cell (list (R * R)))) :
  Permutation (reversing l) l.
Proof. unfold reversing. symmetry. apply Permutation_rev. Qed.

Lemma priorities_mark_a_twentieth_two_plots :
  length (filter is_high (prioritise reversing two_plots)) = 1%nat
  /\ map id (prioritise reversing two_plots) = [0%Z; 1%Z].
Proof.
  destruct (priorities_mark_a_twentieth reversing two_plots
              (reversing_permutes two_plots))
    as [Hcount [_ [Hid _]]].
  - cbn [two_plots map id plot_a plot_b]. repeat constructor; cbn [In]; lia.
  - split; [exact Hcount | exact Hid].
Defined.

(** ** Vehicles and capacities *)

Lemma make_uavs_ids (uniform : nat -> R) :
  map uav_id (make_uavs uniform) = map Z.of_nat (seq 0 NUM_UAV).
Proof. unfold make_uavs. rewrite map_map. reflexivity. Qed.

Lemma make_uavs_distinct (uniform : nat -> R) : NoDup (map uav_id (make_uavs uniform)).
Proof.
  rewrite make_uavs_ids. apply Finite.Injective_map_NoDup; [|apply seq_NoDup].
  intros a b. apply Nat2Z.inj.
Qed.

Lemma make_uavs_length (uniform : nat -> R) : length (make_uavs uniform) = NUM_UAV.
Proof. unfold make_uavs. now rewrite length_map, length_seq. Qed.

Lemma make_uavs_fresh (uniform : nat -> R) :
  Forall (fun u => battery_pct u <> None /\ capacity_workload u = None)
         (make_uavs uniform).
Proof.
  unfold make_uavs. apply Forall_forall. intros u Hin. apply in_map_iff in Hin.
  destruct Hin as [i [<- _]]. cbn. split; [discriminate|reflexivity].
Qed.

Lemma make_uavs_battery (uniform : nat -> R) :
  (forall i, 0.35 <= uniform i <= 1.00) ->
  5.25 <= battery_sum (make_uavs uniform) <= 15.
Proof.
  intros Hu. unfold battery_sum, make_uavs, NUM_UAV.
  cbn [seq map battery_of battery_pct Rsum fold_right].
  pose proof (Hu 0%nat). pose proof (Hu 1%nat). pose proof (Hu 2%nat).
  pose proof (Hu 3%nat). pose proof (Hu 4%nat). pose proof (Hu 5%nat).
  pose proof (Hu 6%nat). pose proof (Hu 7%nat). pose proof (Hu 8%nat).
  pose proof (Hu 9%nat). pose proof (Hu 10%nat). pose proof (Hu 11%nat).
  pose proof (Hu 12%nat). pose proof (Hu 13%nat). pose proof (Hu 14%nat).
  lra.
Qed.

Lemma sum_of_batteries (uavs : list uav) :
  Forall (fun u => battery_pct u <> None /\ capacity_workload u = None) uavs ->
  sum_of read_battery uavs = Ok (battery_sum uavs).
Proof.
  unfold battery_sum.
  induction 1 as [|u uavs [Hb _] _ IH]; cbn [sum_of map Rsum fold_right];
    [reflexivity|].
  unfold Rsum in IH. rewrite IH. unfold read_battery, battery_of.
  destruct (battery_pct u); [reflexivity | contradiction].
Qed.

Lemma set_capacities_filled (total bsum : R) (uavs : list uav) :
  bsum <> 0 ->
  Forall (fun u => battery_pct u <> None /\ capacity_workload u = None) uavs ->
  map_result (set_capacity total bsum) uavs = Ok (map (filled total bsum) uavs).
Proof.
  intros Hb.
  induction 1 as [|u uavs [Hbat Hcap] _ IH]; cbn [map_result map]; [reflexivity|].
  rewrite IH. unfold set_capacity, read_battery, filled, battery_of, py_div.
  rewrite Hcap. destruct (battery_pct u) as [b|]; [|contradiction].
  cbn [py_key bind]. destruct (Req_dec_T bsum 0); [contradiction|reflexivity].
Qed.

Lemma filled_batteries (total bsum : R) (uavs : list uav) :
  battery_sum (map (filled total bsum) uavs) = battery_sum uavs.
Proof.
  unfold battery_sum. rewrite map_map. f_equal. apply map_ext. intros u.
  unfold battery_of. now destruct (filled_frame total bsum u) as [_ [-> _]].
Qed.

Section Capacities.
Context {geom : Type}.
Variable geom_eq_dec : forall a b : geom, {a = b} + {a <> b}.
Variable KMeans_fit : nat -> Z -> list (R * R) -> option (list nat * list (R * R)).
Variable uniform : nat -> R.

#[local] Abbreviation cell := (hex_cell geom).
#[local] Abbreviation assign := (assign_hexes_to_uavs geom_eq_dec KMeans_fit).

(** On cells that carry a priority the script's workload is the one the
    assignment computes. *)
Lemma sum_of_workloads (filtered : list cell) :
  Forall (fun h => priority h <> None) filtered ->
  sum_of app_workload filtered = Ok (total_workload filtered).
Proof.
  unfold total_workload.
  induction 1 as [|h l Hp _ IH]; cbn [sum_of map Rsum fold_right]; [reflexivity|].
  unfold Rsum in IH. rewrite IH. unfold app_workload, workload.
  destruct (priority h); [reflexivity | contradiction].
Qed.

Lemma precompute_filled (filtered : list cell) :
  Forall (fun h => priority h <> None) filtered ->
  battery_sum (make_uavs uniform) <> 0 ->
  precompute filtered (make_uavs uniform)
  = Ok (map (filled (total_workload filtered) (battery_sum (make_uavs uniform)))
            (make_uavs uniform)).
Proof.
  intros Hp Hb. unfold precompute.
  rewrite (sum_of_workloads filtered Hp), (sum_of_batteries _ (make_uavs_fresh uniform)).
  cbn [bind]. apply set_capacities_filled; [exact Hb | apply make_uavs_fresh].
Qed.

(** The call on vehicles that hold the default capacities already. *)
Lemma assign_prefilled (hex_cells : list cell) (uavs : list uav) (k : nat) (seed : Z) :
  battery_sum uavs <> 0 ->
  assign hex_cells
    (map (filled (total_workload hex_cells) (battery_sum uavs)) uavs) (Some k) seed
  = (map (filled (total_workload hex_cells) (battery_sum uavs)) uavs,
     snd (assign hex_cells uavs (Some k) seed)).
Proof.
  intros Hb.
  destruct (Rle_dec (total_workload hex_cells) 0) as [Hle|Hgt].
  - now rewrite !(assign_zero_workload geom_eq_dec KMeans_fit) by exact Hle.
  - assert (Hpos : 0 < total_workload hex_cells) by lra.
    rewrite !(assign_positive_workload geom_eq_dec KMeans_fit) by exact Hpos.
    rewrite filled_batteries.
    rewrite (fill_capacities_Ok (total_workload hex_cells) (battery_sum uavs) uavs)
      by now left.
    rewrite (fill_capacities_Ok (total_workload hex_cells) (battery_sum uavs)
               (map (filled (total_workload hex_cells) (battery_sum uavs)) uavs))
      by now left.
    rewrite map_map.
    rewrite (map_ext _ _ (fun u => CapacityKMeansMore.filled_twice
                                     (total_workload hex_cells) (battery_sum uavs)
                                     (total_workload hex_cells) (battery_sum uavs) u)).
    reflexivity.
Qed.

(** X19: the capacity block of the script and the default of the
    assignment agree.  For cells that carry a priority and battery values
    drawn from [0.35, 1.00], the block runs to its end and gives every
    vehicle the capacity the assignment would have given it; the
    capacities add up to the total workload; and the call that follows
    returns what it would return for the vehicles without capacities, and
    leaves the vehicles as the block prepared them. *)
Theorem precomputed_capacities_are_the_defaults (filtered : list cell) (k : nat)
    (seed : Z) :
  Forall (fun h => priority h <> None) filtered ->
  (forall i, 0.35 <= uniform i <= 1.00) ->
  exists uavs capacities,
    precompute filtered (make_uavs uniform) = Ok uavs
    /\ uavs = map (filled (total_workload filtered) (battery_sum (make_uavs uniform)))
                  (make_uavs uniform)
    /\ map capacity_workload uavs = map Some capacities
    /\ Rsum capacities = total_workload filtered
    /\ assign filtered uavs (Some k) seed
       = (uavs, snd (assign filtered (make_uavs uniform) (Some k) seed)).
Proof.
  intros Hp Hu.
  pose proof (make_uavs_battery uniform Hu) as Hb.
  assert (Hb0 : battery_sum (make_uavs uniform) <> 0) by lra.
  set (total := total_workload filtered) in *.
  set (bsum := battery_sum (make_uavs uniform)) in *.
  exists (map (filled total bsum) (make_uavs uniform)),
         (map (fun u => total * (battery_of u / bsum)) (make_uavs uniform)).
  split; [now apply precompute_filled|]. split; [reflexivity|].
  split; [|split].
  - rewrite !map_map. apply map_ext_in. intros u Hin.
    pose proof (make_uavs_fresh uniform) as Hfresh. rewrite Forall_forall in Hfresh.
    destruct (Hfresh u Hin) as [_ Hcap]. unfold filled. now rewrite Hcap.
  - transitivity (total * (Rsum (map battery_of (make_uavs uniform)) / bsum)).
    + generalize (make_uavs uniform). intros l.
      induction l as [|u l IH]; cbn [map Rsum fold_right].
      * unfold Rdiv. ring.
      * unfold Rsum in IH. rewrite IH. unfold Rdiv. ring.
    + fold (battery_sum (make_uavs uniform)). fold bsum. field. exact Hb0.
  - now apply assign_prefilled.
Qed.

End Capacities.

(** ** The script as a whole *)

Lemma dict_values_by_key {V : Type} (d : list (Z * V)) (default : V) :
  NoDup (map fst d) ->
  map snd d
  = map (fun key => match dict_get d key with Some v => v | None => default end)
        (map fst d).
Proof.
  induction d as [|[key v] d IH]; intros Hnd; cbn [map fst snd]; [reflexivity|].
  inversion Hnd as [|? ? Hnotin Hnd']; subst.
  cbn [dict_get]. rewrite Z.eqb_refl. f_equal.
  rewrite (IH Hnd'). apply map_ext_in. intros key' Hin.
  destruct (Z.eqb_spec key' key) as [->|_]; [contradiction|reflexivity].
Qed.

(** An exception other than the refusal stays one at any result type. *)
Ltac same_exception H :=
  let E := fresh "E" in
  intros E; apply H; injection E as ->; reflexivity.

Lemma map_result_never_refuses {A B : Type} (f : A -> result B) (l : list A) :
  (forall x, f x <> Raise ZeroWorkloadError) ->
  map_result f l <> Raise ZeroWorkloadError.
Proof.
  intros Hf. induction l as [|x l IH]; cbn [map_result]; [discriminate|].
  specialize (Hf x). destruct (f x) as [y|e]; cbn [bind]; [|same_exception Hf].
  destruct (map_result f l) as [ys|e]; cbn [bind]; [discriminate|exact IH].
Qed.

Lemma py_key_never_refuses {A : Type} (v : option A) :
  py_key v <> Raise ZeroWorkloadError.
Proof. destruct v; discriminate. Qed.

Lemma count_assigned_never_refuses (stats : list (Z * uav_stats)) (uavs : list uav) :
  forall acc, count_assigned stats uavs acc <> Raise ZeroWorkloadError.
Proof.
  induction uavs as [|u uavs IH]; intros acc; cbn [count_assigned]; [discriminate|].
  destruct (dict_get stats (uav_id u)); cbn [py_key bind]; [apply IH|discriminate].
Qed.

Lemma count_assigned_sum (stats : list (Z * uav_stats)) (uavs : list uav) :
  Forall (fun u => dict_get stats (uav_id u) <> None) uavs ->
  forall acc,
    count_assigned stats uavs acc
    = Ok (acc + list_sum (map (reported_count stats) uavs))%nat.
Proof.
  unfold list_sum.
  induction 1 as [|u uavs Hu _ IH]; intros acc; cbn [count_assigned map fold_right].
  - f_equal. lia.
  - unfold reported_count at 1.
    destruct (dict_get stats (uav_id u)) as [st|]; [|contradiction].
    cbn [py_key bind]. rewrite IH. f_equal. lia.
Qed.

Lemma count_assigned_ids (stats : list (Z * uav_stats)) (uavs uavs' : list uav) :
  map uav_id uavs = map uav_id uavs' ->
  forall acc, count_assigned stats uavs acc = count_assigned stats uavs' acc.
Proof.
  revert uavs'. induction uavs as [|u uavs IH]; intros [|u' uavs'] Hids acc;
    try discriminate; [reflexivity|].
  cbn [map] in Hids. injection Hids as Hid Hrest.
  cbn [count_assigned]. rewrite Hid.
  destruct (dict_get stats (uav_id u')); cbn [py_key bind]; [|reflexivity].
  now apply IH.
Qed.

Lemma filled_ids (total bsum : R) (uavs : list uav) :
  map uav_id (map (filled total bsum) uavs) = map uav_id uavs.
Proof.
  rewrite map_map. apply map_ext. intros u.
  now destruct (filled_frame total bsum u) as [-> _].
Qed.

Lemma Rsum_positive (l : list R) :
  l <> [] -> Forall (fun x => 0 < x) l -> 0 < Rsum l.
Proof.
  intros Hne Hall. destruct Hall as [|x l Hx Hl]; [contradiction|].
  cbn [Rsum fold_right]. clear Hne.
  enough (0 <= fold_right Rplus 0 l) by lra.
  induction Hl as [|y l Hy _ IH]; cbn [fold_right]; lra.
Qed.

Section Whole.
Context {geom : Type} `{Shapely geom}.
Variable geom_eq_dec : forall a b : geom, {a = b} + {a <> b}.
Variable KMeans_fit : nat -> Z -> list (R * R) -> option (list nat * list (R * R)).
Variable point_within : R * R -> geom -> bool.
Variable shuffle : list (hex_cell geom) -> list (hex_cell geom).
Variable uniform : nat -> R.

#[local] Abbreviation cell := (hex_cell geom).
#[local] Abbreviation assign := (assign_hexes_to_uavs geom_eq_dec KMeans_fit).
#[local] Abbreviation after_grid :=
  (App.after_grid geom_eq_dec KMeans_fit point_within shuffle uniform).
#[local] Abbreviation main :=
  (App.main geom_eq_dec KMeans_fit point_within shuffle uniform).
#[local] Abbreviation filtered_of cells :=
  (prioritise shuffle (centroid_filter point_within farm cells)).

Lemma prioritise_keys (l : list cell) :
  Forall (fun h => priority h <> None /\ restricted h <> None) (prioritise shuffle l).
Proof.
  unfold prioritise. apply Forall_forall. intros h Hin. apply in_map_iff in Hin.
  destruct Hin as [h0 [<- _]]. cbn. split; discriminate.
Qed.

Lemma prioritise_priorities (l : list cell) :
  Forall (fun h => priority h <> None) (prioritise shuffle l).
Proof. eapply Forall_impl; [|apply prioritise_keys]. cbn. tauto. Qed.

Lemma prioritise_positive (l : list cell) :
  l <> [] -> Forall (fun h => 0 < area_m2 h) l ->
  0 < total_workload (prioritise shuffle l).
Proof.
  intros Hne Hall. unfold total_workload, prioritise. apply Rsum_positive.
  - destruct l; [contradiction|discriminate].
  - rewrite map_map. apply Forall_forall. intros x Hin. apply in_map_iff in Hin.
    destruct Hin as [h [<- Hh]]. rewrite Forall_forall in Hall.
    specialize (Hall h Hh). unfold workload, mark. cbn [area_m2 priority].
    destruct (existsb (Z.eqb (id h)) (high_set shuffle l)); lra.
Qed.

(** The script after the grid, with the capacity block and the call done. *)
Lemma after_grid_unfold (cells : list cell) :
  (forall i, 0.35 <= uniform i <= 1.00) ->
  after_grid cells
  = (' (assignments, stats) <-
       snd (assign (filtered_of cells) (make_uavs uniform) (Some NUM_UAV) SEED) ;;
     rows <- csv_rows assignments ;;
     total_assigned <- count_assigned stats (make_uavs uniform) 0 ;;
     average <- py_div (INR total_assigned) (INR NUM_UAV) ;;
     Ok (mk_outcome (filtered_of cells)
           (map (filled (total_workload (filtered_of cells))
                        (battery_sum (make_uavs uniform)))
                (make_uavs uniform))
           assignments stats rows total_assigned average)).
Proof.
  intros Hu. pose proof (make_uavs_battery uniform Hu) as Hb.
  assert (Hb0 : battery_sum (make_uavs uniform) <> 0) by lra.
  unfold App.after_grid.
  rewrite (precompute_filled uniform _ (prioritise_priorities _) Hb0). cbn [bind].
  rewrite (assign_prefilled geom_eq_dec KMeans_fit _ _ NUM_UAV SEED Hb0).
  destruct (snd (assign (filtered_of cells) (make_uavs uniform) (Some NUM_UAV) SEED))
    as [[assignments stats]|e]; cbn [bind]; [|reflexivity].
  destruct (csv_rows assignments) as [rows|e]; cbn [bind]; [|reflexivity].
  rewrite (count_assigned_ids stats _ (make_uavs uniform)) by apply filled_ids.
  now rewrite length_map, make_uavs_length.
Qed.

Lemma after_grid_never_refuses (cells : list cell) :
  (forall i, 0.35 <= uniform i <= 1.00) ->
  0 < total_workload (filtered_of cells) ->
  after_grid cells <> Raise ZeroWorkloadError.
Proof.
  intros Hu Hpos. rewrite (after_grid_unfold cells Hu).
  pose proof (assign_never_refuses geom_eq_dec KMeans_fit (filtered_of cells)
                (make_uavs uniform) (Some NUM_UAV) SEED Hpos) as Hnot.
  unfold other_than_refusal in Hnot.
  destruct (snd (assign (filtered_of cells) (make_uavs uniform) (Some NUM_UAV) SEED))
    as [[assignments stats]|e]; cbn [bind]; [|same_exception Hnot].
  assert (Hrows : csv_rows assignments <> Raise ZeroWorkloadError).
  { unfold csv_rows.
    pose proof (map_result_never_refuses
                  (fun entry : Z * list cell =>
                     map_result (row_of (fst entry)) (snd entry)) assignments) as Hm.
    assert (Hentry : forall entry : Z * list cell,
               map_result (row_of (fst entry)) (snd entry)
               <> Raise ZeroWorkloadError).
    { intros entry. apply map_result_never_refuses. intros h.
      unfold row_of. destruct (priority h); cbn [py_key bind]; [|discriminate].
      destruct (restricted h); cbn [py_key bind]; discriminate. }
    specialize (Hm Hentry).
    destruct (map_result _ assignments) as [rows|e]; cbn [bind];
      [discriminate | same_exception Hm]. }
  destruct (csv_rows assignments) as [rows|e]; cbn [bind]; [|same_exception Hrows].
  pose proof (count_assigned_never_refuses stats (make_uavs uniform) 0%nat) as Hcount.
  destruct (count_assigned stats (make_uavs uniform) 0) as [n|e]; cbn [bind];
    [|same_exception Hcount].
  unfold py_div. destruct (Req_dec_T (INR NUM_UAV) 0); cbn [bind]; discriminate.
Qed.

Lemma after_grid_refuses (cells : list cell) :
  (forall i, 0.35 <= uniform i <= 1.00) ->
  centroid_filter point_within farm cells = [] ->
  after_grid cells = Raise ZeroWorkloadError.
Proof.
  intros Hu Hnil. rewrite (after_grid_unfold cells Hu). rewrite Hnil.
  rewrite (assign_zero_workload geom_eq_dec KMeans_fit).
  - reflexivity.
  - unfold total_workload, prioritise. cbn [map Rsum fold_right]. lra.
Qed.

Lemma kept_cells_large (farm_polygon : geom) (l : list ((R * R) * geom)) :
  forall i,
    Forall (fun h => 1 < area_m2 h)
           (HexgridSpec.number_from farm_polygon i
              (filter (HexgridSpec.keeps farm_polygon true) l)).
Proof.
  induction l as [|h l IH]; intros i; cbn [filter HexgridSpec.number_from];
    [constructor|].
  destruct (HexgridSpec.keeps farm_polygon true h) eqn:E; [|apply IH].
  cbn [HexgridSpec.number_from]. constructor; [|apply IH].
  unfold HexgridSpec.keeps in E. apply andb_prop in E. destruct E as [_ E].
  unfold HexgridSpec.record_of. cbn [area_m2].
  destruct (Rlt_dec 1.0 (area (intersection (snd h) farm_polygon))) as [Hlt|_];
    [lra|discriminate].
Qed.

(** The grid of the script: it is returned, and its cells are larger than a
    square meter. *)
Lemma script_grid :
  exists cells : list cell,
    generate_hex_grid farm CELL_ACRES true = Ok cells
    /\ Forall (fun h => 1 < area_m2 h) cells.
Proof.
  assert (Hpos : 0 < CELL_ACRES) by (unfold CELL_ACRES; lra).
  destruct (HexgridMore.generate_hex_grid_unfold farm CELL_ACRES true Hpos)
    as [q_min [q_max [r_min [r_max [off_x [off_y Hrun]]]]]].
  eexists. split; [exact Hrun|].
  unfold clip_loop. rewrite HexgridMore.fold_clip_filter. cbn [app].
  apply kept_cells_large.
Qed.

(** X20: when the script ends on the refusal of the assignment.  With
    battery values drawn from [0.35, 1.00] the grid of the script is
    always returned, and the script raises the zero-workload error exactly
    when the centroid filter leaves no cell: the cells of the grid are
    larger than a square meter and get priority 1 or 2, so any cell that
    remains makes the total workload positive. *)
Theorem main_refuses_iff_nothing_filtered :
  (forall i, 0.35 <= uniform i <= 1.00) ->
  exists cells,
    generate_hex_grid farm CELL_ACRES true = Ok cells
    /\ main = after_grid cells
    /\ (centroid_filter point_within farm cells <> [] ->
        0 < total_workload (filtered_of cells))
    /\ (main = Raise ZeroWorkloadError
        <-> centroid_filter point_within farm cells = []).
Proof.
  intros Hu. destruct script_grid as [cells [Hrun Harea]].
  exists cells. split; [exact Hrun|].
  assert (Hmain : main = after_grid cells).
  { unfold App.main. now rewrite Hrun. }
  assert (Hpos : centroid_filter point_within farm cells <> [] ->
                 0 < total_workload (filtered_of cells)).
  { intros Hne. apply prioritise_positive; [exact Hne|].
    apply Forall_forall. intros h Hin.
    apply (centroid_filter_incl point_within farm cells) in Hin.
    rewrite Forall_forall in Harea. specialize (Harea h Hin). lra. }
  split; [exact Hmain|]. split; [exact Hpos|].
  rewrite Hmain. split.
  - intros Hraise.
    destruct (centroid_filter point_within farm cells) as [|h rest] eqn:Hf;
      [reflexivity|].
    exfalso. apply (after_grid_never_refuses cells Hu); [|exact Hraise].
    rewrite Hf. apply Hpos. discriminate.
  - now apply after_grid_refuses.
Qed.

Lemma csv_rows_of_bucket (uav_id : Z) (hexes : list cell) :
  Forall (fun h => priority h <> None /\ restricted h <> None) hexes ->
  exists rows,
    map_result (row_of uav_id) hexes = Ok rows
    /\ map row_hex_id rows = map id hexes
    /\ map row_uav_id rows = map (fun _ => uav_id) hexes.
Proof.
  induction 1 as [|h l [Hp Hr] _ [rows [IH [IHid IHu]]]]; cbn [map_result map].
  - now exists [].
  - rewrite IH. unfold row_of. destruct (priority h) as [p|]; [|contradiction].
    destruct (restricted h) as [r|]; [|contradiction].
    cbn [py_key bind].
    eexists. split; [reflexivity|]. cbn [map row_hex_id row_uav_id].
    now rewrite IHid, IHu.
Qed.

Lemma csv_rows_Ok (assignments : list (Z * list cell)) :
  Forall (fun h => priority h <> None /\ restricted h <> None)
         (concat (map snd assignments)) ->
  exists rows,
    csv_rows assignments = Ok rows
    /\ map row_hex_id rows = map id (concat (map snd assignments)).
Proof.
  unfold csv_rows.
  induction assignments as [|[key hexes] d IH]; intros Hall; cbn [map_result map].
  - now exists [].
  - cbn [map snd concat] in Hall. apply Forall_app in Hall. destruct Hall as [Hh Hd].
    destruct (csv_rows_of_bucket key hexes Hh) as [rows [Hrows [Hids _]]].
    cbn [fst snd]. rewrite Hrows. cbn [bind].
    destruct (IH Hd) as [rest [Hrest Hrids]].
    destruct (map_result _ d) as [rs|e]; cbn [bind] in Hrest; [|discriminate].
    injection Hrest as <-. cbn [bind concat].
    eexists. split; [reflexivity|].
    now rewrite !map_app, Hids, Hrids.
Qed.

(** X21: the exports and the summary cover the filtered cells.  For a grid
    of cells of positive area of which the filter leaves some, battery
    values drawn from [0.35, 1.00] and a KMeans that fits the centers into
    [NUM_UAV] clusters, the script runs to its end.  The assignment has an
    entry for each of the ids 0 .. 14; its cell lists, taken together, are
    the filtered cells, each once; the CSV has one row for each filtered
    cell; and the number of assigned cells the summary prints is the number
    of filtered cells. *)
Theorem after_grid_reports_every_cell (cells : list cell) :
  KMeans_shape KMeans_fit ->
  (forall i, 0.35 <= uniform i <= 1.00) ->
  Forall (fun h => 0 < area_m2 h) cells ->
  centroid_filter point_within farm cells <> [] ->
  (exists labels cluster_centers,
      KMeans_fit NUM_UAV SEED (map center (centroid_filter point_within farm cells))
      = Some (labels, cluster_centers)) ->
  exists out,
    after_grid cells = Ok out
    /\ out_filtered out = filtered_of cells
    /\ map fst (out_assignments out) = map Z.of_nat (seq 0 NUM_UAV)
    /\ Permutation (concat (map snd (out_assignments out))) (out_filtered out)
    /\ Permutation (map row_hex_id (out_rows out)) (map id (out_filtered out))
    /\ out_total_assigned out = length (out_filtered out)
    /\ out_average out = INR (length (out_filtered out)) / INR NUM_UAV.
Proof.
  intros Hshape Hu Harea Hne Hfit.
  pose proof (make_uavs_battery uniform Hu) as Hb.
  assert (Hpos : 0 < total_workload (filtered_of cells)).
  { apply prioritise_positive; [exact Hne|].
    apply Forall_forall. intros h Hin.
    apply (centroid_filter_incl point_within farm cells) in Hin.
    rewrite Forall_forall in Harea. now apply Harea. }
  assert (Hcomp : capacities_computable (make_uavs uniform)) by (left; lra).
  assert (Hk : (clusters (make_uavs uniform) (Some NUM_UAV)
                <= length (make_uavs uniform))%nat).
  { cbn [clusters]. now rewrite make_uavs_length. }
  assert (Hfit' : exists labels cluster_centers,
             KMeans_fit (clusters (make_uavs uniform) (Some NUM_UAV)) SEED
               (map center (filtered_of cells)) = Some (labels, cluster_centers)).
  { cbn [clusters]. unfold prioritise. rewrite map_map. exact Hfit. }
  destruct (assign_returns geom_eq_dec KMeans_fit (filtered_of cells)
              (make_uavs uniform) (Some NUM_UAV) SEED Hshape Hpos Hcomp Hk Hfit')
    as [assignments [stats Hrun]].
  destruct (assign_rows geom_eq_dec KMeans_fit (filtered_of cells) (make_uavs uniform)
              _ (Some NUM_UAV) SEED assignments stats Hshape Hk
              (make_uavs_distinct uniform) Hrun)
    as [buckets' [Hperm [Hlen [_ [Hkeys [Hskeys Hrow]]]]]].
  destruct (rows_partition (filtered_of cells) (make_uavs uniform) buckets'
              assignments stats Hperm)
    as [Hcells [_ [Hcount _]]].
  { rewrite Hlen. exact Hk. }
  { intros j u Hj. destruct (Hrow j u Hj) as [Ha [st [Hst [Hc [Hw _]]]]].
    split; [exact Ha|]. exists st. tauto. }
  assert (Hvalues : map snd assignments
                    = map (assigned_to assignments) (make_uavs uniform)).
  { rewrite (dict_values_by_key assignments []).
    - rewrite Hkeys, map_map. reflexivity.
    - rewrite Hkeys. apply make_uavs_distinct. }
  assert (Hall : Permutation (concat (map snd assignments)) (filtered_of cells)).
  { now rewrite Hvalues. }
  destruct (csv_rows_Ok assignments) as [rows [Hrows Hrids]].
  { apply Forall_forall. intros h Hin.
    pose proof (prioritise_keys (centroid_filter point_within farm cells)) as Hkeyed.
    rewrite Forall_forall in Hkeyed. apply Hkeyed.
    now apply (Permutation_in h Hall). }
  rewrite (after_grid_unfold cells Hu), Hrun. cbn [snd bind].
  rewrite Hrows. cbn [bind].
  rewrite count_assigned_sum.
  - cbn [bind Nat.add]. rewrite Hcount.
    unfold py_div. destruct (Req_dec_T (INR NUM_UAV) 0) as [Hz|_].
    { exfalso. unfold NUM_UAV in Hz. apply (not_0_INR 15); [lia|exact Hz]. }
    cbn [bind]. eexists. split; [reflexivity|].
    cbn [out_filtered out_assignments out_rows out_total_assigned out_average].
    split; [reflexivity|]. split; [now rewrite Hkeys, make_uavs_ids|].
    split; [exact Hall|]. split; [|split; reflexivity].
    rewrite Hrids. now apply Permutation_map.
  - apply Forall_forall. intros u Hin. apply In_nth_error in Hin.
    destruct Hin as [j Hj]. destruct (Hrow j u Hj) as [_ [st [Hst _]]].
    now rewrite Hst.
Qed.

End Whole.

(** *** On the sample data *)

Lemma full_battery_in_range (i : nat) : 0.35 <= full_battery i <= 1.00.
Proof. unfold full_battery. lra. Qed.

Lemma single_cluster_shape : KMeans_shape single_cluster.
Proof.
  intros k seed centers labels cc Hfit. unfold single_cluster in Hfit.
  destruct (Nat.eqb_spec k 0) as [|Hk]; [discriminate|].
  injection Hfit as <- <-.
  rewrite length_map, repeat_length. split; [reflexivity|]. split; [|reflexivity].
  apply Forall_forall. intros lab Hin. apply in_map_iff in Hin.
  destruct Hin as [_ [<- _]]. lia.
Qed.

Lemma two_plots_kept :
  centroid_filter in_plane (farm (H := plane_shapely)) two_plots = two_plots.
Proof. apply centroid_filter_all_inside. repeat constructor. Qed.

Lemma precomputed_capacities_are_the_defaults_two_plots :
  exists uavs capacities,
    precompute (prioritise reversing two_plots) (make_uavs full_battery) = Ok uavs
    /\ map capacity_workload uavs = map Some capacities
    /\ Rsum capacities = total_workload (prioritise reversing two_plots)
    /\ assign_hexes_to_uavs ring_eq_dec single_cluster (prioritise reversing two_plots)
         uavs (Some NUM_UAV) SEED
       = (uavs,
          snd (assign_hexes_to_uavs ring_eq_dec single_cluster
                 (prioritise reversing two_plots) (make_uavs full_battery)
                 (Some NUM_UAV) SEED)).
Proof.
  destruct (precomputed_capacities_are_the_defaults ring_eq_dec single_cluster
              full_battery (prioritise reversing two_plots) NUM_UAV SEED)
    as [uavs [capacities [Hpre [_ [Hcaps [Hsum Hcall]]]]]].
  - repeat constructor; discriminate.
  - exact full_battery_in_range.
  - exists uavs, capacities. tauto.
Defined.

Lemma main_refuses_iff_nothing_filtered_on_plane :
  exists cells,
    generate_hex_grid (farm (H := plane_shapely)) CELL_ACRES true = Ok cells
    /\ (main ring_eq_dec single_cluster in_plane reversing full_battery
        = Raise ZeroWorkloadError
        <-> centroid_filter in_plane (farm (H := plane_shapely)) cells = []).
Proof.
  destruct (main_refuses_iff_nothing_filtered (H := plane_shapely) ring_eq_dec
              single_cluster in_plane reversing full_battery full_battery_in_range)
    as [cells [Hrun [_ [_ Hiff]]]].
  exists cells. split; [exact Hrun | exact Hiff].
Defined.

Lemma after_grid_reports_every_cell_two_plots :
  exists out,
    after_grid (H := plane_shapely) ring_eq_dec single_cluster in_plane reversing
      full_battery two_plots = Ok out
    /\ map fst (out_assignments out) = map Z.of_nat (seq 0 NUM_UAV)
    /\ out_total_assigned out = 2%nat.
Proof.
  destruct (after_grid_reports_every_cell (H := plane_shapely) ring_eq_dec
              single_cluster in_plane reversing full_battery two_plots
              single_cluster_shape full_battery_in_range)
    as [out [Hrun [Hf [Hkeys [_ [_ [Htotal _]]]]]]].
  - repeat constructor; cbn; lra.
  - rewrite two_plots_kept. discriminate.
  - eexists _, _. reflexivity.
  - exists out. split; [exact Hrun|]. split; [exact Hkeys|].
    rewrite Htotal, Hf, two_plots_kept. reflexivity.
Defined.

End AppFacts.
